(** * Paint-session arrangement (OpenRCT2 sprite sorting benchmark)

    A shallow embedding of [paint_struct_benchmark.cpp]: the bounding-box
    overlap predicates [check_bounding_box<r>], the reorder pass
    [paint_arrange_structs_helper_rotation<r>], its dispatcher
    [paint_arrange_structs_helper] and the driver [paint_session_arrange].

    Memory is modelled explicitly.  A [paint_struct*] is either null
    ([None]), the address of the session's [PaintHead], or the address of
    [PaintStructs[j].basic].  Every loop of the source is a [Fixpoint] on a
    fuel counter; dereferencing null or an address outside the pool, and
    running out of fuel, yield [None]. *)

From Stdlib Require Import ZArith Lia.
From stdpp Require Import base decidable option list.

Local Open Scope Z_scope.

(** ** Data model *)

(** [struct paint_struct_bound_box]: six [uint16_t] fields [x], [y], [z],
    [x_end], [y_end], [z_end], here with the prefix [b_]. *)
Record paint_struct_bound_box := mk_bound_box {
  b_x : Z;
  b_y : Z;
  b_z : Z;
  b_x_end : Z;
  b_y_end : Z;
  b_z_end : Z
}.

(** A non-null [paint_struct*]. *)
Inductive paint_struct_ptr :=
| PaintHead_ptr
| PaintStructs_ptr (j : nat).

#[global] Instance paint_struct_ptr_eq_dec : EqDecision paint_struct_ptr.
Proof. solve_decision. Defined.

(** [struct attached_paint_struct]; [att_next] is the pool slot of the next
    attached entry. *)
Record attached_paint_struct := mk_attached {
  att_image_id : Z;
  att_colour_image_id : Z;
  att_x : Z;
  att_y : Z;
  att_flags : Z;
  att_pad_0D : Z;
  att_next : option nat
}.

(** [struct paint_struct].  The anonymous union of [tertiary_colour] and
    [colour_image_id] is one 32-bit slot; the screen position [x], [y] is
    [ps_x], [ps_y]; [attached_ps] is the pool slot of the first attached
    entry and [tileElement] an opaque address. *)
Record paint_struct := mk_paint_struct {
  image_id : Z;
  colour_image_id : Z;
  bounds : paint_struct_bound_box;
  ps_x : Z;
  ps_y : Z;
  quadrant_index : Z;
  flags : Z;
  quadrant_flags : Z;
  attached_ps : option nat;
  children : option paint_struct_ptr;
  next_quadrant_ps : option paint_struct_ptr;
  sprite_type : Z;
  var_29 : Z;
  pad_2A : Z;
  map_x : Z;
  map_y : Z;
  tileElement : Z
}.

(** [struct paint_string_struct]. *)
Record paint_string_struct := mk_paint_string {
  str_string_id : Z;
  str_next : option nat;
  str_x : Z;
  str_y : Z;
  str_args : list Z;
  str_y_offsets : Z
}.

(** [union paint_entry], tagged by the member in use.  The arrangement code
    only ever goes through the [basic] member. *)
Inductive paint_entry :=
| basic (ps : paint_struct)
| attached (a : attached_paint_struct)
| string_entry (t : paint_string_struct).

Definition MAX_PAINT_QUADRANTS : Z := 512.
Definition UINT32_MAX : Z := 4294967295.

(** [struct paint_session]: the pool, the bucket table, the sentinel and the
    lowest and highest occupied bucket. *)
Record paint_session := mk_paint_session {
  PaintStructs : list paint_entry;
  Quadrants : list (option paint_struct_ptr);
  PaintHead : paint_struct;
  QuadrantBackIndex : Z;
  QuadrantFrontIndex : Z
}.

(** [enum PAINT_QUADRANT_FLAGS]. *)
Definition PAINT_QUADRANT_FLAG_IDENTICAL : Z := Z.shiftl 1 0.
Definition PAINT_QUADRANT_FLAG_BIGGER : Z := Z.shiftl 1 7.
Definition PAINT_QUADRANT_FLAG_NEXT : Z := Z.shiftl 1 1.

(** Conversion of an [int] result back to [uint8_t] / [uint32_t]. *)
Definition to_uint8 (v : Z) : Z := v mod 256.
Definition to_uint32 (v : Z) : Z := v mod 4294967296.

(** [flags & bit] used as a condition. *)
Definition has_flag (fl bit : Z) : bool := negb (Z.land fl bit =? 0).

(** ** Rotation *)

(** [get_current_rotation], with the global [gCurrentRotation] passed in. *)
Definition get_current_rotation (gCurrentRotation : Z) : Z :=
  Z.land gCurrentRotation 3.

(** ** Bounding-box overlap test *)

(** [check_bounding_box<_TRotation>]: the four specialisations, and the
    primary template (which returns [false]) for every other value. *)
Definition check_bounding_box (_TRotation : Z)
    (initialBBox currentBBox : paint_struct_bound_box) : bool :=
  match _TRotation with
  | 0 =>
    if (b_z_end initialBBox >=? b_z currentBBox)
       && (b_y_end initialBBox >=? b_y currentBBox)
       && (b_x_end initialBBox >=? b_x currentBBox)
       && negb ((b_z initialBBox <? b_z_end currentBBox)
                && (b_y initialBBox <? b_y_end currentBBox)
                && (b_x initialBBox <? b_x_end currentBBox))
    then true else false
  | 1 =>
    if (b_z_end initialBBox >=? b_z currentBBox)
       && (b_y_end initialBBox >=? b_y currentBBox)
       && (b_x_end initialBBox <? b_x currentBBox)
       && negb ((b_z initialBBox <? b_z_end currentBBox)
                && (b_y initialBBox <? b_y_end currentBBox)
                && (b_x initialBBox >=? b_x_end currentBBox))
    then true else false
  | 2 =>
    if (b_z_end initialBBox >=? b_z currentBBox)
       && (b_y_end initialBBox <? b_y currentBBox)
       && (b_x_end initialBBox <? b_x currentBBox)
       && negb ((b_z initialBBox <? b_z_end currentBBox)
                && (b_y initialBBox >=? b_y_end currentBBox)
                && (b_x initialBBox >=? b_x_end currentBBox))
    then true else false
  | 3 =>
    if (b_z_end initialBBox >=? b_z currentBBox)
       && (b_y_end initialBBox <? b_y currentBBox)
       && (b_x_end initialBBox >=? b_x currentBBox)
       && negb ((b_z initialBBox <? b_z_end currentBBox)
                && (b_y initialBBox >=? b_y_end currentBBox)
                && (b_x initialBBox <? b_x_end currentBBox))
    then true else false
  | _ => false
  end.

(** ** Memory access *)

(** Field assignment on a [paint_struct] value. *)
Definition with_next_quadrant_ps (v : option paint_struct_ptr) (ps : paint_struct)
    : paint_struct :=
  {| image_id := image_id ps; colour_image_id := colour_image_id ps;
     bounds := bounds ps; ps_x := ps_x ps; ps_y := ps_y ps;
     quadrant_index := quadrant_index ps; flags := flags ps;
     quadrant_flags := quadrant_flags ps; attached_ps := attached_ps ps;
     children := children ps; next_quadrant_ps := v;
     sprite_type := sprite_type ps; var_29 := var_29 ps; pad_2A := pad_2A ps;
     map_x := map_x ps; map_y := map_y ps; tileElement := tileElement ps |}.

Definition with_quadrant_flags (v : Z) (ps : paint_struct) : paint_struct :=
  {| image_id := image_id ps; colour_image_id := colour_image_id ps;
     bounds := bounds ps; ps_x := ps_x ps; ps_y := ps_y ps;
     quadrant_index := quadrant_index ps; flags := flags ps;
     quadrant_flags := v; attached_ps := attached_ps ps;
     children := children ps; next_quadrant_ps := next_quadrant_ps ps;
     sprite_type := sprite_type ps; var_29 := var_29 ps; pad_2A := pad_2A ps;
     map_x := map_x ps; map_y := map_y ps; tileElement := tileElement ps |}.

(** Reading [*p]. *)
Definition load (s : paint_session) (p : paint_struct_ptr) : option paint_struct :=
  match p with
  | PaintHead_ptr => Some (PaintHead s)
  | PaintStructs_ptr j =>
    match PaintStructs s !! j with
    | Some (basic ps) => Some ps
    | _ => None
    end
  end.

(** Overwriting [*p]. *)
Definition store (s : paint_session) (p : paint_struct_ptr) (v : paint_struct)
    : paint_session :=
  match p with
  | PaintHead_ptr =>
    {| PaintStructs := PaintStructs s; Quadrants := Quadrants s; PaintHead := v;
       QuadrantBackIndex := QuadrantBackIndex s;
       QuadrantFrontIndex := QuadrantFrontIndex s |}
  | PaintStructs_ptr j =>
    {| PaintStructs := <[j := basic v]> (PaintStructs s); Quadrants := Quadrants s;
       PaintHead := PaintHead s;
       QuadrantBackIndex := QuadrantBackIndex s;
       QuadrantFrontIndex := QuadrantFrontIndex s |}
  end.

(** [p->next_quadrant_ps = v]. *)
Definition set_next (s : paint_session) (p : paint_struct_ptr)
    (v : option paint_struct_ptr) : option paint_session :=
  ps ← load s p; Some (store s p (with_next_quadrant_ps v ps)).

(** [p->quadrant_flags = v]. *)
Definition set_flags (s : paint_session) (p : paint_struct_ptr) (v : Z)
    : option paint_session :=
  ps ← load s p; Some (store s p (with_quadrant_flags v ps)).

(** ** The reorder pass *)

(** Outcome of the first [do ... while] of the pass: the function returned
    [ps], or the loop ended with [ps] the anchor. *)
Inductive advance_result :=
| AdvReturn (ps : paint_struct_ptr)
| AdvAnchor (ps : paint_struct_ptr).

(** [do { ps = ps_next; ps_next = ps_next->next_quadrant_ps;
         if (ps_next == nullptr) return ps;
    } while (quadrantIndex > ps_next->quadrant_index);] *)
Fixpoint helper_advance (fuel : nat) (s : paint_session)
    (ps_next : paint_struct_ptr) (quadrantIndex : Z) : option advance_result :=
  match fuel with
  | O => None
  | S fuel' =>
    let ps := ps_next in
    n ← load s ps;
    match next_quadrant_ps n with
    | None => Some (AdvReturn ps)
    | Some ps_next' =>
      n' ← load s ps_next';
      if quadrantIndex >? quadrant_index n'
      then helper_advance fuel' s ps_next' quadrantIndex
      else Some (AdvAnchor ps)
    end
  end.

(** The flag assignment in the body of the marking loop. *)
Definition mark_one (s : paint_session) (ps : paint_struct_ptr)
    (n : paint_struct) (quadrantIndex flag : Z) : option paint_session :=
  if quadrant_index n >? quadrantIndex + 1
  then set_flags s ps PAINT_QUADRANT_FLAG_BIGGER
  else if quadrant_index n =? quadrantIndex + 1
  then set_flags s ps
         (to_uint8 (Z.lor PAINT_QUADRANT_FLAG_NEXT PAINT_QUADRANT_FLAG_IDENTICAL))
  else if quadrant_index n =? quadrantIndex
  then set_flags s ps (to_uint8 (Z.lor flag PAINT_QUADRANT_FLAG_IDENTICAL))
  else Some s.

(** [do { ps = ps->next_quadrant_ps; if (ps == nullptr) break; <mark ps>
    } while (ps->quadrant_index <= quadrantIndex + 1);] *)
Fixpoint helper_mark (fuel : nat) (s : paint_session) (ps : paint_struct_ptr)
    (quadrantIndex flag : Z) : option paint_session :=
  match fuel with
  | O => None
  | S fuel' =>
    n ← load s ps;
    match next_quadrant_ps n with
    | None => Some s
    | Some ps' =>
      n' ← load s ps';
      s' ← mark_one s ps' n' quadrantIndex flag;
      if quadrant_index n' <=? quadrantIndex + 1
      then helper_mark fuel' s' ps' quadrantIndex flag
      else Some s'
    end
  end.

(** Outcome of the first inner [while (true)]: the function returned
    [ps_cache], or the loop was left by [break] with these [ps], [ps_next]. *)
Inductive find_result :=
| FindReturn
| FindBreak (ps ps_next : paint_struct_ptr).

(** [while (true) { ps_next = ps->next_quadrant_ps;
       if (ps_next == nullptr) return ps_cache;
       if (ps_next->quadrant_flags & BIGGER) return ps_cache;
       if (ps_next->quadrant_flags & IDENTICAL) break;
       ps = ps_next; }] *)
Fixpoint helper_find (fuel : nat) (s : paint_session) (ps : paint_struct_ptr)
    : option find_result :=
  match fuel with
  | O => None
  | S fuel' =>
    n ← load s ps;
    match next_quadrant_ps n with
    | None => Some FindReturn
    | Some ps_next =>
      n' ← load s ps_next;
      if has_flag (quadrant_flags n') PAINT_QUADRANT_FLAG_BIGGER then Some FindReturn
      else if has_flag (quadrant_flags n') PAINT_QUADRANT_FLAG_IDENTICAL
      then Some (FindBreak ps ps_next)
      else helper_find fuel' s ps_next
    end
  end.

(** The four assignments that move [ps_next] from behind [ps] to just
    behind [ps_temp]. *)
Definition splice (s : paint_session) (ps_temp ps ps_next : paint_struct_ptr)
    : option paint_session :=
  n' ← load s ps_next;
  s1 ← set_next s ps (next_quadrant_ps n');
  t ← load s1 ps_temp;
  let ps_temp2 := next_quadrant_ps t in
  s2 ← set_next s1 ps_temp (Some ps_next);
  set_next s2 ps_next ps_temp2.

(** The second inner [while (true)].  [pivot] is the node whose [bounds]
    the reference [initialBBox] is bound to; on entry [ps_next] is the
    value about to be copied into [ps]. *)
Fixpoint helper_scan (_TRotation : Z) (fuel : nat) (s : paint_session)
    (ps_temp pivot ps_next : paint_struct_ptr) : option paint_session :=
  match fuel with
  | O => None
  | S fuel' =>
    let ps := ps_next in
    n ← load s ps;
    match next_quadrant_ps n with
    | None => Some s
    | Some ps_next' =>
      n' ← load s ps_next';
      if has_flag (quadrant_flags n') PAINT_QUADRANT_FLAG_BIGGER then Some s
      else if negb (has_flag (quadrant_flags n') PAINT_QUADRANT_FLAG_NEXT)
      then helper_scan _TRotation fuel' s ps_temp pivot ps_next'
      else
        i ← load s pivot;
        let compareResult := check_bounding_box _TRotation (bounds i) (bounds n') in
        if compareResult
        then s' ← splice s ps_temp ps ps_next';
             helper_scan _TRotation fuel' s' ps_temp pivot ps
        else helper_scan _TRotation fuel' s ps_temp pivot ps_next'
    end
  end.

(** [ps_next->quadrant_flags &= ~PAINT_QUADRANT_FLAG_IDENTICAL]. *)
Definition clear_identical (s : paint_session) (ps_next : paint_struct_ptr)
    : option paint_session :=
  n ← load s ps_next;
  set_flags s ps_next
    (to_uint8 (Z.land (quadrant_flags n) (Z.lnot PAINT_QUADRANT_FLAG_IDENTICAL))).

(** The outer [while (true)]; [n] is the budget of the inner loops. *)
Fixpoint helper_outer (_TRotation : Z) (n fuel : nat) (s : paint_session)
    (ps ps_cache : paint_struct_ptr) : option (paint_struct_ptr * paint_session) :=
  match fuel with
  | O => None
  | S fuel' =>
    r ← helper_find n s ps;
    match r with
    | FindReturn => Some (ps_cache, s)
    | FindBreak ps ps_next =>
      s1 ← clear_identical s ps_next;
      let ps_temp := ps in
      s2 ← helper_scan _TRotation n s1 ps_temp ps_next ps_next;
      helper_outer _TRotation n fuel' s2 ps_temp ps_cache
    end
  end.

(** [paint_arrange_structs_helper_rotation<_TRotation>]. *)
Definition paint_arrange_structs_helper_rotation (_TRotation : Z) (fuel : nat)
    (s : paint_session) (ps_next : option paint_struct_ptr)
    (quadrantIndex flag : Z) : option (option paint_struct_ptr * paint_session) :=
  ps_next ← ps_next;
  r ← helper_advance fuel s ps_next quadrantIndex;
  match r with
  | AdvReturn ps => Some (Some ps, s)
  | AdvAnchor ps =>
    let ps_cache := ps in
    let ps_temp := ps in
    s1 ← helper_mark fuel s ps quadrantIndex flag;
    '(c, s2) ← helper_outer _TRotation fuel fuel s1 ps_temp ps_cache;
    Some (Some c, s2)
  end.

(** [paint_arrange_structs_helper]: the [switch] on [rotation]. *)
Definition paint_arrange_structs_helper (fuel : nat) (s : paint_session)
    (ps_next : option paint_struct_ptr) (quadrantIndex flag rotation : Z)
    : option (option paint_struct_ptr * paint_session) :=
  match rotation with
  | 0 => paint_arrange_structs_helper_rotation 0 fuel s ps_next quadrantIndex flag
  | 1 => paint_arrange_structs_helper_rotation 1 fuel s ps_next quadrantIndex flag
  | 2 => paint_arrange_structs_helper_rotation 2 fuel s ps_next quadrantIndex flag
  | 3 => paint_arrange_structs_helper_rotation 3 fuel s ps_next quadrantIndex flag
  | _ => Some (None, s)
  end.

(** ** The driver *)

(** [do { ps = ps_next; ps_next = ps_next->next_quadrant_ps; }
    while (ps_next != nullptr);] returning the final [ps]. *)
Fixpoint walk_to_tail (fuel : nat) (s : paint_session) (ps_next : paint_struct_ptr)
    : option paint_struct_ptr :=
  match fuel with
  | O => None
  | S fuel' =>
    let ps := ps_next in
    n ← load s ps;
    match next_quadrant_ps n with
    | None => Some ps
    | Some ps_next' => walk_to_tail fuel' s ps_next'
    end
  end.

(** The Quadrant Merge loop of [paint_session_arrange]:
    [do { ... } while (++quadrantIndex <= session->QuadrantFrontIndex);] *)
Fixpoint arrange_merge (n fuel : nat) (s : paint_session) (ps : paint_struct_ptr)
    (quadrantIndex : Z) : option (paint_struct_ptr * paint_session) :=
  match fuel with
  | O => None
  | S fuel' =>
    ps_next ← Quadrants s !! Z.to_nat quadrantIndex;
    '(ps', s') ←
      match ps_next with
      | None => Some (ps, s)
      | Some head =>
        s1 ← set_next s ps ps_next;
        tl ← walk_to_tail n s1 head;
        Some (tl, s1)
      end;
    let quadrantIndex' := to_uint32 (quadrantIndex + 1) in
    if quadrantIndex' <=? QuadrantFrontIndex s'
    then arrange_merge n fuel' s' ps' quadrantIndex'
    else Some (ps', s')
  end.

(** [while (++quadrantIndex < session->QuadrantFrontIndex)
       ps_cache = paint_arrange_structs_helper(ps_cache, quadrantIndex & 0xFFFF, 0, rotation);] *)
Fixpoint arrange_reorder (n fuel : nat) (s : paint_session)
    (ps_cache : option paint_struct_ptr) (quadrantIndex rotation : Z)
    : option paint_session :=
  match fuel with
  | O => None
  | S fuel' =>
    let quadrantIndex' := to_uint32 (quadrantIndex + 1) in
    if quadrantIndex' <? QuadrantFrontIndex s
    then
      '(ps_cache', s') ←
        paint_arrange_structs_helper n s ps_cache (Z.land quadrantIndex' 65535) 0 rotation;
      arrange_reorder n fuel' s' ps_cache' quadrantIndex' rotation
    else Some s
  end.

(** The state of [paint_session_arrange] after the Quadrant Merge loop and
    before the first reorder-pass call. *)
Definition paint_session_arrange_merge (fuel : nat) (s : paint_session)
    : option paint_session :=
  let psHead := PaintHead_ptr in
  s0 ← set_next s psHead None;
  let quadrantIndex := QuadrantBackIndex s0 in
  if quadrantIndex =? UINT32_MAX then Some s0
  else '(_, s1) ← arrange_merge fuel fuel s0 psHead quadrantIndex; Some s1.

(** [paint_session_arrange], with the global [gCurrentRotation] passed in. *)
Definition paint_session_arrange (gCurrentRotation : Z) (fuel : nat)
    (s : paint_session) : option paint_session :=
  let psHead := PaintHead_ptr in
  s0 ← set_next s psHead None;
  let quadrantIndex := QuadrantBackIndex s0 in
  let rotation := get_current_rotation gCurrentRotation in
  if quadrantIndex =? UINT32_MAX then Some s0
  else
    '(_, s1) ← arrange_merge fuel fuel s0 psHead quadrantIndex;
    '(ps_cache, s2) ←
      paint_arrange_structs_helper fuel s1 (Some psHead)
        (Z.land (QuadrantBackIndex s1) 65535) PAINT_QUADRANT_FLAG_NEXT rotation;
    arrange_reorder fuel fuel s2 ps_cache (QuadrantBackIndex s2) rotation.

(** ** Loading session data *)

(** A [paint_struct] as the session data holds it before
    [fixup_pointers]: the word of [next_quadrant_ps] is an integer.  The
    pointer fields that [fixup_pointers] does not touch ([attached_ps],
    [children]) are carried as what they denote. *)
Record raw_paint_struct := mk_raw_paint_struct {
  raw_image_id : Z;
  raw_colour_image_id : Z;
  raw_bounds : paint_struct_bound_box;
  raw_x : Z;
  raw_y : Z;
  raw_quadrant_index : Z;
  raw_flags : Z;
  raw_quadrant_flags : Z;
  raw_attached_ps : option nat;
  raw_children : option paint_struct_ptr;
  raw_next_quadrant_ps : Z;
  raw_sprite_type : Z;
  raw_var_29 : Z;
  raw_pad_2A : Z;
  raw_map_x : Z;
  raw_map_y : Z;
  raw_tileElement : Z
}.

(** A [paint_session] before [fixup_pointers]: the pool, seen through the
    [basic] member as [fixup_pointers] sees it, and the bucket table hold
    integers in their pointer words; [PaintHead] is not touched. *)
Record raw_paint_session := mk_raw_paint_session {
  raw_PaintStructs : list raw_paint_struct;
  raw_Quadrants : list Z;
  raw_PaintHead : paint_struct;
  raw_QuadrantBackIndex : Z;
  raw_QuadrantFrontIndex : Z
}.

(** [std::size(s->PaintStructs)]. *)
Definition PAINT_STRUCTS_SIZE : nat := 4000.

(** The rewriting of one pointer word [w]: a word equal to [entries], cast
    to a pointer, becomes [nullptr]; any other word becomes the address of
    [PaintStructs[w].basic]. *)
Definition fixup_link (entries : nat) (w : Z) : option paint_struct_ptr :=
  if w =? Z.of_nat entries then None else Some (PaintStructs_ptr (Z.to_nat w)).

(** The body of the loop over [j < paint_struct_entries]. *)
Definition fixup_struct (paint_struct_entries : nat) (r : raw_paint_struct)
    : paint_struct :=
  {| image_id := raw_image_id r; colour_image_id := raw_colour_image_id r;
     bounds := raw_bounds r; ps_x := raw_x r; ps_y := raw_y r;
     quadrant_index := raw_quadrant_index r; flags := raw_flags r;
     quadrant_flags := raw_quadrant_flags r; attached_ps := raw_attached_ps r;
     children := raw_children r;
     next_quadrant_ps := fixup_link paint_struct_entries (raw_next_quadrant_ps r);
     sprite_type := raw_sprite_type r; var_29 := raw_var_29 r;
     pad_2A := raw_pad_2A r; map_x := raw_map_x r; map_y := raw_map_y r;
     tileElement := raw_tileElement r |}.

(** The body of the loop over [i < paint_session_entries]: the two inner
    loops rewrite every pool entry and every bucket head, each from its own
    word.  [None] stands for the calls this model does not express: a count
    above the array size reads past the array, and with a count below it
    the entries past the count keep integers in their pointer words. *)
Definition fixup_session (paint_struct_entries quadrant_entries : nat)
    (r : raw_paint_session) : option paint_session :=
  if decide (paint_struct_entries = length (raw_PaintStructs r)
             ∧ quadrant_entries = length (raw_Quadrants r))
  then Some {| PaintStructs :=
                 (λ e, basic (fixup_struct paint_struct_entries e))
                   <$> raw_PaintStructs r;
               Quadrants := fixup_link quadrant_entries <$> raw_Quadrants r;
               PaintHead := raw_PaintHead r;
               QuadrantBackIndex := raw_QuadrantBackIndex r;
               QuadrantFrontIndex := raw_QuadrantFrontIndex r |}
  else None.

(** [fixup_pointers]. *)
Definition fixup_pointers (s : list raw_paint_session)
    (paint_session_entries paint_struct_entries quadrant_entries : nat)
    : option (list paint_session) :=
  if decide (paint_session_entries = length s)
  then mapM (fixup_session paint_struct_entries quadrant_entries) s
  else None.

(** The global [gCurrentRotation] is zero-initialised and never assigned. *)
Definition gCurrentRotation_initial : Z := 0.

(** One iteration of the loop of [BM_paint_session_arrange]: copy the
    session data, fix the pointers up, arrange what [local_s] points to,
    the first session.  The result is that session. *)
Definition BM_paint_session_arrange_iteration (fuel : nat)
    (s : list raw_paint_session) : option paint_session :=
  local_s ← fixup_pointers s (length s) PAINT_STRUCTS_SIZE
               (Z.to_nat MAX_PAINT_QUADRANTS);
  first ← head local_s;
  paint_session_arrange gCurrentRotation_initial fuel first.

(** * Specification vocabulary *)

(** ** Chains *)

(** [lseg s p l q]: following [next_quadrant_ps] from the pointer [p]
    visits exactly the nodes [l], in order, and arrives at [q]. *)
Fixpoint lseg (s : paint_session) (p : option paint_struct_ptr)
    (l : list paint_struct_ptr) (q : option paint_struct_ptr) : Prop :=
  match l with
  | [] => p = q
  | a :: l' => p = Some a ∧ ∃ n, load s a = Some n ∧ lseg s (next_quadrant_ps n) l' q
  end.

(** A null-terminated chain. *)
Definition chain (s : paint_session) (p : option paint_struct_ptr)
    (l : list paint_struct_ptr) : Prop := lseg s p l None.

(** The same walk, executable: [None] when the walk faults or is longer
    than [fuel]. *)
Fixpoint chain_list (fuel : nat) (s : paint_session) (p : option paint_struct_ptr)
    : option (list paint_struct_ptr) :=
  match fuel with
  | O => None
  | S fuel' =>
    match p with
    | None => Some []
    | Some a => n ← load s a; l ← chain_list fuel' s (next_quadrant_ps n); Some (a :: l)
    end
  end.

(** Single fields seen through a pointer. *)
Definition next_of (s : paint_session) (a : paint_struct_ptr) :=
  next_quadrant_ps <$> load s a.
Definition flags_of (s : paint_session) (a : paint_struct_ptr) :=
  quadrant_flags <$> load s a.
Definition index_of (s : paint_session) (a : paint_struct_ptr) :=
  quadrant_index <$> load s a.

(** ** Frame *)

(** Two [paint_struct] values that agree on every field except
    [next_quadrant_ps] and [quadrant_flags]. *)
Definition same_payload (a b : paint_struct) : Prop :=
  image_id a = image_id b ∧ colour_image_id a = colour_image_id b
  ∧ bounds a = bounds b ∧ ps_x a = ps_x b ∧ ps_y a = ps_y b
  ∧ quadrant_index a = quadrant_index b ∧ flags a = flags b
  ∧ attached_ps a = attached_ps b ∧ children a = children b
  ∧ sprite_type a = sprite_type b ∧ var_29 a = var_29 b ∧ pad_2A a = pad_2A b
  ∧ map_x a = map_x b ∧ map_y a = map_y b ∧ tileElement a = tileElement b.

(** Pool entries: a [basic] entry keeps its payload, any other entry is
    untouched. *)
Definition entry_frame (e e' : paint_entry) : Prop :=
  match e, e' with
  | basic a, basic b => same_payload a b
  | _, _ => e = e'
  end.

Definition session_frame (s s' : paint_session) : Prop :=
  Quadrants s' = Quadrants s
  ∧ QuadrantBackIndex s' = QuadrantBackIndex s
  ∧ QuadrantFrontIndex s' = QuadrantFrontIndex s
  ∧ same_payload (PaintHead s) (PaintHead s')
  ∧ Forall2 entry_frame (PaintStructs s) (PaintStructs s').

(** ** Markers of the reorder pass *)

(** The first node of [S], if any, carries the BIGGER marker. *)
Definition far_flagged (s : paint_session) (S : list paint_struct_ptr) : Prop :=
  match S with
  | [] => True
  | b :: _ => ∃ f, flags_of s b = Some f
               ∧ has_flag f PAINT_QUADRANT_FLAG_BIGGER = true
  end.

(** The first node of [S], if any, lies beyond bucket [q + 1]. *)
Definition far_index (s : paint_session) (q : Z) (S : list paint_struct_ptr) : Prop :=
  match S with
  | [] => True
  | b :: _ => ∃ i, index_of s b = Some i ∧ i > q + 1
  end.

Definition identicalb (s : paint_session) (p : paint_struct_ptr) : bool :=
  match flags_of s p with
  | Some f => has_flag f PAINT_QUADRANT_FLAG_IDENTICAL
  | None => false
  end.

(** Number of nodes of [l] still carrying the IDENTICAL marker: the
    variant of the outer loop. *)
Fixpoint pending (s : paint_session) (l : list paint_struct_ptr) : nat :=
  match l with
  | [] => 0%nat
  | a :: l' => ((if identicalb s a then 1 else 0) + pending s l')%nat
  end.

(** ** Sessions *)

(** The bucket lists from [QuadrantBackIndex] to [QuadrantFrontIndex]. *)
Definition occupied (s : paint_session) (Bs : list (list paint_struct_ptr))
    : list (list paint_struct_ptr) :=
  take (Z.to_nat (QuadrantFrontIndex s - QuadrantBackIndex s + 1))
       (drop (Z.to_nat (QuadrantBackIndex s)) Bs).

(** A session with at least one occupied bucket: [Bs] lists the content of
    every bucket; the lists are null-terminated, pairwise disjoint and do
    not contain the sentinel. *)
Record session_ok (s : paint_session) (Bs : list (list paint_struct_ptr)) : Prop := {
  ok_quadrants : length (Quadrants s) = Z.to_nat MAX_PAINT_QUADRANTS;
  ok_range : 0 <= QuadrantBackIndex s
             ∧ QuadrantBackIndex s <= QuadrantFrontIndex s
             ∧ QuadrantFrontIndex s < MAX_PAINT_QUADRANTS;
  ok_buckets : Forall2 (chain s) (Quadrants s) Bs;
  ok_disjoint : NoDup (PaintHead_ptr :: concat Bs)
}.

(** Every non-empty bucket lies between the two indices. *)
Definition unoccupied_outside (s : paint_session)
    (Bs : list (list paint_struct_ptr)) : Prop :=
  ∀ j B, Bs !! j = Some B → B ≠ [] →
    QuadrantBackIndex s <= Z.of_nat j ∧ Z.of_nat j <= QuadrantFrontIndex s.

(** The preconditions of [paint_session_arrange], the empty session
    included. *)
Record session_pre (s : paint_session) (Bs : list (list paint_struct_ptr)) : Prop := {
  pre_quadrants : length (Quadrants s) = Z.to_nat MAX_PAINT_QUADRANTS;
  pre_range : QuadrantBackIndex s = UINT32_MAX
              ∨ (0 <= QuadrantBackIndex s
                 ∧ QuadrantBackIndex s <= QuadrantFrontIndex s
                 ∧ QuadrantFrontIndex s < MAX_PAINT_QUADRANTS);
  pre_buckets : Forall2 (chain s) (Quadrants s) Bs;
  pre_disjoint : NoDup (PaintHead_ptr :: concat Bs);
  pre_unoccupied : unoccupied_outside s Bs
}.

(** Every primitive of bucket [j] carries [quadrant_index = j]. *)
Definition indexed_by_bucket (s : paint_session)
    (Bs : list (list paint_struct_ptr)) : Prop :=
  ∀ j B a, Bs !! j = Some B → a ∈ B → index_of s a = Some (Z.of_nat j).

(** [quadrant_index] never decreases along [l]. *)
Definition weakly_increasing (s : paint_session) (l : list paint_struct_ptr) : Prop :=
  ∀ i j a b, (i ≤ j)%nat → l !! i = Some a → l !! j = Some b →
    ∃ x y, index_of s a = Some x ∧ index_of s b = Some y ∧ x <= y.

(** No primitive of bucket [x] comes after a primitive of bucket [x + 2]
    or greater. *)
Definition locality (s : paint_session) (l : list paint_struct_ptr) : Prop :=
  ∀ i j a b x y, l !! i = Some a → l !! j = Some b →
    index_of s a = Some x → index_of s b = Some y → x + 2 <= y → (i < j)%nat.

(** No node of [L] passes the overlap test of rotation [rot] against a
    node that comes after it in [L]. *)
Definition no_overlap_ahead (rot : Z) (s : paint_session) (L : list paint_struct_ptr)
    : Prop :=
  ∀ L1 a L2 b na nb, L = L1 ++ a :: L2 → b ∈ L2 →
    load s a = Some na → load s b = Some nb →
    check_bounding_box rot (bounds na) (bounds nb) = false.

(** The run rejects its input or leaves the merged chain as it is. *)
Definition fails_fast (gCurrentRotation : Z) (fuel : nat) (s : paint_session) : Prop :=
  paint_session_arrange gCurrentRotation fuel s = None
  ∨ paint_session_arrange gCurrentRotation fuel s = paint_session_arrange_merge fuel s.

(** The reorder loop of the driver with every pass the specialisation
    [paint_arrange_structs_helper_rotation<r>]. *)
Fixpoint arrange_reorder_rotation (r : Z) (n fuel : nat) (s : paint_session)
    (ps_cache : option paint_struct_ptr) (quadrantIndex : Z) : option paint_session :=
  match fuel with
  | O => None
  | S fuel' =>
    let quadrantIndex' := to_uint32 (quadrantIndex + 1) in
    if quadrantIndex' <? QuadrantFrontIndex s
    then
      '(ps_cache', s') ←
        paint_arrange_structs_helper_rotation r n s ps_cache
          (Z.land quadrantIndex' 65535) 0;
      arrange_reorder_rotation r n fuel' s' ps_cache' quadrantIndex'
    else Some s
  end.

(** The run for rotation [r]: the merge, then every reorder pass the
    specialisation for [r], without the dispatch on the rotation value. *)
Definition arrange_rotation (r : Z) (fuel : nat) (s : paint_session)
    : option paint_session :=
  s1 ← paint_session_arrange_merge fuel s;
  if QuadrantBackIndex s =? UINT32_MAX then Some s1
  else
    '(ps_cache, s2) ←
      paint_arrange_structs_helper_rotation r fuel s1 (Some PaintHead_ptr)
        (Z.land (QuadrantBackIndex s1) 65535) PAINT_QUADRANT_FLAG_NEXT;
    arrange_reorder_rotation r fuel fuel s2 ps_cache (QuadrantBackIndex s2).

(** ** The overlap test as the specification words it *)

(** Rotations 0 and 1 test the y extent with [>=], rotations 0 and 3 the
    x extent. *)
Definition y_forward (r : Z) : bool := (r =? 0) || (r =? 1).
Definition x_forward (r : Z) : bool := (r =? 0) || (r =? 3).

(** The extent condition of one axis, in the direction of the rotation. *)
Definition axis_condition (forward : bool) (initial_end current_start : Z) : Prop :=
  if forward then initial_end >= current_start else initial_end < current_start.

(** The term of the containment exclusion for one axis as the claim words
    it: a strict inequality on every axis, direction-matched to
    [axis_condition]. *)
Definition strict_containment_term (forward : bool) (initial_start current_end : Z)
    : Prop :=
  if forward then initial_start < current_end else initial_start > current_end.

(** The conjunction of the claim: the three extent conditions and the
    negated exclusion of three strict terms. *)
Definition overlap_claimed (r : Z) (initial current : paint_struct_bound_box) : Prop :=
  b_z_end initial >= b_z current
  ∧ axis_condition (y_forward r) (b_y_end initial) (b_y current)
  ∧ axis_condition (x_forward r) (b_x_end initial) (b_x current)
  ∧ ¬ (b_z initial < b_z_end current
       ∧ strict_containment_term (y_forward r) (b_y initial) (b_y_end current)
       ∧ strict_containment_term (x_forward r) (b_x initial) (b_x_end current)).

(** The amended term: strict on an axis whose extent is tested with [>=],
    but [>=], not [>], on an axis whose extent is tested with [<]. *)
Definition containment_term (forward : bool) (initial_start current_end : Z) : Prop :=
  if forward then initial_start < current_end else initial_start >= current_end.

(** The amended conjunction. *)

Definition overlap_spec (r : Z) (initial current : paint_struct_bound_box) : Prop :=
  b_z_end initial >= b_z current
  ∧ axis_condition (y_forward r) (b_y_end initial) (b_y current)
  ∧ axis_condition (x_forward r) (b_x_end initial) (b_x current)
  ∧ ¬ (b_z initial < b_z_end current
       ∧ containment_term (y_forward r) (b_y initial) (b_y_end current)
       ∧ containment_term (x_forward r) (b_x initial) (b_x_end current)).

(** ** Concrete sessions *)

(** A primitive with the given bounds, bucket and successor, every other
    field zero. *)
Definition primitive (bb : paint_struct_bound_box) (qi : Z)
    (nx : option paint_struct_ptr) : paint_struct :=
  {| image_id := 0; colour_image_id := 0; bounds := bb; ps_x := 0; ps_y := 0;
     quadrant_index := qi; flags := 0; quadrant_flags := 0; attached_ps := None;
     children := None; next_quadrant_ps := nx; sprite_type := 0; var_29 := 0;
     pad_2A := 0; map_x := 0; map_y := 0; tileElement := 0 |}.

Definition no_quadrants : list (option paint_struct_ptr) :=
  replicate (Z.to_nat MAX_PAINT_QUADRANTS) None.
Definition no_buckets : list (list paint_struct_ptr) :=
  replicate (Z.to_nat MAX_PAINT_QUADRANTS) [].

(** The boxes of the nested scenario: [box_B] lies inside [box_A]. *)
Definition box_A : paint_struct_bound_box := mk_bound_box 0 0 0 4 4 4.
Definition box_B : paint_struct_bound_box := mk_bound_box 1 1 1 3 3 3.
Definition box_C : paint_struct_bound_box := mk_bound_box 20 20 20 24 24 24.

(** Bucket 5 holds A (slot 0); bucket 6 holds B (slot 1) followed by an
    unrelated C (slot 2). *)
Definition nested_session : paint_session :=
  {| PaintStructs := [basic (primitive box_A 5 None);
                      basic (primitive box_B 6 (Some (PaintStructs_ptr 2)));
                      basic (primitive box_C 6 None)];
     Quadrants := <[6%nat := Some (PaintStructs_ptr 1)]>
                    (<[5%nat := Some (PaintStructs_ptr 0)]> no_quadrants);
     PaintHead := primitive (mk_bound_box 0 0 0 0 0 0) 0 None;
     QuadrantBackIndex := 5; QuadrantFrontIndex := 6 |}.

Definition nested_buckets : list (list paint_struct_ptr) :=
  <[6%nat := [PaintStructs_ptr 1; PaintStructs_ptr 2]]>
    (<[5%nat := [PaintStructs_ptr 0]]> no_buckets).

(** A box spanning [x0 .. x1] on the x axis and [0 .. 10] on the others. *)
Definition slab (x0 x1 : Z) : paint_struct_bound_box := mk_bound_box x0 0 0 x1 10 10.

(** Buckets 5, 6 and 7 hold one primitive each (slots 0, 1, 2); along x
    the bucket-7 slab comes first and the bucket-5 slab last. *)
Definition staircase_session : paint_session :=
  {| PaintStructs := [basic (primitive (slab 4 5) 5 None);
                      basic (primitive (slab 2 3) 6 None);
                      basic (primitive (slab 0 1) 7 None)];
     Quadrants := <[7%nat := Some (PaintStructs_ptr 2)]>
                    (<[6%nat := Some (PaintStructs_ptr 1)]>
                       (<[5%nat := Some (PaintStructs_ptr 0)]> no_quadrants));
     PaintHead := primitive (mk_bound_box 0 0 0 0 0 0) 0 None;
     QuadrantBackIndex := 5; QuadrantFrontIndex := 7 |}.

Definition staircase_buckets : list (list paint_struct_ptr) :=
  <[7%nat := [PaintStructs_ptr 2]]>
    (<[6%nat := [PaintStructs_ptr 1]]>
       (<[5%nat := [PaintStructs_ptr 0]]> no_buckets)).

(** No bucket occupied; the pool still holds a stale primitive whose link
    points to itself. *)
Definition empty_session : paint_session :=
  {| PaintStructs := [basic (primitive box_A 3 (Some (PaintStructs_ptr 0)))];
     Quadrants := no_quadrants;
     PaintHead := primitive (mk_bound_box 0 0 0 0 0 0) 0 (Some (PaintStructs_ptr 0));
     QuadrantBackIndex := UINT32_MAX; QuadrantFrontIndex := 0 |}.

(** The box pair of the rotation-sensitivity example, and a pair on which
    the rotations do differ. *)
Definition box_initial : paint_struct_bound_box := mk_bound_box 0 0 0 10 10 10.
Definition box_current : paint_struct_bound_box := mk_bound_box 5 5 5 15 15 15.
Definition box_beyond : paint_struct_bound_box := mk_bound_box 15 0 0 25 10 10.

(** A pair on which a strict and a non-strict exclusion term differ: the
    first box runs backwards along x and starts where the second ends. *)
Definition box_inverted : paint_struct_bound_box := mk_bound_box 5 0 0 0 10 10.
Definition box_touching : paint_struct_bound_box := mk_bound_box 1 0 0 5 10 10.

(** A chain as the merge loop leaves it, of buckets 3, 4, 6, 6, 7 and 9
    (slots 0 to 5): head, slot 0, ..., slot 5.  Along x the bucket-7 slab
    lies in front of the first bucket-6 slab.  Slot 6 is not linked. *)
Definition terrace_session : paint_session :=
  {| PaintStructs := [basic (primitive (slab 20 21) 3 (Some (PaintStructs_ptr 1)));
                      basic (primitive (slab 18 19) 4 (Some (PaintStructs_ptr 2)));
                      basic (primitive (slab 4 5) 6 (Some (PaintStructs_ptr 3)));
                      basic (primitive (slab 6 7) 6 (Some (PaintStructs_ptr 4)));
                      basic (primitive (slab 2 3) 7 (Some (PaintStructs_ptr 5)));
                      basic (primitive (slab 0 1) 9 None);
                      basic (primitive box_A 6 (Some (PaintStructs_ptr 6)))];
     Quadrants := <[9%nat := Some (PaintStructs_ptr 5)]>
                    (<[7%nat := Some (PaintStructs_ptr 4)]>
                       (<[6%nat := Some (PaintStructs_ptr 2)]>
                          (<[4%nat := Some (PaintStructs_ptr 1)]>
                             (<[3%nat := Some (PaintStructs_ptr 0)]> no_quadrants))));
     PaintHead := primitive (mk_bound_box 0 0 0 0 0 0) 0 (Some (PaintStructs_ptr 0));
     QuadrantBackIndex := 3; QuadrantFrontIndex := 9 |}.

(** The chain of [terrace_session] behind slot 0. *)
Definition terrace_rest : list paint_struct_ptr :=
  [PaintStructs_ptr 1; PaintStructs_ptr 2; PaintStructs_ptr 3; PaintStructs_ptr 4;
   PaintStructs_ptr 5].


(** ** Boxes *)

(** Every extent runs from a start to an end not below it. *)
Definition box_ok (b : paint_struct_bound_box) : Prop :=
  b_x b <= b_x_end b ∧ b_y b <= b_y_end b ∧ b_z b <= b_z_end b.

(** Every extent has positive length. *)
Definition positive_extent (b : paint_struct_bound_box) : Prop :=
  b_x b < b_x_end b ∧ b_y b < b_y_end b ∧ b_z b < b_z_end b.

(** [inner] lies within [outer] on every axis. *)
Definition box_inside (inner outer : paint_struct_bound_box) : Prop :=
  (b_x outer <= b_x inner ∧ b_x_end inner <= b_x_end outer)
  ∧ (b_y outer <= b_y inner ∧ b_y_end inner <= b_y_end outer)
  ∧ (b_z outer <= b_z inner ∧ b_z_end inner <= b_z_end outer).

(** ** Sessions without overlap *)

(** No ordered pair of nodes of [X] passes the overlap test of rotation
    [rot]. *)
Definition no_overlap (rot : Z) (s : paint_session) (X : list paint_struct_ptr) : Prop :=
  ∀ a b na nb, a ∈ X → b ∈ X → load s a = Some na → load s b = Some nb →
    check_bounding_box rot (bounds na) (bounds nb) = false.

(** Every link that leaves a node of [Y] leads to a node of [X]. *)
Definition links_into (s : paint_session) (Y X : list paint_struct_ptr) : Prop :=
  ∀ a b, a ∈ Y → next_of s a = Some (Some b) → b ∈ X.

(** ** Session data *)

(** [raw_chain pool entries null w l]: starting at the word [w], whose null
    value is [null], and following the words of [next_quadrant_ps], whose
    null value is [entries], the slots visited are [l]. *)
Fixpoint raw_chain (pool : list raw_paint_struct) (entries null : nat) (w : Z)
    (l : list nat) : Prop :=
  match l with
  | [] => w = Z.of_nat null
  | j :: l' =>
    w ≠ Z.of_nat null ∧ j = Z.to_nat w
    ∧ ∃ r, pool !! j = Some r
        ∧ raw_chain pool entries entries (raw_next_quadrant_ps r) l'
  end.

(** The pool addresses of a list of slots. *)
Definition slots (l : list nat) : list paint_struct_ptr := PaintStructs_ptr <$> l.

(** The array sizes of [paint_session]. *)
Definition raw_sized (r : raw_paint_session) : Prop :=
  length (raw_PaintStructs r) = PAINT_STRUCTS_SIZE
  ∧ length (raw_Quadrants r) = Z.to_nat MAX_PAINT_QUADRANTS.

(** Session data that encodes a session meeting the preconditions of
    [paint_session_arrange]: [Bs] lists the slots of every bucket. *)
Record raw_session_pre (r : raw_paint_session) (Bs : list (list nat)) : Prop := {
  raw_pre_sized : raw_sized r;
  raw_pre_range : raw_QuadrantBackIndex r = UINT32_MAX
                  ∨ (0 <= raw_QuadrantBackIndex r
                     ∧ raw_QuadrantBackIndex r <= raw_QuadrantFrontIndex r
                     ∧ raw_QuadrantFrontIndex r < MAX_PAINT_QUADRANTS);
  raw_pre_buckets :
    Forall2 (raw_chain (raw_PaintStructs r) PAINT_STRUCTS_SIZE
               (Z.to_nat MAX_PAINT_QUADRANTS))
            (raw_Quadrants r) Bs;
  raw_pre_disjoint : NoDup (concat Bs);
  raw_pre_unoccupied : ∀ j B, Bs !! j = Some B → B ≠ [] →
    raw_QuadrantBackIndex r <= Z.of_nat j ∧ Z.of_nat j <= raw_QuadrantFrontIndex r
}.

(** A pool entry with the given bounds, bucket and successor word. *)
Definition raw_primitive (bb : paint_struct_bound_box) (qi : Z) (nx : Z)
    : raw_paint_struct :=
  {| raw_image_id := 0; raw_colour_image_id := 0; raw_bounds := bb; raw_x := 0;
     raw_y := 0; raw_quadrant_index := qi; raw_flags := 0; raw_quadrant_flags := 0;
     raw_attached_ps := None; raw_children := None; raw_next_quadrant_ps := nx;
     raw_sprite_type := 0; raw_var_29 := 0; raw_pad_2A := 0; raw_map_x := 0;
     raw_map_y := 0; raw_tileElement := 0 |}.

(** Session data for the nested scenario: A in slot 0 (bucket 5), B in
    slot 1 followed by C in slot 2 (bucket 6); the word 4000 ends a list
    and the word 512 marks an empty bucket. *)
Definition raw_nested : raw_paint_session :=
  {| raw_PaintStructs :=
       raw_primitive box_A 5 4000 :: raw_primitive box_B 6 2
       :: raw_primitive box_C 6 4000
       :: replicate 3997 (raw_primitive (mk_bound_box 0 0 0 0 0 0) 0 4000);
     raw_Quadrants := <[6%nat := 1]> (<[5%nat := 0]> (replicate 512 512));
     raw_PaintHead := primitive (mk_bound_box 0 0 0 0 0 0) 0 None;
     raw_QuadrantBackIndex := 5; raw_QuadrantFrontIndex := 6 |}.

Definition raw_nested_buckets : list (list nat) :=
  <[6%nat := [1; 2]%nat]> (<[5%nat := [0%nat]]> (replicate 512 [])).

(** [raw_nested] after [fixup_pointers]. *)
Definition nested_loaded : paint_session :=
  {| PaintStructs := (λ e, basic (fixup_struct PAINT_STRUCTS_SIZE e))
                       <$> raw_PaintStructs raw_nested;
     Quadrants := fixup_link 512 <$> raw_Quadrants raw_nested;
     PaintHead := raw_PaintHead raw_nested;
     QuadrantBackIndex := 5; QuadrantFrontIndex := 6 |}.

(** The staircase session with the two bucket indices exchanged. *)
Definition inverted_session : paint_session :=
  {| PaintStructs := PaintStructs staircase_session;
     Quadrants := Quadrants staircase_session;
     PaintHead := PaintHead staircase_session;
     QuadrantBackIndex := 7; QuadrantFrontIndex := 5 |}.

(** ** Which nodes a pass may move *)

(** The NEXT marker of a node, as stored. *)
Definition carries_next (s : paint_session) (p : paint_struct_ptr) : bool :=
  match flags_of s p with
  | Some f => has_flag f PAINT_QUADRANT_FLAG_NEXT
  | None => false
  end.

(** Whether the marking loop of a call with boundary [q] and flag [flag]
    leaves the node [w] with the NEXT marker: a node of bucket [q + 1]
    always, a node of bucket [q] when [flag] has it, a node beyond
    [q + 1] never, and a node of a lower bucket when it carried the marker
    before the call. *)
Definition marked_next (s : paint_session) (q flag : Z) (w : paint_struct_ptr) : bool :=
  match load s w with
  | Some n =>
    if quadrant_index n >? q + 1
    then has_flag PAINT_QUADRANT_FLAG_BIGGER PAINT_QUADRANT_FLAG_NEXT
    else if quadrant_index n =? q + 1
    then has_flag
           (to_uint8 (Z.lor PAINT_QUADRANT_FLAG_NEXT PAINT_QUADRANT_FLAG_IDENTICAL))
           PAINT_QUADRANT_FLAG_NEXT
    else if quadrant_index n =? q
    then has_flag (to_uint8 (Z.lor flag PAINT_QUADRANT_FLAG_IDENTICAL))
           PAINT_QUADRANT_FLAG_NEXT
    else has_flag (quadrant_flags n) PAINT_QUADRANT_FLAG_NEXT
  | None => false
  end.

(** The nodes of [l] that the marking loop leaves without the NEXT marker,
    in their order. *)
Definition unmarked (s : paint_session) (q flag : Z) (l : list paint_struct_ptr)
    : list paint_struct_ptr :=
  filter (λ w, marked_next s q flag w = false) l.

(** * Proofs *)

(** Split a conjunction into its conjuncts, without introducing anything. *)
Ltac splits := repeat match goal with |- _ ∧ _ => split end.

(** Discharge [chain] on a concrete session by evaluation. *)
Ltac solve_chain :=
  unfold chain; simpl;
  repeat first [reflexivity | split; [reflexivity|] | eexists; split; [reflexivity|]].

(** ** The frame relation *)

#[local] Instance same_payload_equiv : Equivalence same_payload.
Proof.
  unfold same_payload. split.
  - intros a. splits; reflexivity.
  - intros a b H. decompose [and] H. splits; congruence.
  - intros a b c H1 H2. decompose [and] H1. decompose [and] H2. splits; congruence.
Qed.

#[local] Instance entry_frame_refl : Reflexive entry_frame.
Proof. intros [a| |]; simpl; reflexivity. Qed.
#[local] Instance entry_frame_trans : Transitive entry_frame.
Proof.
  intros [a| |] [b| |] [c| |]; simpl; try congruence.
  apply same_payload_equiv.
Qed.

#[local] Instance session_frame_refl : Reflexive session_frame.
Proof. intros s. unfold session_frame. splits; reflexivity. Qed.
#[local] Instance session_frame_trans : Transitive session_frame.
Proof.
  intros a b c (?&?&?&?&?) (?&?&?&?&?).
  split; [congruence|]. split; [congruence|]. split; [congruence|]. split.
  - etransitivity; eauto.
  - etransitivity; eauto.
Qed.

(** ** Memory *)

Lemma load_store s p v q n :
  load s p = Some n →
  load (store s p v) q = if decide (q = p) then Some v else load s q.
Proof.
  intros Hp. case_decide as Hd.
  - subst q. destruct p as [|j]; simpl in *; [done|].
    rewrite list_lookup_insert_eq; [done|].
    apply lookup_lt_is_Some. destruct (PaintStructs s !! j); [eauto|done].
  - destruct p as [|j], q as [|k]; simpl in *; try done.
    rewrite list_lookup_insert_ne by congruence. done.
Qed.

Lemma store_frame s p v n :
  load s p = Some n → same_payload n v → session_frame s (store s p v).
Proof.
  intros Hp Hv. destruct p as [|j]; unfold load, store in *.
  - injection Hp as <-. unfold session_frame. simpl. splits; done.
  - destruct (PaintStructs s !! j) as [[m| |]|] eqn:E; simplify_eq.
    unfold session_frame. cbn [PaintStructs Quadrants QuadrantBackIndex
      QuadrantFrontIndex PaintHead]. splits; try done.
    rewrite <-(list_insert_id (PaintStructs s) j (basic n)) at 1 by done.
    apply Forall2_insert; [reflexivity|done].
Qed.

Lemma load_frame s s' a n :
  session_frame s s' → load s a = Some n → ∃ n', load s' a = Some n' ∧ same_payload n n'.
Proof.
  intros (_&_&_&Hh&Hp) Ha. destruct a as [|j]; unfold load in *.
  - simplify_eq. eauto.
  - destruct (PaintStructs s !! j) as [e|] eqn:E; [|done].
    destruct (Forall2_lookup_l _ _ _ _ _ Hp E) as (e'&->&He).
    destruct e, e'; simplify_eq; simpl in He; try done. eauto.
Qed.

Lemma set_next_spec s p v s' :
  set_next s p v = Some s' →
  ∃ n, load s p = Some n
    ∧ (∀ q, load s' q = if decide (q = p) then Some (with_next_quadrant_ps v n) else load s q)
    ∧ session_frame s s'.
Proof.
  unfold set_next. intros H. destruct (load s p) as [n|] eqn:E; simplify_eq/=.
  exists n. split; [done|]. split.
  - intros q. by eapply load_store.
  - eapply store_frame; [done|]. unfold same_payload. simpl. splits; done.
Qed.

Lemma set_flags_spec s p v s' :
  set_flags s p v = Some s' →
  ∃ n, load s p = Some n
    ∧ (∀ q, load s' q = if decide (q = p) then Some (with_quadrant_flags v n) else load s q)
    ∧ session_frame s s'.
Proof.
  unfold set_flags. intros H. destruct (load s p) as [n|] eqn:E; simplify_eq/=.
  exists n. split; [done|]. split.
  - intros q. by eapply load_store.
  - eapply store_frame; [done|]. unfold same_payload. simpl. splits; done.
Qed.

Lemma set_next_Some s p v n : load s p = Some n → is_Some (set_next s p v).
Proof. unfold set_next. intros ->. simpl. eauto. Qed.
Lemma set_flags_Some s p v n : load s p = Some n → is_Some (set_flags s p v).
Proof. unfold set_flags. intros ->. simpl. eauto. Qed.

Lemma set_flags_next_of s p v s' a :
  set_flags s p v = Some s' → next_of s' a = next_of s a.
Proof.
  intros (n&Hn&Hl&_)%set_flags_spec. unfold next_of. rewrite Hl.
  case_decide; [subst; rewrite Hn|]; done.
Qed.

Lemma set_next_flags_of s p v s' a :
  set_next s p v = Some s' → flags_of s' a = flags_of s a.
Proof.
  intros (n&Hn&Hl&_)%set_next_spec. unfold flags_of. rewrite Hl.
  case_decide; [subst; rewrite Hn|]; done.
Qed.

(** ** Chains *)

Lemma lseg_app s p l1 l2 q :
  lseg s p (l1 ++ l2) q ↔ ∃ m, lseg s p l1 m ∧ lseg s m l2 q.
Proof.
  revert p. induction l1 as [|a l1 IH]; intros p; simpl.
  - split; [eauto|]. by intros (m&->&?).
  - split.
    + intros (->&n&Hn&H). apply IH in H as (m&?&?). eauto 10.
    + intros (m&(->&n&Hn&H)&?). split; [done|]. exists n. split; [done|].
      apply IH. eauto.
Qed.

Lemma lseg_ext s s' p l q :
  (∀ a, a ∈ l → next_of s' a = next_of s a) → lseg s p l q → lseg s' p l q.
Proof.
  revert p. induction l as [|a l IH]; intros p Hx; simpl; [done|].
  intros (->&n&Hn&H). split; [done|].
  assert (Ha : next_of s' a = next_of s a) by (apply Hx; left).
  unfold next_of in Ha. rewrite Hn in Ha. simpl in Ha.
  destruct (load s' a) as [n'|] eqn:E'; [|done]. simpl in Ha. injection Ha as Ha.
  exists n'. split; [done|]. rewrite Ha. apply IH; [|done]. intros b Hb. apply Hx. by right.
Qed.

Lemma chain_inj s p l1 l2 : chain s p l1 → chain s p l2 → l1 = l2.
Proof.
  unfold chain. revert p l2. induction l1 as [|a l1 IH]; intros p [|b l2]; simpl.
  - done.
  - intros -> (?&_). done.
  - intros (->&_) ?. done.
  - intros (->&n&Hn&H1) (?&n'&Hn'&H2). simplify_eq. f_equal. eauto.
Qed.

Lemma chain_NoDup s p l : chain s p l → NoDup l.
Proof.
  revert p. induction l as [|a l IH]; intros p H; [constructor|].
  destruct H as (->&n&Hn&H). constructor; [|by eapply IH].
  intros Hin. apply list_elem_of_split in Hin as (l1&l2&->).
  pose proof H as H'. apply lseg_app in H' as (m&_&H2).
  assert (Hc1 : chain s (Some a) (a :: l1 ++ a :: l2)) by (split; eauto).
  assert (Hc2 : chain s (Some a) (a :: l2)).
  { destruct H2 as (->&?). split; eauto. }
  pose proof (chain_inj _ _ _ _ Hc1 Hc2) as Heq.
  apply (f_equal length) in Heq. simpl in Heq. rewrite length_app in Heq. simpl in Heq. lia.
Qed.

Lemma chain_list_sound fuel s p l : chain_list fuel s p = Some l → chain s p l.
Proof.
  revert p l. induction fuel as [|fuel IH]; intros p l; simpl; [done|].
  destruct p as [a|]; [|by intros [= <-]].
  destruct (load s a) as [n|] eqn:Hn; simpl; [|done].
  destruct (chain_list fuel s (next_quadrant_ps n)) as [l'|] eqn:Hl; simpl; [|done].
  intros [= <-]. split; [done|]. exists n. split; [done|]. by apply IH.
Qed.

Lemma chain_list_complete s p l :
  chain s p l → chain_list (S (length l)) s p = Some l.
Proof.
  revert p. induction l as [|a l IH]; intros p.
  - intros ->. done.
  - intros (->&n&Hn&H).
    change (chain_list (S (length (a :: l))) s (Some a))
      with (n ← load s a; l' ← chain_list (S (length l)) s (next_quadrant_ps n);
            Some (a :: l')).
    rewrite Hn. cbn [mbind option_bind]. by rewrite (IH _ H).
Qed.

Lemma load_frame_None s s' a :
  session_frame s s' → load s a = None → load s' a = None.
Proof.
  intros (_&_&_&Hh&Hp) Ha. destruct a as [|j]; unfold load in *; [done|].
  destruct (PaintStructs s !! j) as [e|] eqn:E.
  - destruct (Forall2_lookup_l _ _ _ _ _ Hp E) as (e'&->&He).
    destruct e, e'; simplify_eq; simpl in He; done.
  - apply lookup_ge_None in E. rewrite (Forall2_length _ _ _ Hp) in E.
    apply lookup_ge_None in E. by rewrite E.
Qed.

Lemma frame_index_of s s' a : session_frame s s' → index_of s' a = index_of s a.
Proof.
  intros Hf. unfold index_of. destruct (load s a) as [n|] eqn:E.
  - destruct (load_frame _ _ _ _ Hf E) as (n'&->&Hn'). simpl.
    destruct Hn' as (_&_&_&_&_&Hq&_). by rewrite Hq.
  - by rewrite (load_frame_None _ _ _ Hf E).
Qed.

Lemma frame_bounds s s' a n n' :
  session_frame s s' → load s a = Some n → load s' a = Some n' → bounds n' = bounds n.
Proof.
  intros Hf E E'. destruct (load_frame _ _ _ _ Hf E) as (m&Hm&Hp).
  simplify_eq. by destruct Hp as (_&_&Hb&_).
Qed.

Lemma chain_cons_inv s a l :
  chain s (Some a) (a :: l) ↔ ∃ n, load s a = Some n ∧ chain s (next_quadrant_ps n) l.
Proof.
  unfold chain. simpl. split.
  - intros (_&n&?&?). eauto.
  - intros (n&?&?). eauto.
Qed.

Lemma lseg_cons_next s p b l q : lseg s p (b :: l) q → p = Some b.
Proof. by intros (->&_). Qed.

(** ** The loops of the reorder pass *)

(** The first loop stops at an anchor of the chain and changes nothing. *)
Lemma helper_advance_spec s q fuel R c :
  chain s (Some c) (c :: R) → (length R < fuel)%nat →
  ∃ M a R', c :: R = M ++ a :: R' ∧
    ((R' = [] ∧ helper_advance fuel s c q = Some (AdvReturn a))
     ∨ helper_advance fuel s c q = Some (AdvAnchor a)).
Proof.
  revert fuel c. induction R as [|b R IH]; intros [|fuel] c Hc Hf; simpl in Hf; try lia.
  - apply chain_cons_inv in Hc as (n&Hn&Hc). red in Hc. simpl in Hc.
    exists [], c, []. split; [done|]. left. split; [done|].
    simpl. rewrite Hn. simpl. by rewrite Hc.
  - apply chain_cons_inv in Hc as (n&Hn&Hc).
    pose proof (lseg_cons_next _ _ _ _ _ Hc) as Hnx.
    rewrite Hnx in Hc. pose proof Hc as Hc'. apply chain_cons_inv in Hc' as (n'&Hn'&_).
    simpl. rewrite Hn. simpl. rewrite Hnx, Hn'. simpl.
    destruct (q >? quadrant_index n') eqn:Hq.
    + destruct (IH fuel b Hc ltac:(lia)) as (M&a&R'&HM&Hr).
      exists (c :: M), a, R'. split; [by rewrite HM|]. done.
    + exists [], c, (b :: R). split; [done|]. by right.
Qed.

Lemma mark_one_spec s b n q flag :
  load s b = Some n →
  ∃ s', mark_one s b n q flag = Some s'
    ∧ session_frame s s'
    ∧ (∀ p, next_of s' p = next_of s p)
    ∧ (∀ p, p ≠ b → load s' p = load s p)
    ∧ (quadrant_index n > q + 1 → far_flagged s' [b]).
Proof.
  intros Hn. unfold mark_one.
  assert (Hset : ∀ v s', set_flags s b v = Some s' →
            session_frame s s' ∧ (∀ p, next_of s' p = next_of s p)
            ∧ (∀ p, p ≠ b → load s' p = load s p)).
  { intros v s' Hs. split; [|split].
    - by apply set_flags_spec in Hs as (?&?&?&?).
    - intros p. by eapply set_flags_next_of.
    - intros p Hp. apply set_flags_spec in Hs as (?&?&Hl&?). rewrite Hl.
      by rewrite decide_False. }
  destruct (quadrant_index n >? q + 1) eqn:E1.
  - destruct (set_flags_Some s b PAINT_QUADRANT_FLAG_BIGGER n Hn) as [s' Hs].
    exists s'. split; [done|]. destruct (Hset _ _ Hs) as (?&?&?).
    splits; try done. intros _. simpl.
    apply set_flags_spec in Hs as (m&Hm&Hl&_). unfold flags_of.
    rewrite Hl, decide_True by done. eexists. split; [done|]. done.
  - destruct (quadrant_index n =? q + 1) eqn:E2;
      [|destruct (quadrant_index n =? q) eqn:E3].
    + edestruct (set_flags_Some s b) as [s' Hs]; [done|].
      exists s'. split; [done|]. destruct (Hset _ _ Hs) as (?&?&?).
      splits; try done. lia.
    + edestruct (set_flags_Some s b) as [s' Hs]; [done|].
      exists s'. split; [done|]. destruct (Hset _ _ Hs) as (?&?&?).
      splits; try done. lia.
    + exists s. splits; try done. lia.
Qed.

(** The marking loop writes markers only; it splits the chain behind the
    anchor into the window [W] and the far part [S]. *)
Lemma helper_mark_spec q flag fuel R a s :
  chain s (Some a) (a :: R) → (length R < fuel)%nat →
  ∃ s' W S, helper_mark fuel s a q flag = Some s' ∧ R = W ++ S
    ∧ session_frame s s'
    ∧ (∀ p, next_of s' p = next_of s p)
    ∧ (∀ p, p ∉ R → load s' p = load s p)
    ∧ (∀ w, w ∈ W → ∃ i, index_of s w = Some i ∧ i <= q + 1)
    ∧ far_flagged s' S ∧ far_index s q S.
Proof.
  revert fuel a s. induction R as [|b R IH]; intros [|fuel] a s Hc Hf; simpl in Hf; try lia.
  - apply chain_cons_inv in Hc as (n&Hn&Hc). red in Hc. simpl in Hc.
    exists s, [], []. simpl. rewrite Hn. simpl. rewrite Hc.
    splits; try done. intros w Hw. by apply elem_of_nil in Hw.
  - pose proof (chain_NoDup _ _ _ Hc) as Hnd.
    apply chain_cons_inv in Hc as (n&Hn&Hc).
    pose proof (lseg_cons_next _ _ _ _ _ Hc) as Hnx.
    rewrite Hnx in Hc. pose proof Hc as Hc'. apply chain_cons_inv in Hc' as (n'&Hn'&_).
    destruct (mark_one_spec s b n' q flag Hn') as (s1&Hm&Hfr1&Hnx1&Hl1&Hbig).
    simpl. rewrite Hn. simpl. rewrite Hnx, Hn'. simpl. rewrite Hm. simpl.
    destruct (quadrant_index n' <=? q + 1) eqn:Hq.
    + assert (Hc1 : chain s1 (Some b) (b :: R)).
      { eapply lseg_ext; [|exact Hc]. intros; apply Hnx1. }
      destruct (IH fuel b s1 Hc1 ltac:(lia)) as (s'&W&S&Hr&HR&Hfr&Hnx'&Hl'&HW&HS1&HS2).
      exists s', (b :: W), S. split; [done|]. split; [by rewrite HR|].
      split; [by etransitivity|]. split; [intros p; by rewrite Hnx', Hnx1|].
      split; [|split; [|split]].
      * intros p [Hpb HpR]%not_elem_of_cons. rewrite Hl' by done. by apply Hl1.
      * intros w [->|Hw]%elem_of_cons.
        -- exists (quadrant_index n'). unfold index_of. rewrite Hn'. split; [done|lia].
        -- destruct (HW w Hw) as (i&Hi&?). exists i. split; [|done].
           by rewrite <-(frame_index_of s s1).
      * done.
      * destruct S as [|c S]; [done|]. simpl in *. destruct HS2 as (i&Hi&?).
        exists i. split; [|done]. by rewrite <-(frame_index_of s s1).
    + exists s1, [], (b :: R). split; [done|]. split; [done|]. split; [done|].
      split; [done|]. split; [|split; [|split]].
      * intros p [Hpb _]%not_elem_of_cons. by apply Hl1.
      * intros w Hw. by apply elem_of_nil in Hw.
      * apply Hbig. lia.
      * simpl. exists (quadrant_index n'). unfold index_of. rewrite Hn'. split; [done|lia].
Qed.

Lemma helper_find_spec s S fuel W ps :
  chain s (Some ps) (ps :: W ++ S) → far_flagged s S → (length W < fuel)%nat →
  helper_find fuel s ps = Some FindReturn
  ∨ ∃ M ps' pn R n, ps :: W = M ++ ps' :: pn :: R
      ∧ helper_find fuel s ps = Some (FindBreak ps' pn)
      ∧ load s pn = Some n
      ∧ has_flag (quadrant_flags n) PAINT_QUADRANT_FLAG_IDENTICAL = true.
Proof.
  revert fuel ps. induction W as [|b W IH]; intros [|fuel] ps Hc HS Hf; simpl in Hf; try lia.
  - left. apply chain_cons_inv in Hc as (n&Hn&Hc). simpl in Hc.
    simpl. rewrite Hn. simpl. destruct S as [|c S].
    + red in Hc. simpl in Hc. by rewrite Hc.
    + pose proof (lseg_cons_next _ _ _ _ _ Hc) as Hnx. rewrite Hnx.
      destruct HS as (f&Hm&Hb). unfold flags_of in Hm.
      destruct (load s c) as [m|]; simplify_eq/=. by rewrite Hb.
  - apply chain_cons_inv in Hc as (n&Hn&Hc). simpl in Hc.
    pose proof (lseg_cons_next _ _ _ _ _ Hc) as Hnx.
    rewrite Hnx in Hc. pose proof Hc as Hc'. apply chain_cons_inv in Hc' as (n'&Hn'&_).
    simpl. rewrite Hn. simpl. rewrite Hnx, Hn'. simpl.
    destruct (has_flag (quadrant_flags n') PAINT_QUADRANT_FLAG_BIGGER) eqn:Hb; [by left|].
    destruct (has_flag (quadrant_flags n') PAINT_QUADRANT_FLAG_IDENTICAL) eqn:Hi.
    + right. exists [], ps, b, W, n'. done.
    + destruct (IH fuel b Hc HS ltac:(lia)) as [Hr|(M&ps'&pn&R&m&HM&Hr&Hm&Hid)]; [by left|].
      right. exists (ps :: M), ps', pn, R, m. split; [by rewrite HM|]. done.
Qed.

Lemma chain_mid s p X u Y :
  chain s p (X ++ u :: Y) → ∃ n, load s u = Some n ∧ chain s (next_quadrant_ps n) Y.
Proof.
  intros (m&_&H)%lseg_app. destruct H as (->&n&Hn&H). eauto.
Qed.

(** The splice moves [v] from behind [u] to just behind [t]. *)
Lemma splice_spec s p0 A t B u v R :
  chain s p0 (A ++ t :: B ++ u :: v :: R) →
  ∃ s', splice s t u v = Some s'
    ∧ chain s' p0 (A ++ t :: v :: B ++ u :: R)
    ∧ session_frame s s'
    ∧ (∀ p, flags_of s' p = flags_of s p)
    ∧ (∀ p, p ≠ t → p ≠ u → p ≠ v → load s' p = load s p).
Proof.
  intros Hc. pose proof (chain_NoDup _ _ _ Hc) as Hnd.
  apply NoDup_app in Hnd as (_&HA&Hnd).
  apply NoDup_cons in Hnd as (Ht&Hnd).
  apply NoDup_app in Hnd as (_&HB&Hnd).
  apply NoDup_cons in Hnd as (Hu&Hnd).
  apply NoDup_cons in Hnd as (Hv&_).
  assert (Htu : t ≠ u) by (intros ->; apply Ht; apply elem_of_app; right; left).
  assert (Htv : t ≠ v) by (intros ->; apply Ht; apply elem_of_app; right; right; left).
  assert (Huv : u ≠ v) by (intros ->; apply Hu; left).
  apply lseg_app in Hc as (m1&HcA&Hc).
  destruct Hc as (->&nt&Hnt&Hc).
  apply lseg_app in Hc as (m2&HcB&Hc).
  destruct Hc as (->&nu&Hnu&Hc).
  destruct Hc as (Hnuv&nv&Hnv&HcR).
  unfold splice. rewrite Hnv. simpl.
  destruct (set_next_Some s u (next_quadrant_ps nv) nu Hnu) as [s1 Hs1].
  rewrite Hs1. simpl.
  pose proof Hs1 as Hs1'. apply set_next_spec in Hs1' as (?&?&Hl1&Hf1). simplify_eq.
  assert (Hnt1 : load s1 t = Some nt) by (by rewrite Hl1, decide_False).
  rewrite Hnt1. simpl.
  destruct (set_next_Some s1 t (Some v) nt Hnt1) as [s2 Hs2].
  rewrite Hs2. simpl.
  pose proof Hs2 as Hs2'. apply set_next_spec in Hs2' as (?&?&Hl2&Hf2). simplify_eq.
  assert (Hnv2 : load s2 v = Some nv).
  { rewrite Hl2, decide_False by done. by rewrite Hl1, decide_False. }
  destruct (set_next_Some s2 v (next_quadrant_ps nt) nv Hnv2) as [s3 Hs3].
  pose proof Hs3 as Hs3'. apply set_next_spec in Hs3' as (?&?&Hl3&Hf3). simplify_eq.
  exists s3. split; [done|].
  assert (Hout : ∀ p, p ≠ t → p ≠ u → p ≠ v → load s3 p = load s p).
  { intros p ? ? ?. rewrite Hl3, decide_False by done.
    rewrite Hl2, decide_False by done. by rewrite Hl1, decide_False. }
  assert (Hext : ∀ l, (∀ a, a ∈ l → a ≠ t ∧ a ≠ u ∧ a ≠ v) →
            ∀ p q, lseg s p l q → lseg s3 p l q).
  { intros l Hl p q. apply lseg_ext. intros a Ha. unfold next_of.
    destruct (Hl a Ha) as (?&?&?). by rewrite Hout. }
  splits.
  - apply lseg_app. exists (Some t). split.
    { apply Hext; [|done]. intros a Ha. splits.
      - intros ->. eapply HA; [done|left].
      - intros ->. eapply HA; [done|]. right. apply elem_of_app. right. left.
      - intros ->. eapply HA; [done|]. right. apply elem_of_app. right. right. left. }
    split; [done|]. eexists. split.
    { rewrite Hl3, decide_False by done. by rewrite Hl2, decide_True. }
    simpl. split; [done|]. eexists. split.
    { by rewrite Hl3, decide_True. }
    simpl. apply lseg_app. exists (Some u). split.
    { apply Hext; [|done]. intros a Ha. splits.
      - intros ->. apply Ht. apply elem_of_app. by left.
      - intros ->. eapply HB; [done|left].
      - intros ->. eapply HB; [done|]. right. left. }
    split; [done|]. eexists. split.
    { rewrite Hl3, decide_False by done. rewrite Hl2, decide_False by done.
      by rewrite Hl1, decide_True. }
    simpl. apply Hext; [|done]. intros a Ha. splits.
    + intros ->. apply Ht. apply elem_of_app. right. right. by right.
    + intros ->. apply Hu. by right.
    + intros ->. by apply Hv.
  - by do 2 (etransitivity; [eassumption|]).
  - intros p. rewrite (set_next_flags_of _ _ _ _ _ Hs3).
    rewrite (set_next_flags_of _ _ _ _ _ Hs2). by rewrite (set_next_flags_of _ _ _ _ _ Hs1).
  - done.
Qed.

Lemma far_flagged_ext s s' S :
  (∀ p, flags_of s' p = flags_of s p) → far_flagged s S → far_flagged s' S.
Proof. intros H. destruct S as [|b S]; [done|]. simpl. by rewrite H. Qed.

Lemma pending_app s l1 l2 : pending s (l1 ++ l2) = (pending s l1 + pending s l2)%nat.
Proof. induction l1 as [|a l1 IH]; simpl; [done|]. rewrite IH. lia. Qed.

Lemma pending_perm s l1 l2 : l1 ≡ₚ l2 → pending s l1 = pending s l2.
Proof. induction 1; simpl; lia. Qed.

Lemma pending_ext s s' l :
  (∀ p, p ∈ l → flags_of s' p = flags_of s p) → pending s' l = pending s l.
Proof.
  induction l as [|a l IH]; intros H; simpl; [done|].
  unfold identicalb. rewrite H by left. rewrite IH; [done|].
  intros p Hp. apply H. by right.
Qed.

Lemma cleared_flag f :
  has_flag (to_uint8 (Z.land f (Z.lnot PAINT_QUADRANT_FLAG_IDENTICAL)))
    PAINT_QUADRANT_FLAG_IDENTICAL = false.
Proof.
  unfold has_flag, to_uint8.
  replace (Z.land (Z.land f (Z.lnot PAINT_QUADRANT_FLAG_IDENTICAL) mod 256)
             PAINT_QUADRANT_FLAG_IDENTICAL) with 0; [done|].
  symmetry. apply Z.bits_inj'. intros k Hk.
  rewrite Z.land_spec, Z.bits_0.
  destruct (decide (k = 0)) as [->|Hne].
  - change 256 with (2 ^ 8). rewrite Z.mod_pow2_bits_low by lia.
    rewrite Z.land_spec. change (Z.testbit (Z.lnot PAINT_QUADRANT_FLAG_IDENTICAL) 0) with false.
    by rewrite andb_false_r.
  - replace (Z.testbit PAINT_QUADRANT_FLAG_IDENTICAL k) with false; [by rewrite andb_false_r|].
    symmetry. change PAINT_QUADRANT_FLAG_IDENTICAL with (2 ^ 0).
    apply Z.pow2_bits_false. lia.
Qed.

Lemma clear_identical_spec s pn n :
  load s pn = Some n →
  ∃ s', clear_identical s pn = Some s'
    ∧ session_frame s s'
    ∧ (∀ p, next_of s' p = next_of s p)
    ∧ (∀ p, p ≠ pn → load s' p = load s p)
    ∧ identicalb s' pn = false.
Proof.
  intros Hn. unfold clear_identical. rewrite Hn. simpl.
  edestruct (set_flags_Some s pn) as [s' Hs]; [done|].
  exists s'. split; [done|].
  pose proof Hs as Hs'. apply set_flags_spec in Hs' as (?&?&Hl&Hf). simplify_eq.
  splits; try done.
  - intros p. by eapply set_flags_next_of.
  - intros p Hp. by rewrite Hl, decide_False.
  - unfold identicalb, flags_of. rewrite Hl, decide_True by done. simpl.
    apply cleared_flag.
Qed.

Lemma chain_suffix s p X Y : chain s p (X ++ Y) → ∃ m, lseg s p X m ∧ chain s m Y.
Proof. intros H. by apply lseg_app in H. Qed.

Section ReorderLoops.

Variable rot : Z.
Variable p0 : option paint_struct_ptr.

(** The scan loop pulls nodes of the window forward to just behind
    [ps_temp]; the prefix [A ++ [t]] and the far part [S] stay as they
    are, and no marker changes. *)
Lemma helper_scan_spec S pivot t fuel R1 B A u s :
  chain s p0 (A ++ t :: B ++ u :: R1 ++ S) → far_flagged s S →
  is_Some (load s pivot) → (length R1 < fuel)%nat →
  ∃ s' M, helper_scan rot fuel s t pivot u = Some s'
    ∧ chain s' p0 (A ++ t :: M ++ S) ∧ M ≡ₚ B ++ u :: R1
    ∧ session_frame s s'
    ∧ (∀ p, flags_of s' p = flags_of s p)
    ∧ (∀ p, p ∉ t :: B ++ u :: R1 → load s' p = load s p).
Proof.
  revert fuel B u s.
  induction R1 as [|v R1 IH]; intros [|fuel] B u s Hc HS Hpiv Hf; simpl in Hf; try lia.
  - exists s, (B ++ [u]). splits; try done.
    + assert (Hc' : chain s p0 ((A ++ t :: B) ++ u :: S)).
      { by rewrite <-app_assoc. }
      apply chain_mid in Hc' as (n&Hn&Hc'). simpl. rewrite Hn. simpl.
      destruct S as [|c S].
      * red in Hc'. simpl in Hc'. by rewrite Hc'.
      * pose proof (lseg_cons_next _ _ _ _ _ Hc') as Hnx. rewrite Hnx.
        destruct HS as (f&Hm&Hb). unfold flags_of in Hm.
        destruct (load s c) as [m|]; simplify_eq/=. by rewrite Hb.
    + by rewrite <-app_assoc.
  - assert (Hc' : chain s p0 ((A ++ t :: B) ++ u :: v :: R1 ++ S)).
    { by rewrite <-app_assoc. }
    apply chain_mid in Hc' as (n&Hn&Hc').
    pose proof (lseg_cons_next _ _ _ _ _ Hc') as Hnx. rewrite Hnx in Hc'.
    apply chain_cons_inv in Hc' as (n'&Hn'&_).
    simpl. rewrite Hn. simpl. rewrite Hnx, Hn'. simpl.
    assert (Hskip : ∃ s' M, helper_scan rot fuel s t pivot v = Some s'
      ∧ chain s' p0 (A ++ t :: M ++ S) ∧ M ≡ₚ B ++ u :: v :: R1
      ∧ session_frame s s'
      ∧ (∀ p, flags_of s' p = flags_of s p)
      ∧ (∀ p, p ∉ t :: B ++ u :: v :: R1 → load s' p = load s p)).
    { destruct (IH fuel (B ++ [u]) v s) as (s'&M&Hr&Hc2&HM&Hfr&Hfl&Hl); try done.
      - by rewrite <-app_assoc.
      - lia.
      - exists s', M. splits; try done.
        + by rewrite HM, <-app_assoc.
        + intros p Hp. apply Hl. by rewrite <-app_assoc. }
    destruct (has_flag (quadrant_flags n') PAINT_QUADRANT_FLAG_BIGGER) eqn:Hb.
    { exists s, (B ++ u :: v :: R1). splits; try done. by rewrite <-app_assoc. }
    destruct (has_flag (quadrant_flags n') PAINT_QUADRANT_FLAG_NEXT) eqn:Hnext;
      simpl; [|done].
    destruct Hpiv as [i Hi]. rewrite Hi. simpl.
    destruct (check_bounding_box rot (bounds i) (bounds n')); [|done].
    destruct (splice_spec s p0 A t B u v (R1 ++ S) Hc) as (s1&Hs1&Hc1&Hfr1&Hfl1&Hl1).
    rewrite Hs1. simpl.
    destruct (IH fuel (v :: B) u s1) as (s'&M&Hr&Hc2&HM&Hfr&Hfl&Hl); try done.
    + by eapply far_flagged_ext.
    + destruct (load_frame _ _ _ _ Hfr1 Hi) as (?&->&_). eauto.
    + lia.
    + exists s', M. splits; try done.
      * rewrite HM. simpl. rewrite <-!Permutation_middle. apply perm_swap.
      * by etransitivity.
      * intros p. by rewrite Hfl, Hfl1.
      * intros p Hp. rewrite Hl.
        -- apply Hl1.
           ++ intros ->. apply Hp. left.
           ++ intros ->. apply Hp. right. apply elem_of_app. right. left.
           ++ intros ->. apply Hp. right. apply elem_of_app. right. right. left.
        -- intros Hin. apply Hp. revert Hin.
           rewrite !elem_of_cons, !elem_of_app, !elem_of_cons. tauto.
Qed.

(** The outer loop: each round clears one IDENTICAL marker, so [pending]
    bounds the number of rounds. *)
Lemma helper_outer_spec S c n fuel : ∀ s P ps W,
  chain s p0 (P ++ ps :: W ++ S) → far_flagged s S →
  (pending s W < fuel)%nat → (length W < n)%nat →
  ∃ s' W', helper_outer rot n fuel s ps c = Some (c, s')
    ∧ chain s' p0 (P ++ ps :: W' ++ S) ∧ W' ≡ₚ W
    ∧ session_frame s s'
    ∧ (∀ p, p ∉ ps :: W → load s' p = load s p).
Proof.
  induction fuel as [|fuel IH]; intros s P ps W Hc HS Hpend Hlen; [lia|].
  pose proof (chain_NoDup _ _ _ Hc) as Hnd.
  destruct (chain_suffix _ _ _ _ Hc) as (m&HcP&Hcs).
  pose proof (lseg_cons_next _ _ _ _ _ Hcs) as ->.
  destruct (helper_find_spec s S n W ps Hcs HS Hlen)
    as [Hr|(M&ps'&pn&R&npn&HM&Hr&Hnpn&Hid)]; simpl; rewrite Hr; simpl.
  { exists s, W. splits; done. }
  destruct (clear_identical_spec s pn npn Hnpn) as (s1&Hs1&Hfr1&Hnx1&Hl1&Hid1).
  rewrite Hs1. simpl.
  assert (Hlist : P ++ ps :: W ++ S = (P ++ M) ++ ps' :: [] ++ pn :: R ++ S).
  { change (ps :: W ++ S) with ((ps :: W) ++ S). rewrite HM.
    rewrite <-!app_assoc. simpl. done. }
  assert (HpnS : ∀ b, b ∈ S → b ≠ pn).
  { intros b Hb ->. rewrite Hlist in Hnd. apply NoDup_app in Hnd as (_&_&Hnd).
    apply NoDup_cons in Hnd as (_&Hnd). simpl in Hnd.
    apply NoDup_cons in Hnd as (Hnd&_). apply Hnd. apply elem_of_app. by right. }
  assert (HpnR : pn ∉ R).
  { intros Hin. rewrite Hlist in Hnd. apply NoDup_app in Hnd as (_&_&Hnd).
    apply NoDup_cons in Hnd as (_&Hnd). simpl in Hnd.
    apply NoDup_cons in Hnd as (Hnd&_). apply Hnd. apply elem_of_app. by left. }
  assert (Hc1 : chain s1 p0 ((P ++ M) ++ ps' :: [] ++ pn :: R ++ S)).
  { rewrite <-Hlist. eapply lseg_ext; [|exact Hc]. intros; apply Hnx1. }
  assert (HS1 : far_flagged s1 S).
  { destruct S as [|b S]; [done|]. simpl in *. unfold flags_of in *.
    rewrite Hl1; [done|]. apply HpnS. left. }
  assert (HlenR : (length R < n)%nat).
  { apply (f_equal length) in HM. simpl in HM. rewrite length_app in HM. simpl in HM. lia. }
  destruct (helper_scan_spec S pn ps' n R [] (P ++ M) pn s1 Hc1 HS1)
    as (s2&M2&Hs2&Hc2&HM2&Hfr2&Hfl2&Hl2); [|done|].
  { destruct (load_frame _ _ _ _ Hfr1 Hnpn) as (?&->&_). eauto. }
  rewrite Hs2. simpl. simpl in HM2.
  assert (Hpend2 : (pending s2 M2 < fuel)%nat).
  { rewrite (pending_ext s1 s2) by (intros; apply Hfl2).
    rewrite (pending_perm _ _ _ HM2). simpl. rewrite Hid1. simpl.
    rewrite (pending_ext s s1).
    2:{ intros p Hp. unfold flags_of. rewrite Hl1; [done|]. by intros ->. }
    assert (identicalb s pn = true) as Hidb.
    { unfold identicalb, flags_of. rewrite Hnpn. simpl. done. }
    assert (∃ W1, W = W1 ++ pn :: R) as (W1&HW1).
    { destruct M as [|x M]; simpl in HM; injection HM as -> ->.
      - by exists [].
      - exists (M ++ [ps']). by rewrite <-app_assoc. }
    rewrite HW1, pending_app in Hpend. simpl in Hpend. rewrite Hidb in Hpend. lia. }
  assert (Hlen2 : (length M2 < n)%nat).
  { rewrite (Permutation_length HM2). simpl. 
    apply (f_equal length) in HM. simpl in HM. rewrite length_app in HM. simpl in HM. lia. }
  destruct (IH s2 (P ++ M) ps' M2 Hc2 (far_flagged_ext _ _ _ Hfl2 HS1) Hpend2 Hlen2)
    as (s'&W2&Hr'&Hc'&HW2&Hfr'&Hl').
  rewrite Hr'.
  assert (Hloads : ∀ p, p ∉ ps :: W → load s' p = load s p).
  { intros p Hp. rewrite HM in Hp.
    rewrite Hl'.
    2:{ intros Hin. apply Hp. apply elem_of_app. right.
        apply elem_of_cons in Hin as [->|Hin]; [left|]. right.
        by rewrite <-HM2. }
    rewrite Hl2.
    2:{ intros Hin. apply Hp. apply elem_of_app. by right. }
    apply Hl1. intros ->. apply Hp. apply elem_of_app. right. right. left. }
  destruct M as [|x M].
  - simpl in HM. injection HM as -> ->.
    exists s', W2. split; [done|]. splits.
    + by rewrite app_nil_r in Hc'.
    + by rewrite HW2, HM2.
    + by do 2 (etransitivity; [eassumption|]).
    + done.
  - simpl in HM. injection HM as -> ->.
    exists s', (M ++ ps' :: W2). split; [done|]. splits.
    + rewrite <-app_assoc in Hc'. simpl in Hc'. by rewrite <-app_assoc.
    + by rewrite HW2, HM2.
    + by do 2 (etransitivity; [eassumption|]).
    + done.
Qed.

End ReorderLoops.

Lemma pending_le_length s l : (pending s l ≤ length l)%nat.
Proof. induction l as [|a l IH]; simpl; [lia|]. destruct (identicalb s a); lia. Qed.

(** ** The reorder pass *)

Lemma helper_rotation_spec rot q flag fuel s p0 A c R :
  chain s p0 (A ++ c :: R) → (length R < fuel)%nat →
  ∃ s' a M W W' S,
    paint_arrange_structs_helper_rotation rot fuel s (Some c) q flag = Some (Some a, s')
    ∧ c :: R = M ++ a :: W ++ S
    ∧ chain s' p0 (A ++ M ++ a :: W' ++ S)
    ∧ W' ≡ₚ W
    ∧ session_frame s s'
    ∧ (∀ w, w ∈ W → ∃ i, index_of s w = Some i ∧ i <= q + 1)
    ∧ far_index s q S
    ∧ (∀ p, p ∉ c :: R → load s' p = load s p).
Proof.
  intros Hc Hf. destruct (chain_suffix _ _ _ _ Hc) as (m&HcA&Hcs).
  pose proof (lseg_cons_next _ _ _ _ _ Hcs) as ->.
  destruct (helper_advance_spec s q fuel R c Hcs Hf) as (M&a&R'&HM&[[-> Hr]|Hr]);
    unfold paint_arrange_structs_helper_rotation; simpl; rewrite Hr; simpl.
  { exists s, a, M, [], [], []. splits; try done.
    - simpl. by rewrite <-HM.
    - intros w Hw. by apply elem_of_nil in Hw. }
  assert (HlenR' : (length R' < fuel)%nat).
  { apply (f_equal length) in HM. simpl in HM. rewrite length_app in HM. simpl in HM. lia. }
  assert (Hc' : chain s p0 ((A ++ M) ++ a :: R')).
  { rewrite <-app_assoc, <-HM. done. }
  destruct (chain_suffix _ _ _ _ Hc') as (m&_&Hca).
  pose proof (lseg_cons_next _ _ _ _ _ Hca) as ->.
  destruct (helper_mark_spec q flag fuel R' a s Hca HlenR')
    as (s1&W&S&Hs1&HR'&Hfr1&Hnx1&Hl1&HW&HS1&HS2).
  rewrite Hs1. simpl. subst R'.
  assert (Hc1 : chain s1 p0 ((A ++ M) ++ a :: W ++ S)).
  { eapply lseg_ext; [|exact Hc']. intros; apply Hnx1. }
  destruct (helper_outer_spec rot p0 S a fuel fuel s1 (A ++ M) a W Hc1 HS1)
    as (s2&W'&Hs2&Hc2&HW'&Hfr2&Hl2).
  { pose proof (pending_le_length s1 W). rewrite length_app in HlenR'. lia. }
  { rewrite length_app in HlenR'. lia. }
  rewrite Hs2. simpl.
  exists s2, a, M, W, W', S. splits; try done.
  - by rewrite <-app_assoc in Hc2.
  - by etransitivity.
  - intros p Hp. rewrite HM in Hp. rewrite Hl2, Hl1; [done| |].
    + intros Hin. apply Hp. apply elem_of_app. right. by right.
    + intros Hin. apply Hp. apply elem_of_app. right.
      apply elem_of_cons in Hin as [->|Hin]; [left|]. right. apply elem_of_app. by left.
Qed.

Lemma helper_spec rotation q flag fuel s p0 A c R :
  0 <= rotation < 4 →
  chain s p0 (A ++ c :: R) → (length R < fuel)%nat →
  ∃ s' a M W W' S,
    paint_arrange_structs_helper fuel s (Some c) q flag rotation = Some (Some a, s')
    ∧ c :: R = M ++ a :: W ++ S
    ∧ chain s' p0 (A ++ M ++ a :: W' ++ S)
    ∧ W' ≡ₚ W
    ∧ session_frame s s'
    ∧ (∀ w, w ∈ W → ∃ i, index_of s w = Some i ∧ i <= q + 1)
    ∧ far_index s q S
    ∧ (∀ p, p ∉ c :: R → load s' p = load s p).
Proof.
  intros Hrot Hc Hf.
  assert (rotation = 0 ∨ rotation = 1 ∨ rotation = 2 ∨ rotation = 3)
    as [-> | [-> | [-> | ->]]] by lia;
    by apply helper_rotation_spec.
Qed.

(** ** Quadrant Merge *)

Lemma walk_to_tail_spec s fuel l h :
  chain s (Some h) (h :: l) → (length l < fuel)%nat →
  ∃ l' t, h :: l = l' ++ [t] ∧ walk_to_tail fuel s h = Some t.
Proof.
  revert fuel h. induction l as [|b l IH]; intros [|fuel] h Hc Hf; simpl in Hf; try lia.
  - apply chain_cons_inv in Hc as (n&Hn&Hc). red in Hc. simpl in Hc.
    exists [], h. split; [done|]. simpl. rewrite Hn. simpl. by rewrite Hc.
  - apply chain_cons_inv in Hc as (n&Hn&Hc).
    pose proof (lseg_cons_next _ _ _ _ _ Hc) as Hnx. rewrite Hnx in Hc.
    destruct (IH fuel b Hc ltac:(lia)) as (l'&t&Hl'&Hr).
    exists (h :: l'), t. split; [by rewrite Hl'|].
    simpl. rewrite Hn. simpl. by rewrite Hnx.
Qed.

Lemma chain_None_inv s l : chain s None l → l = [].
Proof. destruct l; [done|]. by intros (?&_). Qed.

Lemma to_uint32_small v : 0 <= v <= UINT32_MAX → to_uint32 v = v.
Proof. unfold to_uint32, UINT32_MAX. intros ?. apply Z.mod_small. lia. Qed.

Lemma elem_of_concat (x : paint_struct_ptr) (ls : list (list paint_struct_ptr)) :
  x ∈ concat ls ↔ ∃ l, l ∈ ls ∧ x ∈ l.
Proof.
  induction ls as [|l ls IH]; simpl.
  - split; [by intros ?%elem_of_nil|]. by intros (l&?%elem_of_nil&_).
  - rewrite elem_of_app, IH. split.
    + intros [?|(l'&?&?)]; [exists l; split; [left|done]|exists l'; split; [by right|done]].
    + intros (l'&[->|?]%elem_of_cons&?); [by left|right; eauto].
Qed.

Lemma Forall2_chain_ext s s' Q (Bs : list (list paint_struct_ptr)) :
  (∀ l a, l ∈ Bs → a ∈ l → next_of s' a = next_of s a) →
  Forall2 (chain s) Q Bs → Forall2 (chain s') Q Bs.
Proof.
  intros Hx HF. induction HF as [|q l Q Bs Hql HF IH]; constructor.
  - eapply lseg_ext; [|exact Hql]. intros a Ha. apply (Hx l); [left|done].
  - apply IH. intros l' a Hl' Ha. apply (Hx l'); [by right|done].
Qed.

Section MergeLoop.

Variable n : nat.
Variable p0 : option paint_struct_ptr.

(** One round of the merge loop appends bucket [B] behind the tail [ps]. *)
Lemma merge_step s acc ps qk B :
  chain s p0 (acc ++ [ps]) → chain s qk B → NoDup ((acc ++ [ps]) ++ B) →
  (length B < n)%nat →
  ∃ s1 ps1 acc1,
    match qk with
    | None => Some (ps, s)
    | Some head => s1 ← set_next s ps qk; tl ← walk_to_tail n s1 head; Some (tl, s1)
    end = Some (ps1, s1)
    ∧ (acc ++ [ps]) ++ B = acc1 ++ [ps1]
    ∧ chain s1 p0 ((acc ++ [ps]) ++ B)
    ∧ session_frame s s1
    ∧ (∀ p, p ≠ ps → load s1 p = load s p)
    ∧ ps1 ∈ ps :: B.
Proof.
  intros Hc HB Hnd Hn. destruct qk as [h|].
  - destruct B as [|h' B]; [done|].
    pose proof (lseg_cons_next _ _ _ _ _ HB) as Hh. injection Hh as <-.
    destruct (chain_mid _ _ _ _ _ Hc) as (nps&Hnps&Hnil).
    destruct (set_next_Some s ps (Some h) nps Hnps) as [s1 Hs1].
    pose proof Hs1 as Hs1'. apply set_next_spec in Hs1' as (?&?&Hl1&Hfr1). simplify_eq.
    assert (Hps : (ps ∉ acc) ∧ (ps ∉ h :: B)).
    { apply NoDup_app in Hnd as (Hnd1&Hnd2&_). split.
      - apply NoDup_app in Hnd1 as (_&Hnd1&_). intros Hin. eapply Hnd1; [done|left].
      - apply Hnd2. apply elem_of_app. right. left. }
    destruct Hps as [Hps1 Hps2].
    assert (Hext : ∀ l p q, ps ∉ l → lseg s p l q → lseg s1 p l q).
    { intros l p q Hl. apply lseg_ext. intros a Ha. unfold next_of.
      rewrite Hl1, decide_False; [done|]. by intros ->. }
    assert (HB1 : chain s1 (Some h) (h :: B)) by (by apply Hext).
    destruct (walk_to_tail_spec s1 n B h HB1) as (l'&t&Hl'&Hw); [simpl in Hn; lia|].
    exists s1, t, (acc ++ [ps] ++ l'). rewrite Hs1. simpl. rewrite Hw. simpl.
    splits; try done.
    + rewrite Hl'. by rewrite <-!app_assoc.
    + rewrite <-app_assoc. apply lseg_app. exists (Some ps). split.
      * apply Hext; [done|]. apply lseg_app in Hc as (m&Hc1&Hc2).
        by rewrite (lseg_cons_next _ _ _ _ _ Hc2) in Hc1.
      * simpl. split; [done|]. eexists. split; [by rewrite Hl1, decide_True|].
        simpl. exact HB1.
    + intros p Hp. by rewrite Hl1, decide_False.
    + right. rewrite Hl'. apply elem_of_app. right. left.
  - apply chain_None_inv in HB as ->. exists s, ps, acc.
    rewrite app_nil_r. splits; try done. left.
Qed.

Lemma arrange_merge_spec : ∀ fuel Bs B s acc ps Qpre Qrem Qpost,
  Quadrants s = Qpre ++ Qrem ++ Qpost →
  Forall2 (chain s) Qrem (B :: Bs) →
  QuadrantFrontIndex s = Z.of_nat (length Qpre + length Bs) →
  QuadrantFrontIndex s < UINT32_MAX →
  chain s p0 (acc ++ [ps]) →
  NoDup ((acc ++ [ps]) ++ concat (B :: Bs)) →
  (length Bs < fuel)%nat →
  (length (concat (B :: Bs)) < n)%nat →
  ∃ s' ps', arrange_merge n fuel s ps (Z.of_nat (length Qpre)) = Some (ps', s')
    ∧ chain s' p0 ((acc ++ [ps]) ++ concat (B :: Bs))
    ∧ session_frame s s'
    ∧ (∀ p, p ∉ ps :: concat (B :: Bs) → load s' p = load s p).
Proof.
  induction fuel as [|fuel IH]; intros Bs B s acc ps Qpre Qrem Qpost
    HQ HF Hfront Hmax Hc Hnd Hfuel Hn; [lia|].
  destruct (Forall2_cons_inv_r _ _ _ _ HF) as (qk&Qrem'&HqB&HF'&->).
  assert (Hlook : Quadrants s !! Z.to_nat (Z.of_nat (length Qpre)) = Some qk).
  { rewrite Nat2Z.id, HQ, lookup_app_r by lia. by rewrite Nat.sub_diag. }
  simpl in Hnd, Hn. rewrite length_app in Hn.
  destruct (merge_step s acc ps qk B Hc HqB) as (s1&ps1&acc1&Hs1&Hacc1&Hc1&Hfr1&Hl1&Hps1).
  { rewrite app_assoc in Hnd. by apply NoDup_app in Hnd as (?&_). }
  { lia. }
  simpl. rewrite Hlook. simpl. rewrite Hs1. simpl.
  destruct Hfr1 as (HQ1&HB1&HF1&Hrest1).
  assert (Hfr1 : session_frame s s1) by (by splits).
  rewrite HF1.
  destruct Bs as [|B2 Bs].
  - simpl in *. rewrite app_nil_r in *.
    rewrite to_uint32_small by lia.
    destruct (Z.leb_spec (Z.of_nat (length Qpre) + 1) (QuadrantFrontIndex s)) as [E|E]; [lia|].
    exists s1, ps1. splits; try done.
    intros p Hp. apply Hl1. intros ->. apply Hp. left.
  - simpl in Hfront, Hfuel. rewrite to_uint32_small by lia.
    destruct (Z.leb_spec (Z.of_nat (length Qpre) + 1) (QuadrantFrontIndex s)) as [E|E]; [|lia].
    assert (HpsB : ∀ l, l ∈ B2 :: Bs → ps ∉ l).
    { intros l Hl Hin. apply NoDup_app in Hnd as (_&Hnd&_).
      eapply Hnd; [apply elem_of_app; right; left|].
      apply elem_of_app. right. apply elem_of_concat. eauto. }
    assert (HF1' : Forall2 (chain s1) Qrem' (B2 :: Bs)).
    { eapply Forall2_chain_ext; [|exact HF']. intros l a Hl Ha. unfold next_of.
      rewrite Hl1; [done|]. intros ->. by eapply HpsB. }
    destruct (IH Bs B2 s1 acc1 ps1 (Qpre ++ [qk]) Qrem' Qpost) as (s'&ps'&Hr&Hc'&Hfr'&Hl').
    { rewrite HQ1, HQ. by rewrite <-app_assoc. }
    { done. }
    { rewrite HF1, Hfront, length_app. simpl. f_equal. lia. }
    { by rewrite HF1. }
    { by rewrite <-Hacc1. }
    { rewrite <-Hacc1. by rewrite <-(app_assoc _ B). }
    { lia. }
    { simpl. rewrite length_app. simpl in Hn. rewrite length_app in Hn. lia. }
    rewrite length_app in Hr. simpl in Hr.
    replace (Z.of_nat (length Qpre) + 1) with (Z.of_nat (length Qpre + 1)) by lia.
    exists s', ps'. split; [done|]. splits.
    + rewrite <-Hacc1 in Hc'. by rewrite <-(app_assoc _ B) in Hc'.
    + by etransitivity.
    + intros p Hp. rewrite Hl'.
      * apply Hl1. intros ->. apply Hp. left.
      * intros Hin. apply Hp. apply elem_of_cons in Hin as [->|Hin].
        -- apply elem_of_cons in Hps1 as [->|Hps1]; [left|right].
           apply elem_of_app. by left.
        -- right. apply elem_of_app. by right.
Qed.

End MergeLoop.

Lemma concat_occupied s Bs :
  ∃ X Y, concat Bs = X ++ concat (occupied s Bs) ++ Y.
Proof.
  unfold occupied.
  set (b := Z.to_nat (QuadrantBackIndex s)).
  set (c := Z.to_nat (QuadrantFrontIndex s - QuadrantBackIndex s + 1)).
  exists (concat (take b Bs)), (concat (drop c (drop b Bs))).
  rewrite <-!concat_app. by rewrite !take_drop.
Qed.

Lemma occupied_length s Bs :
  session_ok s Bs →
  length (occupied s Bs) = Z.to_nat (QuadrantFrontIndex s - QuadrantBackIndex s + 1).
Proof.
  intros [Hq Hr Hb _]. unfold occupied. rewrite length_take, length_drop.
  rewrite <-(Forall2_length _ _ _ Hb), Hq. unfold MAX_PAINT_QUADRANTS in *. lia.
Qed.

Lemma merge_spec fuel s Bs :
  session_ok s Bs →
  (Z.to_nat MAX_PAINT_QUADRANTS + length (concat Bs) < fuel)%nat →
  ∃ s1, paint_session_arrange_merge fuel s = Some s1
    ∧ chain s1 (Some PaintHead_ptr) (PaintHead_ptr :: concat (occupied s Bs))
    ∧ session_frame s s1
    ∧ (∀ p, p ∉ PaintHead_ptr :: concat (occupied s Bs) → load s1 p = load s p).
Proof.
  intros Hok Hfuel. pose proof (occupied_length s Bs Hok) as Hlen.
  destruct Hok as [Hq Hr Hb Hnd].
  unfold paint_session_arrange_merge.
  destruct (set_next_Some s PaintHead_ptr None (PaintHead s) eq_refl) as [s0 Hs0].
  rewrite Hs0. simpl.
  pose proof Hs0 as Hs0'. apply set_next_spec in Hs0' as (?&?&Hl0&Hfr0). simplify_eq.
  destruct Hfr0 as (HQ0&HB0&HF0&Hrest0).
  assert (Hfr0 : session_frame s s0) by (by splits).
  rewrite HB0.
  destruct (Z.eqb_spec (QuadrantBackIndex s) UINT32_MAX) as [E|_].
  { unfold MAX_PAINT_QUADRANTS, UINT32_MAX in *. lia. }
  apply NoDup_cons in Hnd as (Hhead&Hnd).
  destruct (concat_occupied s Bs) as (X&Y&Hcat).
  set (b := Z.to_nat (QuadrantBackIndex s)) in *.
  set (c := Z.to_nat (QuadrantFrontIndex s - QuadrantBackIndex s + 1)) in *.
  assert (Hocc : occupied s Bs = take c (drop b Bs)) by done.
  destruct (occupied s Bs) as [|B Bs'] eqn:Hocc'.
  { simpl in Hlen. unfold MAX_PAINT_QUADRANTS in *. lia. }
  assert (HF : Forall2 (chain s0) (take c (drop b (Quadrants s))) (B :: Bs')).
  { rewrite Hocc. apply Forall2_take, Forall2_drop.
    eapply Forall2_chain_ext; [|exact Hb]. intros l a Hl Ha. unfold next_of.
    rewrite Hl0, decide_False; [done|]. intros ->. apply Hhead.
    apply elem_of_concat. eauto. }
  destruct (arrange_merge_spec fuel (Some PaintHead_ptr) fuel Bs' B s0 [] PaintHead_ptr
              (take b (Quadrants s)) (take c (drop b (Quadrants s)))
              (drop c (drop b (Quadrants s)))) as (s1&ps1&Hr1&Hc1&Hfr1&Hl1).
  { rewrite HQ0. by rewrite !take_drop. }
  { done. }
  { rewrite HF0, length_take, Hq. simpl in Hlen. unfold MAX_PAINT_QUADRANTS in *. lia. }
  { rewrite HF0. unfold MAX_PAINT_QUADRANTS, UINT32_MAX in *. lia. }
  { simpl. split; [done|]. eexists. split; [by rewrite Hl0, decide_True|]. done. }
  { simpl. apply NoDup_cons. split.
    - intros Hin. apply Hhead. rewrite Hcat. apply elem_of_app. right.
      apply elem_of_app. by left.
    - rewrite Hcat in Hnd. apply NoDup_app in Hnd as (_&_&Hnd).
      by apply NoDup_app in Hnd as (Hnd&_). }
  { simpl in Hlen. unfold MAX_PAINT_QUADRANTS in *. lia. }
  { rewrite Hcat in Hfuel. rewrite !length_app in Hfuel. lia. }
  assert (Hk : Z.of_nat (length (take b (Quadrants s))) = QuadrantBackIndex s).
  { rewrite length_take, Hq. unfold MAX_PAINT_QUADRANTS in *. lia. }
  rewrite Hk in Hr1. rewrite Hr1. simpl. exists s1. splits; try done.
  - by etransitivity.
  - intros p Hp. rewrite Hl1 by done. rewrite Hl0, decide_False; [done|].
    intros ->. apply Hp. left.
Qed.

(** ** The driver *)

(** [paint_session_arrange] is the merge phase followed by the reorder
    calls. *)
Lemma arrange_unfold g fuel s :
  paint_session_arrange g fuel s =
  s1 ← paint_session_arrange_merge fuel s;
  if QuadrantBackIndex s =? UINT32_MAX then Some s1
  else
    '(ps_cache, s2) ←
      paint_arrange_structs_helper fuel s1 (Some PaintHead_ptr)
        (Z.land (QuadrantBackIndex s1) 65535) PAINT_QUADRANT_FLAG_NEXT
        (get_current_rotation g);
    arrange_reorder fuel fuel s2 ps_cache (QuadrantBackIndex s2) (get_current_rotation g).
Proof.
  unfold paint_session_arrange, paint_session_arrange_merge.
  destruct (set_next s PaintHead_ptr None) as [s0|] eqn:Hs0; simpl; [|done].
  apply set_next_spec in Hs0 as (?&_&_&(_&HB&_)). rewrite HB.
  destruct (QuadrantBackIndex s =? UINT32_MAX); [done|].
  destruct (arrange_merge fuel fuel s0 PaintHead_ptr (QuadrantBackIndex s)) as [[? s1]|];
    simpl; done.
Qed.

Lemma get_current_rotation_range g : 0 <= get_current_rotation g < 4.
Proof.
  unfold get_current_rotation. change 3 with (Z.ones 2).
  rewrite Z.land_ones by lia. apply Z.mod_pos_bound. lia.
Qed.

Lemma arrange_reorder_spec rotation n : ∀ fuel s c q L,
  0 <= rotation < 4 →
  chain s (Some PaintHead_ptr) L → c ∈ L → (length L ≤ n)%nat →
  0 <= q < UINT32_MAX → QuadrantFrontIndex s <= UINT32_MAX →
  QuadrantFrontIndex s - q <= Z.of_nat fuel → (0 < fuel)%nat →
  ∃ s' L', arrange_reorder n fuel s (Some c) q rotation = Some s'
    ∧ chain s' (Some PaintHead_ptr) L' ∧ L' ≡ₚ L ∧ session_frame s s'
    ∧ (∀ p, p ∉ L → load s' p = load s p).
Proof.
  induction fuel as [|fuel IH]; intros s c q L Hrot Hc Hin Hn Hq Hmax Hfuel Hpos; [lia|].
  simpl. rewrite to_uint32_small by lia.
  destruct (Z.ltb_spec (q + 1) (QuadrantFrontIndex s)) as [E|E].
  2:{ exists s, L. splits; done. }
  apply list_elem_of_split in Hin as (A&R&->).
  destruct (helper_spec rotation (Z.land (q + 1) 65535) 0 n s (Some PaintHead_ptr) A c R Hrot Hc)
    as (s1&a&M&W&W'&S&Hr&HM&Hc1&HW&Hfr1&_&_&Hl1).
  { rewrite length_app in Hn. simpl in Hn. lia. }
  rewrite Hr. simpl.
  assert (HL1 : A ++ M ++ a :: W' ++ S ≡ₚ A ++ c :: R).
  { rewrite HM. by rewrite HW. }
  destruct Hfr1 as (HQ1&HB1&HF1&Hrest1).
  assert (Hfr1 : session_frame s s1) by (by splits).
  destruct (IH s1 a (q + 1) (A ++ M ++ a :: W' ++ S)) as (s'&L'&Hr'&Hc'&HL'&Hfr'&Hl'); try done.
  - apply elem_of_app. right. apply elem_of_app. right. left.
  - by rewrite (Permutation_length HL1).
  - lia.
  - by rewrite HF1.
  - rewrite HF1. lia.
  - lia.
  - exists s', L'. splits; try done.
    + by rewrite HL'.
    + by etransitivity.
    + intros p Hp. rewrite Hl'.
      * apply Hl1. intros Hin. apply Hp. apply elem_of_app. by right.
      * by rewrite HL1.
Qed.

Lemma arrange_spec g fuel s Bs :
  session_ok s Bs →
  (Z.to_nat MAX_PAINT_QUADRANTS + length (concat Bs) < fuel)%nat →
  ∃ s' l', paint_session_arrange g fuel s = Some s'
    ∧ chain s' (Some PaintHead_ptr) (PaintHead_ptr :: l')
    ∧ l' ≡ₚ concat (occupied s Bs)
    ∧ session_frame s s'
    ∧ (∀ p, p ∉ PaintHead_ptr :: concat (occupied s Bs) → load s' p = load s p).
Proof.
  intros Hok Hfuel.
  destruct (merge_spec fuel s Bs Hok Hfuel) as (s1&Hs1&Hc1&Hfr1&Hl1).
  destruct (concat_occupied s Bs) as (X&Y&Hcat).
  assert (Hlen : (length (concat (occupied s Bs)) < fuel)%nat).
  { rewrite Hcat, !length_app in Hfuel. lia. }
  destruct Hok as [Hq (Hr0&Hr1&Hr2) Hb Hnd].
  rewrite arrange_unfold, Hs1. simpl.
  destruct (Z.eqb_spec (QuadrantBackIndex s) UINT32_MAX) as [E|_].
  { unfold MAX_PAINT_QUADRANTS, UINT32_MAX in *. lia. }
  pose proof (get_current_rotation_range g) as Hrot.
  destruct Hfr1 as (HQ1&HB1&HF1&Hrest1).
  assert (Hfr1 : session_frame s s1) by (by splits).
  destruct (helper_spec (get_current_rotation g) (Z.land (QuadrantBackIndex s1) 65535)
              PAINT_QUADRANT_FLAG_NEXT fuel s1 (Some PaintHead_ptr) [] PaintHead_ptr
              (concat (occupied s Bs)) Hrot Hc1 Hlen)
    as (s2&a&M&W&W'&S&Hr&HM&Hc2&HW&Hfr2&_&_&Hl2).
  rewrite Hr. simpl. simpl in Hc2.
  assert (HL2 : M ++ a :: W' ++ S ≡ₚ PaintHead_ptr :: concat (occupied s Bs)).
  { rewrite HM. by rewrite HW. }
  destruct Hfr2 as (HQ2&HB2&HF2&Hrest2).
  assert (Hfr2 : session_frame s1 s2) by (by splits).
  destruct (arrange_reorder_spec (get_current_rotation g) fuel fuel s2 a
              (QuadrantBackIndex s2) (M ++ a :: W' ++ S) Hrot Hc2)
    as (s'&L'&Hr'&Hc'&HL'&Hfr'&Hl').
  { apply elem_of_app. right. left. }
  { rewrite (Permutation_length HL2). simpl. lia. }
  { rewrite HB2, HB1. unfold MAX_PAINT_QUADRANTS, UINT32_MAX in *. lia. }
  { rewrite HF2, HF1. unfold MAX_PAINT_QUADRANTS, UINT32_MAX in *. lia. }
  { rewrite HF2, HF1, HB2, HB1. unfold MAX_PAINT_QUADRANTS in *. lia. }
  { lia. }
  rewrite Hr'.
  destruct L' as [|h l']; [by inversion Hc'|].
  pose proof (lseg_cons_next _ _ _ _ _ Hc') as Hh. injection Hh as <-.
  exists s', l'. splits; try done.
  - apply (Permutation_cons_inv (a:=PaintHead_ptr)). by rewrite HL', HL2.
  - by do 2 (etransitivity; [eassumption|]).
  - intros p Hp. rewrite Hl', Hl2, Hl1; try done.
    by rewrite HL2.
Qed.

(** ** Sample runs *)

Example merge_staircase :
  (s1 ← paint_session_arrange_merge 516 staircase_session;
   chain_list 4 s1 (next_quadrant_ps (PaintHead s1)))
  = Some [PaintStructs_ptr 0; PaintStructs_ptr 1; PaintStructs_ptr 2].
Proof. vm_compute. reflexivity. Qed.

Example arrange_staircase_rotation_0 :
  (s' ← paint_session_arrange 0 516 staircase_session;
   chain_list 4 s' (next_quadrant_ps (PaintHead s')))
  = Some [PaintStructs_ptr 2; PaintStructs_ptr 1; PaintStructs_ptr 0].
Proof. vm_compute. reflexivity. Qed.

Example arrange_staircase_rotation_1 :
  (s' ← paint_session_arrange 1 516 staircase_session;
   chain_list 4 s' (next_quadrant_ps (PaintHead s')))
  = Some [PaintStructs_ptr 0; PaintStructs_ptr 1; PaintStructs_ptr 2].
Proof. vm_compute. reflexivity. Qed.

Example arrange_out_of_fuel : paint_session_arrange 0 2 staircase_session = None.
Proof. vm_compute. reflexivity. Qed.

Example helper_unknown_rotation :
  paint_arrange_structs_helper 5 nested_session (Some PaintHead_ptr) 5 0 4
  = Some (None, nested_session).
Proof. reflexivity. Qed.

(** A pass over [terrace_session] from slot 0 for boundary 6: the anchor
    is slot 1, the window is slots 2, 3, 4, and slot 4 (bucket 7) is
    spliced in front of slot 2, the first pivot. *)
Example terrace_pass :
  match paint_arrange_structs_helper 6 terrace_session
          (Some (PaintStructs_ptr 0)) 6 0 0 with
  | Some (c, s') =>
    Some (c, chain_list 8 s' (Some PaintHead_ptr),
          map (flags_of s') (PaintStructs_ptr 0 :: terrace_rest))
  | None => None
  end
  = Some (Some (PaintStructs_ptr 1),
          Some [PaintHead_ptr; PaintStructs_ptr 0; PaintStructs_ptr 1;
                PaintStructs_ptr 4; PaintStructs_ptr 2; PaintStructs_ptr 3;
                PaintStructs_ptr 5],
          [Some 0; Some 0; Some 0; Some 0; Some 2; Some 128]).
Proof. vm_compute. reflexivity. Qed.

Example terrace_unmarked :
  unmarked terrace_session 6 0
    [PaintStructs_ptr 2; PaintStructs_ptr 3; PaintStructs_ptr 4]
  = [PaintStructs_ptr 2; PaintStructs_ptr 3].
Proof. vm_compute. reflexivity. Qed.

Lemma terrace_chain :
  chain terrace_session (Some PaintHead_ptr)
    ([PaintHead_ptr] ++ PaintStructs_ptr 0 :: terrace_rest).
Proof. solve_chain. Qed.

Example overlap_beyond_rotations :
  map (λ r, check_bounding_box r box_beyond box_current) [0; 1; 2; 3; 4]
  = [true; false; false; false; false].
Proof. reflexivity. Qed.

(** ** The overlap test *)

(** C1, as the code has it: with three strict terms in the exclusion the
    equivalence fails.  Under rotation 1, for a first box that starts
    on x where the second ends, the conjunction of the claim holds and the
    code returns false: its x term is [initial.x >= current.x_end]. *)
Lemma check_bounding_box_strict_counterexample :
  0 <= 1 < 4
  ∧ overlap_claimed 1 box_inverted box_touching
  ∧ check_bounding_box 1 box_inverted box_touching = false
  ∧ ¬ (check_bounding_box 1 box_inverted box_touching = true
       ↔ overlap_claimed 1 box_inverted box_touching).
Proof.
  assert (Hc : overlap_claimed 1 box_inverted box_touching).
  { unfold overlap_claimed, axis_condition, strict_containment_term. simpl. lia. }
  split; [lia|]. split; [exact Hc|]. split; [reflexivity|].
  intros [_ H]. specialize (H Hc). discriminate H.
Qed.

(** C1, amended: for each rotation in {0,1,2,3}, [check_bounding_box<r>]
    returns true exactly when the rotation-specific conjunction holds: the
    z extents meet, the y and x extent conditions hold in the direction of
    the rotation, and the containment exclusion fails, whose z term is
    strict, and whose y and x terms are strict ([initial < current_end])
    on an axis tested with [>=] and not strict ([initial >= current_end])
    on an axis tested with [<]. *)
Theorem check_bounding_box_iff (r : Z) (initial current : paint_struct_bound_box) :
  0 <= r < 4 →
  check_bounding_box r initial current = true ↔ overlap_spec r initial current.
Proof.
  intros Hr.
  assert (r = 0 ∨ r = 1 ∨ r = 2 ∨ r = 3) as [-> | [-> | [-> | ->]]] by lia;
    unfold overlap_spec, axis_condition, containment_term, check_bounding_box;
    simpl; rewrite !Z.geb_leb;
    repeat match goal with
    | |- context [?a <=? ?b] => destruct (Z.leb_spec a b)
    | |- context [?a <? ?b] => destruct (Z.ltb_spec a b)
    end; simpl;
    (split; [intros Hc; try discriminate Hc; lia
           | intros Hc; try reflexivity; exfalso; lia]).
Qed.

Lemma check_bounding_box_iff_witness :
  0 <= 0 < 4
  ∧ (check_bounding_box 0 box_beyond box_current = true
     ↔ overlap_spec 0 box_beyond box_current).
Proof. split; [lia|]. apply check_bounding_box_iff. lia. Defined.

(** On boxes whose x and y extents run from start to end the strict
    reading of the claim and the terms of the code agree. *)
Lemma overlap_claimed_ordered (r : Z) (initial current : paint_struct_bound_box) :
  b_x initial <= b_x_end initial → b_y initial <= b_y_end initial →
  b_x current <= b_x_end current → b_y current <= b_y_end current →
  overlap_claimed r initial current ↔ overlap_spec r initial current.
Proof.
  unfold overlap_claimed, overlap_spec, axis_condition, containment_term,
    strict_containment_term.
  destruct (y_forward r), (x_forward r); lia.
Qed.

(** On an axis tested in the reversed direction, the exclusion term never
    holds together with the extent condition when both boxes have
    [start <= end]; how that term treats equality only shows on inverted
    boxes. *)
Lemma reversed_axis_term_vacuous (initial_start initial_end current_start
    current_end : Z) :
  initial_start <= initial_end → current_start <= current_end →
  axis_condition false initial_end current_start →
  ¬ containment_term false initial_start current_end.
Proof. unfold axis_condition, containment_term. lia. Qed.

(** C7, as the code has it: on the pair (0,0,0,10,10,10) / (5,5,5,15,15,15)
    every rotation returns false, so no two rotations differ there. *)
Lemma rotation_sensitivity_counterexample :
  ¬ ∃ r1 r2, 0 <= r1 < 4 ∧ 0 <= r2 < 4 ∧ r1 ≠ r2
      ∧ check_bounding_box r1 box_initial box_current
        ≠ check_bounding_box r2 box_initial box_current.
Proof.
  intros (r1&r2&H1&H2&_&Hne). apply Hne.
  assert (r1 = 0 ∨ r1 = 1 ∨ r1 = 2 ∨ r1 = 3) as [-> | [-> | [-> | ->]]] by lia;
    assert (r2 = 0 ∨ r2 = 1 ∨ r2 = 2 ∨ r2 = 3) as [-> | [-> | [-> | ->]]] by lia;
    reflexivity.
Qed.

(** C7, amended: on that pair the test is false under every rotation; the
    test is rotation sensitive on other pairs, such as
    (15,0,0,25,10,10) / (5,5,5,15,15,15), where rotations 0 and 1 differ. *)
Theorem rotations_on_example_pair :
  (∀ r, check_bounding_box r box_initial box_current = false)
  ∧ check_bounding_box 0 box_beyond box_current = true
  ∧ check_bounding_box 1 box_beyond box_current = false.
Proof.
  split; [|split; reflexivity].
  intros r. destruct r as [|p|p]; [reflexivity| |reflexivity].
  destruct p as [[|[]|]|[|[]|]|]; reflexivity.
Qed.

(** ** The empty session *)

(** C9: when [QuadrantBackIndex] is the empty sentinel, the run only resets
    the sentinel's link: the output chain is empty, and the pool, the
    bucket table and the rest of the sentinel are as before. *)
Theorem arrange_empty (g : Z) (fuel : nat) (s : paint_session) :
  QuadrantBackIndex s = UINT32_MAX →
  ∃ s', paint_session_arrange g fuel s = Some s'
    ∧ next_quadrant_ps (PaintHead s') = None
    ∧ chain s' (next_quadrant_ps (PaintHead s')) []
    ∧ PaintStructs s' = PaintStructs s
    ∧ Quadrants s' = Quadrants s
    ∧ PaintHead s' = with_next_quadrant_ps None (PaintHead s).
Proof.
  intros HB. unfold paint_session_arrange, set_next. simpl. rewrite HB. simpl.
  eexists. split; [reflexivity|]. simpl. splits; reflexivity.
Qed.

Lemma arrange_empty_witness :
  QuadrantBackIndex empty_session = UINT32_MAX
  ∧ ∃ s', paint_session_arrange 2 0 empty_session = Some s'
      ∧ next_quadrant_ps (PaintHead s') = None
      ∧ chain s' (next_quadrant_ps (PaintHead s')) []
      ∧ PaintStructs s' = PaintStructs empty_session
      ∧ Quadrants s' = Quadrants empty_session
      ∧ PaintHead s' = with_next_quadrant_ps None (PaintHead empty_session).
Proof. split; [reflexivity|]. apply arrange_empty. reflexivity. Defined.

(** ** Preconditions of the concrete sessions *)

Lemma no_buckets_chain s : Forall2 (chain s) no_quadrants no_buckets.
Proof. apply Forall2_replicate. reflexivity. Qed.

Lemma no_buckets_lookup j B : no_buckets !! j = Some B → B = [].
Proof. by intros [-> _]%lookup_replicate. Qed.

Lemma nested_pre : session_pre nested_session nested_buckets.
Proof.
  split.
  - reflexivity.
  - right. simpl. unfold MAX_PAINT_QUADRANTS. lia.
  - change (Quadrants nested_session)
      with (<[6%nat := Some (PaintStructs_ptr 1)]>
              (<[5%nat := Some (PaintStructs_ptr 0)]> no_quadrants)).
    unfold nested_buckets.
    repeat (apply Forall2_insert; [|solve_chain]). apply no_buckets_chain.
  - apply (bool_decide_unpack _). vm_compute. exact I.
  - intros j B Hj HB. unfold nested_buckets in Hj. simpl.
    apply list_lookup_insert_Some in Hj as [(<-&_&_)|[_ Hj]]; [lia|].
    apply list_lookup_insert_Some in Hj as [(<-&_&_)|[_ Hj]]; [lia|].
    by apply no_buckets_lookup in Hj.
Qed.

Lemma staircase_pre : session_pre staircase_session staircase_buckets.
Proof.
  split.
  - reflexivity.
  - right. simpl. unfold MAX_PAINT_QUADRANTS. lia.
  - change (Quadrants staircase_session)
      with (<[7%nat := Some (PaintStructs_ptr 2)]>
              (<[6%nat := Some (PaintStructs_ptr 1)]>
                 (<[5%nat := Some (PaintStructs_ptr 0)]> no_quadrants))).
    unfold staircase_buckets.
    repeat (apply Forall2_insert; [|solve_chain]). apply no_buckets_chain.
  - apply (bool_decide_unpack _). vm_compute. exact I.
  - intros j B Hj HB. unfold staircase_buckets in Hj. simpl.
    apply list_lookup_insert_Some in Hj as [(<-&_&_)|[_ Hj]]; [lia|].
    apply list_lookup_insert_Some in Hj as [(<-&_&_)|[_ Hj]]; [lia|].
    apply list_lookup_insert_Some in Hj as [(<-&_&_)|[_ Hj]]; [lia|].
    by apply no_buckets_lookup in Hj.
Qed.

Lemma session_pre_ok s Bs :
  session_pre s Bs → QuadrantBackIndex s ≠ UINT32_MAX → session_ok s Bs.
Proof. intros [Hq [Hr|Hr] Hb Hnd _] Hne; [done|]. by split. Qed.

Lemma staircase_indexed : indexed_by_bucket staircase_session staircase_buckets.
Proof.
  intros j B a Hj Ha. unfold staircase_buckets in Hj.
  apply list_lookup_insert_Some in Hj as [(<-&<-&_)|[_ Hj]];
    [by apply list_elem_of_singleton in Ha as ->|].
  apply list_lookup_insert_Some in Hj as [(<-&<-&_)|[_ Hj]];
    [by apply list_elem_of_singleton in Ha as ->|].
  apply list_lookup_insert_Some in Hj as [(<-&<-&_)|[_ Hj]];
    [by apply list_elem_of_singleton in Ha as ->|].
  apply no_buckets_lookup in Hj as ->. by apply elem_of_nil in Ha.
Qed.

(** ** Termination of the reorder pass *)

(** C8: every call of the reorder pass on a finite, null-terminated chain
    runs to completion: with a budget above the number of nodes behind the
    cursor, [paint_arrange_structs_helper] returns. *)
Theorem reorder_pass_terminates (rotation q flag : Z) (s : paint_session)
    (c : paint_struct_ptr) (R : list paint_struct_ptr) (fuel : nat) :
  chain s (Some c) (c :: R) → (length R < fuel)%nat →
  ∃ r s', paint_arrange_structs_helper fuel s (Some c) q flag rotation = Some (r, s').
Proof.
  intros Hc Hf. destruct (decide (0 <= rotation < 4)) as [Hrot|Hrot].
  - destruct (helper_spec rotation q flag fuel s (Some c) [] c R Hrot Hc Hf)
      as (s'&a&_&_&_&_&Hr&_). eauto.
  - unfold paint_arrange_structs_helper.
    destruct rotation as [|[[?|?|]|[?|?|]|]|?]; try lia; eauto.
Qed.

Lemma reorder_pass_terminates_witness :
  chain nested_session (Some (PaintStructs_ptr 1)) [PaintStructs_ptr 1; PaintStructs_ptr 2]
  ∧ (length [PaintStructs_ptr 2] < 2)%nat
  ∧ ∃ r s', paint_arrange_structs_helper 2 nested_session (Some (PaintStructs_ptr 1)) 6 0 0
            = Some (r, s').
Proof.
  assert (Hc : chain nested_session (Some (PaintStructs_ptr 1))
                 [PaintStructs_ptr 1; PaintStructs_ptr 2]) by solve_chain.
  assert (Hf : (length [PaintStructs_ptr 2] < 2)%nat) by (simpl; lia).
  split; [exact Hc|]. split; [exact Hf|].
  exact (reorder_pass_terminates 0 6 0 nested_session _ _ 2 Hc Hf).
Defined.

(** ** Quadrant Merge *)

Lemma concat_order (Ls : list (list paint_struct_ptr)) : ∀ i j a b,
  (i ≤ j)%nat → concat Ls !! i = Some a → concat Ls !! j = Some b →
  ∃ k1 k2 l1 l2, (k1 ≤ k2)%nat ∧ Ls !! k1 = Some l1 ∧ Ls !! k2 = Some l2
    ∧ a ∈ l1 ∧ b ∈ l2.
Proof.
  induction Ls as [|l Ls IH]; intros i j a b Hij Ha Hb; simpl in *; [done|].
  destruct (decide (i < length l)%nat) as [Hi|Hi].
  - rewrite lookup_app_l in Ha by done. apply list_elem_of_lookup_2 in Ha.
    destruct (decide (j < length l)%nat) as [Hj|Hj].
    + rewrite lookup_app_l in Hb by done. apply list_elem_of_lookup_2 in Hb.
      exists 0%nat, 0%nat, l, l. done.
    + rewrite lookup_app_r in Hb by lia. apply list_elem_of_lookup_2 in Hb.
      apply elem_of_concat in Hb as (l2&[k Hk]%list_elem_of_lookup_1&Hb).
      exists 0%nat, (S k), l, l2. splits; try done. lia.
  - rewrite lookup_app_r in Ha, Hb by lia.
    destruct (IH (i - length l)%nat (j - length l)%nat a b ltac:(lia) Ha Hb)
      as (k1&k2&l1&l2&?&?&?&?&?).
    exists (S k1), (S k2), l1, l2. splits; try done. lia.
Qed.

(** C3: the chain built by the Quadrant Merge phase is the concatenation of
    the bucket lists from the lowest to the highest occupied bucket, in
    ascending bucket order and in each bucket's own order; if every
    primitive carries the index of its bucket, [quadrant_index] is weakly
    increasing along it. *)
Theorem merge_concatenates (fuel : nat) (s : paint_session)
    (Bs : list (list paint_struct_ptr)) :
  session_ok s Bs →
  (Z.to_nat MAX_PAINT_QUADRANTS + length (concat Bs) < fuel)%nat →
  ∃ s1, paint_session_arrange_merge fuel s = Some s1
    ∧ chain s1 (next_quadrant_ps (PaintHead s1)) (concat (occupied s Bs))
    ∧ (indexed_by_bucket s Bs → weakly_increasing s1 (concat (occupied s Bs))).
Proof.
  intros Hok Hfuel. destruct (merge_spec fuel s Bs Hok Hfuel) as (s1&Hs1&Hc1&Hfr1&_).
  exists s1. split; [done|]. split.
  - apply chain_cons_inv in Hc1 as (n&Hn&Hc1). simpl in Hn. by injection Hn as <-.
  - intros Hidx i j a b Hij Ha Hb.
    destruct (concat_order _ _ _ _ _ Hij Ha Hb) as (k1&k2&l1&l2&Hk&Hl1&Hl2&Ha'&Hb').
    unfold occupied in Hl1, Hl2.
    apply lookup_take_Some in Hl1 as [Hl1 _]. apply lookup_take_Some in Hl2 as [Hl2 _].
    rewrite lookup_drop in Hl1, Hl2.
    exists (Z.of_nat (Z.to_nat (QuadrantBackIndex s) + k1)),
           (Z.of_nat (Z.to_nat (QuadrantBackIndex s) + k2)).
    rewrite !(frame_index_of s s1) by done. splits.
    + by eapply Hidx.
    + by eapply Hidx.
    + lia.
Qed.

Lemma merge_concatenates_witness :
  session_ok staircase_session staircase_buckets
  ∧ (Z.to_nat MAX_PAINT_QUADRANTS + length (concat staircase_buckets) < 516)%nat
  ∧ ∃ s1, paint_session_arrange_merge 516 staircase_session = Some s1
      ∧ chain s1 (next_quadrant_ps (PaintHead s1))
          (concat (occupied staircase_session staircase_buckets))
      ∧ (indexed_by_bucket staircase_session staircase_buckets →
         weakly_increasing s1 (concat (occupied staircase_session staircase_buckets))).
Proof.
  assert (Hok : session_ok staircase_session staircase_buckets).
  { apply session_pre_ok; [apply staircase_pre|]. simpl. unfold UINT32_MAX. lia. }
  assert (Hf : (Z.to_nat MAX_PAINT_QUADRANTS + length (concat staircase_buckets) < 516)%nat).
  { vm_compute. lia. }
  split; [exact Hok|]. split; [exact Hf|].
  exact (merge_concatenates 516 staircase_session staircase_buckets Hok Hf).
Defined.

(** ** The whole run *)

Lemma concat_nil (Ls : list (list paint_struct_ptr)) :
  (∀ l, l ∈ Ls → l = []) → concat Ls = [].
Proof.
  induction Ls as [|l Ls IH]; intros H; simpl; [done|].
  rewrite (H l) by left. apply IH. intros l' Hl'. apply H. by right.
Qed.

Lemma concat_unoccupied s Bs :
  session_ok s Bs → unoccupied_outside s Bs → concat Bs = concat (occupied s Bs).
Proof.
  intros [Hq (Hr0&Hr1&Hr2) Hb _] Hun. unfold occupied.
  set (b := Z.to_nat (QuadrantBackIndex s)).
  set (c := Z.to_nat (QuadrantFrontIndex s - QuadrantBackIndex s + 1)).
  rewrite <-(take_drop b Bs) at 1. rewrite <-(take_drop c (drop b Bs)) at 1.
  rewrite !concat_app.
  rewrite (concat_nil (take b Bs)), (concat_nil (drop c (drop b Bs))).
  - by rewrite app_nil_r.
  - intros l [j Hj]%list_elem_of_lookup_1. rewrite !lookup_drop in Hj.
    destruct l as [|x l]; [done|]. destruct (Hun _ _ Hj) as [_ Hle]; [done|].
    unfold b, c in Hle. lia.
  - intros l [j Hj]%list_elem_of_lookup_1. apply lookup_take_Some in Hj as [Hj Hlt].
    destruct l as [|x l]; [done|]. destruct (Hun _ _ Hj) as [Hle _]; [done|].
    unfold b in Hlt. lia.
Qed.

Lemma arrange_pre_spec g fuel s Bs :
  session_pre s Bs →
  (Z.to_nat MAX_PAINT_QUADRANTS + length (concat Bs) < fuel)%nat →
  ∃ s' l', paint_session_arrange g fuel s = Some s'
    ∧ chain s' (next_quadrant_ps (PaintHead s')) l'
    ∧ l' ≡ₚ concat Bs
    ∧ session_frame s s'.
Proof.
  intros Hpre Hfuel.
  destruct (decide (QuadrantBackIndex s = UINT32_MAX)) as [Hempty|Hne].
  - destruct Hpre as [Hq _ Hb _ Hun].
    destruct (set_next_Some s PaintHead_ptr None (PaintHead s) eq_refl) as [s0 Hs0].
    pose proof Hs0 as Hs0'. apply set_next_spec in Hs0' as (n&Hn&Hl0&Hfr0).
    simpl in Hn. injection Hn as <-.
    destruct Hfr0 as (HQ0&HB0&HF0&Hrest0).
    assert (Hfr0 : session_frame s s0) by (by splits).
    exists s0, []. splits; try done.
    + unfold paint_session_arrange. rewrite Hs0. simpl. rewrite HB0, Hempty. done.
    + specialize (Hl0 PaintHead_ptr). rewrite decide_True in Hl0 by done.
      simpl in Hl0. injection Hl0 as ->. done.
    + rewrite concat_nil; [done|].
      intros l [j Hj]%list_elem_of_lookup_1. destruct l as [|x l]; [done|].
      destruct (Hun _ _ Hj) as [Hle _]; [done|].
      apply lookup_lt_Some in Hj. rewrite <-(Forall2_length _ _ _ Hb), Hq in Hj.
      unfold MAX_PAINT_QUADRANTS, UINT32_MAX in *. lia.
  - pose proof (session_pre_ok s Bs Hpre Hne) as Hok.
    destruct (arrange_spec g fuel s Bs Hok Hfuel) as (s'&l'&Hr&Hc&Hl'&Hfr&_).
    exists s', l'. splits; try done.
    + apply chain_cons_inv in Hc as (n&Hn&Hc). simpl in Hn. by injection Hn as <-.
    + rewrite Hl'. by rewrite <-concat_unoccupied by (done || apply Hpre).
Qed.

(** C2: under the preconditions the run completes, and the chain reachable
    from the sentinel holds exactly the primitives of the input buckets,
    each once. *)
Theorem arrange_conserves (g : Z) (fuel : nat) (s : paint_session)
    (Bs : list (list paint_struct_ptr)) :
  session_pre s Bs →
  (Z.to_nat MAX_PAINT_QUADRANTS + length (concat Bs) < fuel)%nat →
  ∃ s' l', paint_session_arrange g fuel s = Some s'
    ∧ chain s' (next_quadrant_ps (PaintHead s')) l'
    ∧ l' ≡ₚ concat Bs
    ∧ NoDup l'.
Proof.
  intros Hpre Hfuel.
  destruct (arrange_pre_spec g fuel s Bs Hpre Hfuel) as (s'&l'&Hr&Hc&Hl'&_).
  exists s', l'. splits; try done. by eapply chain_NoDup.
Qed.

Lemma arrange_conserves_witness :
  session_pre staircase_session staircase_buckets
  ∧ (Z.to_nat MAX_PAINT_QUADRANTS + length (concat staircase_buckets) < 516)%nat
  ∧ ∃ s' l', paint_session_arrange 0 516 staircase_session = Some s'
      ∧ chain s' (next_quadrant_ps (PaintHead s')) l'
      ∧ l' ≡ₚ concat staircase_buckets
      ∧ NoDup l'.
Proof.
  assert (Hf : (Z.to_nat MAX_PAINT_QUADRANTS + length (concat staircase_buckets) < 516)%nat).
  { vm_compute. lia. }
  split; [exact staircase_pre|]. split; [exact Hf|].
  exact (arrange_conserves 0 516 staircase_session staircase_buckets staircase_pre Hf).
Defined.

(** C10: under the preconditions the run completes and only rewrites
    [next_quadrant_ps] and [quadrant_flags]: every other field of the
    sentinel and of every pool entry, the bucket table and the two bucket
    indices are as before; entries that are not [basic] are untouched. *)
Theorem arrange_frame (g : Z) (fuel : nat) (s : paint_session)
    (Bs : list (list paint_struct_ptr)) :
  session_pre s Bs →
  (Z.to_nat MAX_PAINT_QUADRANTS + length (concat Bs) < fuel)%nat →
  ∃ s', paint_session_arrange g fuel s = Some s' ∧ session_frame s s'.
Proof.
  intros Hpre Hfuel.
  destruct (arrange_pre_spec g fuel s Bs Hpre Hfuel) as (s'&l'&Hr&_&_&Hfr).
  eauto.
Qed.

Lemma arrange_frame_witness :
  session_pre nested_session nested_buckets
  ∧ (Z.to_nat MAX_PAINT_QUADRANTS + length (concat nested_buckets) < 516)%nat
  ∧ ∃ s', paint_session_arrange 0 516 nested_session = Some s'
      ∧ session_frame nested_session s'.
Proof.
  assert (Hf : (Z.to_nat MAX_PAINT_QUADRANTS + length (concat nested_buckets) < 516)%nat).
  { vm_compute. lia. }
  split; [exact nested_pre|]. split; [exact Hf|].
  exact (arrange_frame 0 516 nested_session nested_buckets nested_pre Hf).
Defined.

(** ** Locality *)

(** C4, as the code has it: on the staircase session, which meets the
    preconditions, the bucket-5 primitive ends behind the bucket-7 one. *)
Lemma locality_counterexample :
  session_pre staircase_session staircase_buckets
  ∧ indexed_by_bucket staircase_session staircase_buckets
  ∧ ∃ s' l, paint_session_arrange 0 516 staircase_session = Some s'
      ∧ chain s' (next_quadrant_ps (PaintHead s')) l
      ∧ ¬ locality s' l.
Proof.
  split; [exact staircase_pre|]. split; [exact staircase_indexed|].
  eexists. exists [PaintStructs_ptr 2; PaintStructs_ptr 1; PaintStructs_ptr 0].
  split; [vm_compute; reflexivity|]. split; [solve_chain|].
  intros H.
  specialize (H 2%nat 0%nat (PaintStructs_ptr 0) (PaintStructs_ptr 2) 5 7
                eq_refl eq_refl eq_refl eq_refl ltac:(lia)).
  lia.
Qed.

(** C4, amended: one call of the reorder pass for boundary [q] only
    permutes a window of the chain.  The chain up to and including the
    returned anchor [a] and the chain from the first primitive whose
    [quadrant_index] exceeds [q + 1] onwards ([S]) are left as they were;
    the primitives in between ([W], all of index at most [q + 1]) are
    permuted among themselves. *)
Theorem reorder_pass_window (rotation q flag : Z) (fuel : nat) (s : paint_session)
    (p0 : option paint_struct_ptr) (A : list paint_struct_ptr)
    (c : paint_struct_ptr) (R : list paint_struct_ptr) :
  0 <= rotation < 4 → chain s p0 (A ++ c :: R) → (length R < fuel)%nat →
  ∃ s' a M W W' S,
    paint_arrange_structs_helper fuel s (Some c) q flag rotation = Some (Some a, s')
    ∧ c :: R = M ++ a :: W ++ S
    ∧ chain s' p0 (A ++ M ++ a :: W' ++ S)
    ∧ W' ≡ₚ W
    ∧ (∀ w, w ∈ W → ∃ i, index_of s w = Some i ∧ i <= q + 1)
    ∧ far_index s q S.
Proof.
  intros Hrot Hc Hf.
  destruct (helper_spec rotation q flag fuel s p0 A c R Hrot Hc Hf)
    as (s'&a&M&W&W'&S&Hr&HM&Hc'&HW&_&Hidx&HS&_).
  exists s', a, M, W, W', S. done.
Qed.

Lemma reorder_pass_window_witness :
  0 <= 0 < 4
  ∧ chain terrace_session (Some PaintHead_ptr)
      ([PaintHead_ptr] ++ PaintStructs_ptr 0 :: terrace_rest)
  ∧ (length terrace_rest < 6)%nat
  ∧ ∃ s' a M W W' S,
      paint_arrange_structs_helper 6 terrace_session (Some (PaintStructs_ptr 0)) 6 0 0
        = Some (Some a, s')
      ∧ PaintStructs_ptr 0 :: terrace_rest = M ++ a :: W ++ S
      ∧ chain s' (Some PaintHead_ptr) ([PaintHead_ptr] ++ M ++ a :: W' ++ S)
      ∧ W' ≡ₚ W
      ∧ (∀ w, w ∈ W → ∃ i, index_of terrace_session w = Some i ∧ i <= 6 + 1)
      ∧ far_index terrace_session 6 S.
Proof.
  assert (Hr : 0 <= 0 < 4) by lia.
  assert (Hf : (length terrace_rest < 6)%nat) by (simpl; lia).
  split; [exact Hr|]. split; [exact terrace_chain|]. split; [exact Hf|].
  exact (reorder_pass_window 0 6 0 6 terrace_session _ [PaintHead_ptr] _ _ Hr terrace_chain Hf).
Defined.

(** ** Rotation values outside {0,1,2,3} *)

(** C5, as the code has it: with [gCurrentRotation = 4] the run on the
    staircase session is the run for rotation 0; it neither rejects the
    input nor leaves the merged chain alone. *)
Lemma rotation_fail_fast_counterexample :
  4 <= 4
  ∧ paint_session_arrange 4 516 staircase_session
    = paint_session_arrange 0 516 staircase_session
  ∧ ¬ fails_fast 4 516 staircase_session.
Proof.
  split; [lia|]. split; [vm_compute; reflexivity|].
  intros [H|H]; vm_compute in H; discriminate H.
Qed.

Lemma helper_dispatch r n s c q flag :
  0 <= r < 4 →
  paint_arrange_structs_helper n s c q flag r
  = paint_arrange_structs_helper_rotation r n s c q flag.
Proof.
  intros Hr.
  by assert (r = 0 ∨ r = 1 ∨ r = 2 ∨ r = 3) as [-> | [-> | [-> | ->]]] by lia.
Qed.

Lemma helper_default r n s c q flag :
  ¬ (0 <= r < 4) → paint_arrange_structs_helper n s c q flag r = Some (None, s).
Proof.
  intros Hr. unfold paint_arrange_structs_helper.
  destruct r as [|[[?|?|]|[?|?|]|]|?]; first [reflexivity | exfalso; lia].
Qed.

Lemma arrange_reorder_dispatch r n fuel : ∀ s c q,
  0 <= r < 4 →
  arrange_reorder n fuel s c q r = arrange_reorder_rotation r n fuel s c q.
Proof.
  induction fuel as [|fuel IH]; intros s c q Hr; simpl; [done|].
  destruct (to_uint32 (q + 1) <? QuadrantFrontIndex s); [|done].
  rewrite helper_dispatch by done.
  destruct (paint_arrange_structs_helper_rotation r n s c _ 0) as [[c' s']|];
    simpl; [|done].
  by apply IH.
Qed.

Lemma get_current_rotation_mod g : get_current_rotation g = g mod 4.
Proof.
  unfold get_current_rotation. change 3 with (Z.ones 2).
  by rewrite Z.land_ones by lia.
Qed.

(** C5, amended: the driver never passes the dispatcher a rotation outside
    {0,1,2,3}.  It reads the rotation through [get_current_rotation],
    which keeps the two low bits of [gCurrentRotation]; so for every value
    [g], 4 and above included, the run is the run for rotation [g mod 4]:
    the merge followed by reorder passes that are all the specialisation
    [paint_arrange_structs_helper_rotation<g mod 4>].  The default branch
    of the dispatcher, which returns a null cursor and reorders nothing,
    is what a rotation outside {0,1,2,3} selects, and the driver never
    reaches it. *)
Theorem arrange_rotation_masked (g : Z) (fuel : nat) (s : paint_session) :
  0 <= get_current_rotation g < 4
  ∧ get_current_rotation g = g mod 4
  ∧ paint_session_arrange g fuel s = arrange_rotation (g mod 4) fuel s
  ∧ paint_session_arrange g fuel s = paint_session_arrange (g mod 4) fuel s
  ∧ (∀ r n c q flag, ¬ (0 <= r < 4) →
       paint_arrange_structs_helper n s c q flag r = Some (None, s)).
Proof.
  pose proof (get_current_rotation_range g) as Hr.
  pose proof (get_current_rotation_mod g) as Hm.
  assert (Hmm : get_current_rotation (g mod 4) = g mod 4).
  { rewrite get_current_rotation_mod. apply Z.mod_mod. lia. }
  rewrite Hm in Hr. remember (g mod 4) as r eqn:Er. clear Er.
  assert (Hrun : ∀ g', get_current_rotation g' = r →
            paint_session_arrange g' fuel s = arrange_rotation r fuel s).
  { intros g' Hg'. rewrite arrange_unfold, Hg'. unfold arrange_rotation.
    destruct (paint_session_arrange_merge fuel s) as [s1|];
      cbn [mbind option_bind]; [|done].
    destruct (QuadrantBackIndex s =? UINT32_MAX); [done|].
    rewrite helper_dispatch by done.
    destruct (paint_arrange_structs_helper_rotation _ _ _ _ _ _) as [[c s2]|];
      cbn [mbind option_bind]; [|done].
    by apply arrange_reorder_dispatch. }
  splits.
  - lia.
  - lia.
  - done.
  - by apply Hrun.
  - rewrite (Hrun g Hm). symmetry. by apply Hrun.
  - intros r' n c q flag Hout. by apply helper_default.
Qed.

(** * Further properties *)

(** ** The overlap test *)

(** A true result fixes the rotation and the direction of the y and x
    extent conditions. *)
Lemma check_bounding_box_true_inv r initial current :
  check_bounding_box r initial current = true →
  0 <= r < 4
  ∧ b_z_end initial >= b_z current
  ∧ axis_condition (y_forward r) (b_y_end initial) (b_y current)
  ∧ axis_condition (x_forward r) (b_x_end initial) (b_x current).
Proof.
  destruct r as [|[[?|?|]|[?|?|]|]|?]; try discriminate;
    unfold axis_condition, check_bounding_box; simpl; rewrite !Z.geb_leb;
    repeat match goal with
    | |- context [?a <=? ?b] => destruct (Z.leb_spec a b)
    | |- context [?a <? ?b] => destruct (Z.ltb_spec a b)
    end; simpl; intros Hc; try discriminate Hc; lia.
Qed.

(** For any two boxes at most one rotation makes the overlap test true. *)
Theorem check_bounding_box_exclusive (r1 r2 : Z)
    (initial current : paint_struct_bound_box) :
  check_bounding_box r1 initial current = true →
  check_bounding_box r2 initial current = true →
  r1 = r2.
Proof.
  intros (Hr1&_&Hy1&Hx1)%check_bounding_box_true_inv
         (Hr2&_&Hy2&Hx2)%check_bounding_box_true_inv.
  assert (r1 = 0 ∨ r1 = 1 ∨ r1 = 2 ∨ r1 = 3) as [-> | [-> | [-> | ->]]] by lia;
    assert (r2 = 0 ∨ r2 = 1 ∨ r2 = 2 ∨ r2 = 3) as [-> | [-> | [-> | ->]]] by lia;
    unfold axis_condition in *; simpl in *; lia.
Qed.

Lemma check_bounding_box_exclusive_witness :
  check_bounding_box 0 box_beyond box_current = true
  ∧ check_bounding_box 0 box_beyond box_current = true
  ∧ 0 = 0.
Proof.
  assert (H : check_bounding_box 0 box_beyond box_current = true) by reflexivity.
  split; [exact H|]. split; [exact H|].
  exact (check_bounding_box_exclusive 0 0 box_beyond box_current H H).
Defined.

(** Under rotations 1, 2 and 3, on boxes whose extents run from start to
    end, the containment exclusion never applies: the test is the
    conjunction of the three extent conditions. *)
Theorem check_bounding_box_reversed (r : Z)
    (initial current : paint_struct_bound_box) :
  1 <= r <= 3 → box_ok initial → box_ok current →
  check_bounding_box r initial current = true
  ↔ b_z_end initial >= b_z current
    ∧ axis_condition (y_forward r) (b_y_end initial) (b_y current)
    ∧ axis_condition (x_forward r) (b_x_end initial) (b_x current).
Proof.
  intros Hr (?&?&?) (?&?&?).
  assert (r = 1 ∨ r = 2 ∨ r = 3) as [-> | [-> | ->]] by lia;
    unfold axis_condition, check_bounding_box; simpl; rewrite !Z.geb_leb;
    repeat match goal with
    | |- context [?a <=? ?b] => destruct (Z.leb_spec a b)
    | |- context [?a <? ?b] => destruct (Z.ltb_spec a b)
    end; simpl;
    (split; [intros Hc; try discriminate Hc; lia
           | intros Hc; try reflexivity; exfalso; lia]).
Qed.

Lemma check_bounding_box_reversed_witness :
  1 <= 1 <= 3 ∧ box_ok box_initial ∧ box_ok box_beyond
  ∧ (check_bounding_box 1 box_initial box_beyond = true
     ↔ b_z_end box_initial >= b_z box_beyond
       ∧ axis_condition (y_forward 1) (b_y_end box_initial) (b_y box_beyond)
       ∧ axis_condition (x_forward 1) (b_x_end box_initial) (b_x box_beyond)).
Proof.
  assert (Hr : 1 <= 1 <= 3) by lia.
  assert (Hi : box_ok box_initial) by (unfold box_ok; simpl; lia).
  assert (Hc : box_ok box_beyond) by (unfold box_ok; simpl; lia).
  split; [exact Hr|]. split; [exact Hi|]. split; [exact Hc|].
  exact (check_bounding_box_reversed 1 box_initial box_beyond Hr Hi Hc).
Defined.

(** A box of positive extent that lies within [initial] is never reported,
    whatever the rotation. *)
Theorem check_bounding_box_inside (r : Z) (initial current : paint_struct_bound_box) :
  box_inside current initial → positive_extent current →
  check_bounding_box r initial current = false.
Proof.
  intros ((?&?)&(?&?)&(?&?)) (?&?&?).
  destruct r as [|[[?|?|]|[?|?|]|]|?]; try reflexivity;
    unfold check_bounding_box; simpl; rewrite !Z.geb_leb;
    repeat match goal with
    | |- context [?a <=? ?b] => destruct (Z.leb_spec a b)
    | |- context [?a <? ?b] => destruct (Z.ltb_spec a b)
    end; simpl; try reflexivity; lia.
Qed.

Lemma check_bounding_box_inside_witness :
  box_inside box_B box_A ∧ positive_extent box_B
  ∧ check_bounding_box 3 box_A box_B = false.
Proof.
  assert (Hi : box_inside box_B box_A) by (unfold box_inside; simpl; lia).
  assert (Hp : positive_extent box_B) by (unfold positive_extent; simpl; lia).
  split; [exact Hi|]. split; [exact Hp|].
  exact (check_bounding_box_inside 3 box_A box_B Hi Hp).
Defined.

(** ** What the reorder pass leaves alone *)

(** A call of the reorder pass returns a cursor at or behind the one it was
    given, and every node that is not the cursor or behind it is left
    exactly as it was, markers included. *)
Theorem reorder_pass_behind_cursor (rotation q flag : Z) (fuel : nat)
    (s : paint_session) (p0 : option paint_struct_ptr)
    (A : list paint_struct_ptr) (c : paint_struct_ptr) (R : list paint_struct_ptr) :
  0 <= rotation < 4 → chain s p0 (A ++ c :: R) → (length R < fuel)%nat →
  ∃ s' a,
    paint_arrange_structs_helper fuel s (Some c) q flag rotation = Some (Some a, s')
    ∧ a ∈ c :: R
    ∧ (∀ p, p ∉ c :: R → load s' p = load s p).
Proof.
  intros Hrot Hc Hf.
  destruct (helper_spec rotation q flag fuel s p0 A c R Hrot Hc Hf)
    as (s'&a&M&W&W'&S&Hr&HM&_&_&_&_&_&Hl).
  exists s', a. split; [done|]. split; [|done].
  rewrite HM. apply elem_of_app. right. left.
Qed.

Lemma reorder_pass_behind_cursor_witness :
  0 <= 0 < 4
  ∧ chain terrace_session (Some PaintHead_ptr)
      ([PaintHead_ptr] ++ PaintStructs_ptr 0 :: terrace_rest)
  ∧ (length terrace_rest < 6)%nat
  ∧ ∃ s' a,
      paint_arrange_structs_helper 6 terrace_session (Some (PaintStructs_ptr 0)) 6 0 0
        = Some (Some a, s')
      ∧ a ∈ PaintStructs_ptr 0 :: terrace_rest
      ∧ (∀ p, p ∉ PaintStructs_ptr 0 :: terrace_rest →
              load s' p = load terrace_session p).
Proof.
  assert (Hr : 0 <= 0 < 4) by lia.
  assert (Hf : (length terrace_rest < 6)%nat) by (simpl; lia).
  split; [exact Hr|]. split; [exact terrace_chain|]. split; [exact Hf|].
  exact (reorder_pass_behind_cursor 0 6 0 6 terrace_session _ [PaintHead_ptr] _ _ Hr terrace_chain Hf).
Defined.

(** ** Writes of a run, on any session *)

Lemma set_next_frame s p v s' : set_next s p v = Some s' → session_frame s s'.
Proof. by intros (?&?&?&?)%set_next_spec. Qed.

Lemma set_flags_frame s p v s' : set_flags s p v = Some s' → session_frame s s'.
Proof. by intros (?&?&?&?)%set_flags_spec. Qed.

Lemma mark_one_frame s b n q flag s' :
  mark_one s b n q flag = Some s' → session_frame s s'.
Proof.
  unfold mark_one.
  destruct (quadrant_index n >? q + 1); [apply set_flags_frame|].
  destruct (quadrant_index n =? q + 1); [apply set_flags_frame|].
  destruct (quadrant_index n =? q); [apply set_flags_frame|].
  by intros [= ->].
Qed.

Lemma helper_mark_frame q flag fuel : ∀ s a s',
  helper_mark fuel s a q flag = Some s' → session_frame s s'.
Proof.
  induction fuel as [|fuel IH]; intros s a s'; simpl; [done|].
  destruct (load s a) as [n|]; simpl; [|done].
  destruct (next_quadrant_ps n) as [b|]; [|by intros [= ->]].
  destruct (load s b) as [n'|]; simpl; [|done].
  destruct (mark_one s b n' q flag) as [s1|] eqn:Hm; simpl; [|done].
  apply mark_one_frame in Hm.
  destruct (quadrant_index n' <=? q + 1).
  - intros H%IH. by etransitivity.
  - by intros [= <-].
Qed.

Lemma splice_frame s t u v s' : splice s t u v = Some s' → session_frame s s'.
Proof.
  unfold splice.
  destruct (load s v) as [n'|]; simpl; [|done].
  destruct (set_next s u (next_quadrant_ps n')) as [s1|] eqn:H1; simpl; [|done].
  destruct (load s1 t) as [nt|]; simpl; [|done].
  destruct (set_next s1 t (Some v)) as [s2|] eqn:H2; simpl; [|done].
  intros H3. apply set_next_frame in H1, H2, H3.
  by do 2 (etransitivity; [eassumption|]).
Qed.

Lemma helper_scan_frame rot fuel : ∀ s t pivot u s',
  helper_scan rot fuel s t pivot u = Some s' → session_frame s s'.
Proof.
  induction fuel as [|fuel IH]; intros s t pivot u s'; simpl; [done|].
  destruct (load s u) as [n|]; simpl; [|done].
  destruct (next_quadrant_ps n) as [v|]; [|by intros [= ->]].
  destruct (load s v) as [n'|]; simpl; [|done].
  destruct (has_flag (quadrant_flags n') PAINT_QUADRANT_FLAG_BIGGER);
    [by intros [= ->]|].
  destruct (has_flag (quadrant_flags n') PAINT_QUADRANT_FLAG_NEXT); simpl;
    [|apply IH].
  destruct (load s pivot) as [i|]; simpl; [|done].
  destruct (check_bounding_box rot (bounds i) (bounds n')); [|apply IH].
  destruct (splice s t u v) as [s1|] eqn:Hs; simpl; [|done].
  apply splice_frame in Hs. intros H%IH. by etransitivity.
Qed.

Lemma clear_identical_frame s p s' : clear_identical s p = Some s' → session_frame s s'.
Proof.
  unfold clear_identical. destruct (load s p); simpl; [|done]. apply set_flags_frame.
Qed.

Lemma helper_outer_frame rot n fuel : ∀ s ps c r s',
  helper_outer rot n fuel s ps c = Some (r, s') → session_frame s s'.
Proof.
  induction fuel as [|fuel IH]; intros s ps c r s'; simpl; [done|].
  destruct (helper_find n s ps) as [[|ps' pn]|]; simpl; [by intros [= _ ->]| |done].
  destruct (clear_identical s pn) as [s1|] eqn:H1; simpl; [|done].
  destruct (helper_scan rot n s1 ps' pn pn) as [s2|] eqn:H2; simpl; [|done].
  apply clear_identical_frame in H1. apply helper_scan_frame in H2.
  intros H%IH. by do 2 (etransitivity; [eassumption|]).
Qed.

Lemma helper_rotation_frame rot fuel s c q flag r s' :
  paint_arrange_structs_helper_rotation rot fuel s c q flag = Some (r, s') →
  session_frame s s'.
Proof.
  unfold paint_arrange_structs_helper_rotation.
  destruct c as [c|]; simpl; [|done].
  destruct (helper_advance fuel s c q) as [[a|a]|]; simpl; [by intros [= _ ->]| |done].
  destruct (helper_mark fuel s a q flag) as [s1|] eqn:H1; simpl; [|done].
  destruct (helper_outer rot fuel fuel s1 a a) as [[c' s2]|] eqn:H2; simpl; [|done].
  apply helper_mark_frame in H1. apply helper_outer_frame in H2.
  intros [= _ <-]. by etransitivity.
Qed.

Lemma helper_frame fuel s c q flag rotation r s' :
  paint_arrange_structs_helper fuel s c q flag rotation = Some (r, s') →
  session_frame s s'.
Proof.
  unfold paint_arrange_structs_helper.
  destruct rotation as [|[[?|?|]|[?|?|]|]|?];
    first [apply helper_rotation_frame | by intros [= _ ->]].
Qed.

Lemma merge_round_frame n s ps (qk : option paint_struct_ptr) ps1 s1 :
  match qk with
  | Some head => s1 ← set_next s ps qk; tl ← walk_to_tail n s1 head; Some (tl, s1)
  | None => Some (ps, s)
  end = Some (ps1, s1) → session_frame s s1.
Proof.
  destruct qk as [h|]; [|by intros [= _ ->]].
  destruct (set_next s ps (Some h)) as [s0|] eqn:H0; simpl; [|done].
  destruct (walk_to_tail n s0 h); simpl; [|done].
  intros [= _ <-]. by apply set_next_frame in H0.
Qed.

Lemma arrange_merge_frame n fuel : ∀ s ps q r s',
  arrange_merge n fuel s ps q = Some (r, s') → session_frame s s'.
Proof.
  induction fuel as [|fuel IH]; intros s ps q r s'; simpl; [done|].
  destruct (Quadrants s !! Z.to_nat q) as [qk|]; simpl; [|done].
  destruct (match qk with Some _ => _ | None => _ end) as [[ps1 s1]|] eqn:Hstep;
    simpl; [|done].
  apply merge_round_frame in Hstep.
  destruct (to_uint32 (q + 1) <=? QuadrantFrontIndex s1).
  - intros H%IH. by etransitivity.
  - by intros [= _ <-].
Qed.

Lemma arrange_reorder_frame n rotation fuel : ∀ s c q s',
  arrange_reorder n fuel s c q rotation = Some s' → session_frame s s'.
Proof.
  induction fuel as [|fuel IH]; intros s c q s'; simpl; [done|].
  destruct (to_uint32 (q + 1) <? QuadrantFrontIndex s); [|by intros [= ->]].
  destruct (paint_arrange_structs_helper n s c _ 0 rotation) as [[c' s1]|] eqn:H1;
    simpl; [|done].
  apply helper_frame in H1. intros H%IH. by etransitivity.
Qed.

(** Whenever [paint_session_arrange] returns, on any session whatever (no
    precondition on the bucket lists), it has rewritten nothing but
    [next_quadrant_ps] and [quadrant_flags]: bounds, indices, attached
    lists, the bucket table and the two bucket indices are as before. *)
Theorem arrange_frame_any (g : Z) (fuel : nat) (s s' : paint_session) :
  paint_session_arrange g fuel s = Some s' → session_frame s s'.
Proof.
  rewrite arrange_unfold. unfold paint_session_arrange_merge.
  destruct (set_next s PaintHead_ptr None) as [s0|] eqn:H0; simpl; [|done].
  apply set_next_frame in H0. destruct H0 as (HQ&HB&HF&Hrest).
  assert (H0 : session_frame s s0) by (by splits).
  rewrite HB. destruct (QuadrantBackIndex s =? UINT32_MAX); simpl.
  { by intros [= <-]. }
  destruct (arrange_merge fuel fuel s0 PaintHead_ptr (QuadrantBackIndex s))
    as [[t s1]|] eqn:H1; simpl; [|done].
  apply arrange_merge_frame in H1.
  destruct (paint_arrange_structs_helper fuel s1 _ _ _ _) as [[c s2]|] eqn:H2;
    simpl; [|done].
  apply helper_frame in H2. intros H3%arrange_reorder_frame.
  by do 3 (etransitivity; [eassumption|]).
Qed.

Lemma arrange_frame_any_witness :
  ∃ s', paint_session_arrange 0 516 staircase_session = Some s'
        ∧ session_frame staircase_session s'.
Proof.
  eexists. split; [vm_compute; reflexivity|].
  apply (arrange_frame_any 0 516 staircase_session). vm_compute. reflexivity.
Defined.

(** ** Runs without overlap *)

Lemma links_into_ext s s' Y X :
  (∀ p, next_of s' p = next_of s p) → links_into s Y X → links_into s' Y X.
Proof. intros H HL a b Ha Hb. rewrite H in Hb. by eapply HL. Qed.

Lemma no_overlap_frame rot s s' X :
  session_frame s s' → no_overlap rot s X → no_overlap rot s' X.
Proof.
  intros Hfr Hno a b na' nb' Ha Hb Hla Hlb.
  destruct (load s a) as [na|] eqn:Ea;
    [|by rewrite (load_frame_None _ _ _ Hfr Ea) in Hla].
  destruct (load s b) as [nb|] eqn:Eb;
    [|by rewrite (load_frame_None _ _ _ Hfr Eb) in Hlb].
  rewrite (frame_bounds _ _ _ _ _ Hfr Ea Hla), (frame_bounds _ _ _ _ _ Hfr Eb Hlb).
  exact (Hno a b na nb Ha Hb Ea Eb).
Qed.

Lemma chain_links_into s c R : chain s (Some c) (c :: R) → links_into s (c :: R) R.
Proof.
  intros Hc a b Ha Hb. apply list_elem_of_split in Ha as (L1&L2&HL).
  rewrite HL in Hc. apply chain_mid in Hc as (n&Hn&Hc).
  unfold next_of in Hb. rewrite Hn in Hb. simpl in Hb. injection Hb as Hb.
  rewrite Hb in Hc. destruct L2 as [|b' L2]; [by inversion Hc|].
  pose proof (lseg_cons_next _ _ _ _ _ Hc) as Hb'. injection Hb' as <-.
  destruct L1 as [|x L1]; simpl in HL; injection HL as -> ->.
  - left.
  - apply elem_of_app. right. right. left.
Qed.

Lemma next_of_Some s a n b :
  load s a = Some n → next_quadrant_ps n = Some b → next_of s a = Some (Some b).
Proof. intros Hn Hb. unfold next_of. rewrite Hn. simpl. by rewrite Hb. Qed.

Section NoOverlap.

Variable rot : Z.
Variables Y X : list paint_struct_ptr.
Hypothesis X_in_Y : ∀ x, x ∈ X → x ∈ Y.

Lemma helper_advance_in q fuel : ∀ s c r,
  links_into s Y X → c ∈ Y → helper_advance fuel s c q = Some r →
  match r with AdvReturn a | AdvAnchor a => a ∈ Y end.
Proof.
  induction fuel as [|fuel IH]; intros s c r HL Hc; simpl; [done|].
  destruct (load s c) as [n|] eqn:Hn; simpl; [|done].
  destruct (next_quadrant_ps n) as [b|] eqn:Hb; [|by intros [= <-]].
  destruct (load s b) as [n'|]; simpl; [|done].
  destruct (q >? quadrant_index n'); [|by intros [= <-]].
  apply IH; [done|]. apply X_in_Y. eapply HL; [exact Hc|]. by eapply next_of_Some.
Qed.

Lemma mark_one_links s b n q flag s' :
  mark_one s b n q flag = Some s' → ∀ p, next_of s' p = next_of s p.
Proof.
  unfold mark_one. intros H p. revert H.
  destruct (quadrant_index n >? q + 1); [by apply set_flags_next_of|].
  destruct (quadrant_index n =? q + 1); [by apply set_flags_next_of|].
  destruct (quadrant_index n =? q); [by apply set_flags_next_of|].
  by intros [= ->].
Qed.

Lemma helper_mark_links q flag fuel : ∀ s a s',
  helper_mark fuel s a q flag = Some s' → ∀ p, next_of s' p = next_of s p.
Proof.
  induction fuel as [|fuel IH]; intros s a s'; simpl; [done|].
  destruct (load s a) as [n|]; simpl; [|done].
  destruct (next_quadrant_ps n) as [b|]; [|by intros [= ->]].
  destruct (load s b) as [n'|]; simpl; [|done].
  destruct (mark_one s b n' q flag) as [s1|] eqn:Hm; simpl; [|done].
  pose proof (mark_one_links _ _ _ _ _ _ Hm) as H1.
  destruct (quadrant_index n' <=? q + 1).
  - intros H p. by rewrite (IH _ _ _ H), H1.
  - by intros [= <-].
Qed.

Lemma helper_find_in fuel : ∀ s ps ps' pn,
  links_into s Y X → ps ∈ Y → helper_find fuel s ps = Some (FindBreak ps' pn) →
  ps' ∈ Y ∧ pn ∈ X.
Proof.
  induction fuel as [|fuel IH]; intros s ps ps' pn HL Hps; simpl; [done|].
  destruct (load s ps) as [n|] eqn:Hn; simpl; [|done].
  destruct (next_quadrant_ps n) as [b|] eqn:Hb; [|done].
  assert (HbX : b ∈ X) by (eapply HL; [exact Hps|]; by eapply next_of_Some).
  destruct (load s b) as [n'|]; simpl; [|done].
  destruct (has_flag (quadrant_flags n') PAINT_QUADRANT_FLAG_BIGGER); [done|].
  destruct (has_flag (quadrant_flags n') PAINT_QUADRANT_FLAG_IDENTICAL).
  - by intros [= <- <-].
  - apply IH; [done|]. by apply X_in_Y.
Qed.

(** Without a true comparison the scan loop changes nothing at all. *)
Lemma helper_scan_still fuel : ∀ s t pivot u s',
  links_into s Y X → no_overlap rot s X → pivot ∈ X → u ∈ Y →
  helper_scan rot fuel s t pivot u = Some s' → s' = s.
Proof.
  induction fuel as [|fuel IH]; intros s t pivot u s' HL Hno Hpiv Hu; simpl; [done|].
  destruct (load s u) as [n|] eqn:Hn; simpl; [|done].
  destruct (next_quadrant_ps n) as [v|] eqn:Hv; [|by intros [= <-]].
  assert (HvX : v ∈ X) by (eapply HL; [exact Hu|]; by eapply next_of_Some).
  destruct (load s v) as [n'|] eqn:Hn'; simpl; [|done].
  destruct (has_flag (quadrant_flags n') PAINT_QUADRANT_FLAG_BIGGER);
    [by intros [= <-]|].
  destruct (has_flag (quadrant_flags n') PAINT_QUADRANT_FLAG_NEXT); simpl;
    [|apply IH; auto].
  destruct (load s pivot) as [i|] eqn:Hi; simpl; [|done].
  rewrite (Hno pivot v i n' Hpiv HvX Hi Hn'). apply IH; auto.
Qed.

Lemma clear_identical_links s p s' :
  clear_identical s p = Some s' → ∀ a, next_of s' a = next_of s a.
Proof.
  unfold clear_identical. destruct (load s p); simpl; [|done].
  intros H a. by eapply set_flags_next_of.
Qed.

Lemma helper_outer_links n fuel : ∀ s ps c r s',
  links_into s Y X → no_overlap rot s X → ps ∈ Y →
  helper_outer rot n fuel s ps c = Some (r, s') →
  r = c ∧ ∀ p, next_of s' p = next_of s p.
Proof.
  induction fuel as [|fuel IH]; intros s ps c r s' HL Hno Hps; simpl; [done|].
  destruct (helper_find n s ps) as [[|ps' pn]|] eqn:Hfind; simpl;
    [by intros [= <- <-]| |done].
  destruct (helper_find_in _ _ _ _ _ HL Hps Hfind) as [Hps' Hpn].
  destruct (clear_identical s pn) as [s1|] eqn:H1; simpl; [|done].
  pose proof (clear_identical_links _ _ _ H1) as Hl1.
  apply clear_identical_frame in H1.
  assert (HL1 : links_into s1 Y X) by (by eapply links_into_ext).
  assert (Hno1 : no_overlap rot s1 X) by (by eapply no_overlap_frame).
  destruct (helper_scan rot n s1 ps' pn pn) as [s2|] eqn:H2; simpl; [|done].
  apply helper_scan_still in H2 as ->; auto.
  intros H. destruct (IH _ _ _ _ _ HL1 Hno1 Hps' H) as [-> Hl].
  split; [done|]. intros p. by rewrite Hl, Hl1.
Qed.

Lemma helper_rotation_links fuel s c q flag r s' :
  links_into s Y X → no_overlap rot s X → c ∈ Y →
  paint_arrange_structs_helper_rotation rot fuel s (Some c) q flag = Some (r, s') →
  (∃ a, r = Some a ∧ a ∈ Y) ∧ ∀ p, next_of s' p = next_of s p.
Proof.
  intros HL Hno Hc. unfold paint_arrange_structs_helper_rotation. simpl.
  destruct (helper_advance fuel s c q) as [res|] eqn:Hadv; simpl; [|done].
  pose proof (helper_advance_in _ _ _ _ _ HL Hc Hadv) as Ha.
  destruct res as [a|a]; [intros [= <- <-]; eauto|].
  destruct (helper_mark fuel s a q flag) as [s1|] eqn:H1; simpl; [|done].
  pose proof (helper_mark_links _ _ _ _ _ _ H1) as Hl1.
  apply helper_mark_frame in H1.
  destruct (helper_outer rot fuel fuel s1 a a) as [[c' s2]|] eqn:H2; simpl; [|done].
  apply helper_outer_links in H2 as [-> Hl2];
    [|by eapply links_into_ext|by eapply no_overlap_frame|done].
  intros [= <- <-]. split; [eauto|]. intros p. by rewrite Hl2, Hl1.
Qed.

End NoOverlap.

Lemma helper_links rotation Y X fuel s c q flag r s' :
  (∀ x, x ∈ X → x ∈ Y) → 0 <= rotation < 4 →
  links_into s Y X → no_overlap rotation s X → c ∈ Y →
  paint_arrange_structs_helper fuel s (Some c) q flag rotation = Some (r, s') →
  (∃ a, r = Some a ∧ a ∈ Y) ∧ ∀ p, next_of s' p = next_of s p.
Proof.
  intros HXY Hrot HL Hno Hc.
  assert (rotation = 0 ∨ rotation = 1 ∨ rotation = 2 ∨ rotation = 3)
    as [-> | [-> | [-> | ->]]] by lia;
    by apply (helper_rotation_links _ Y X).
Qed.

Lemma arrange_reorder_links rotation Y X n fuel : ∀ s c q s',
  (∀ x, x ∈ X → x ∈ Y) → 0 <= rotation < 4 →
  links_into s Y X → no_overlap rotation s X → c ∈ Y →
  arrange_reorder n fuel s (Some c) q rotation = Some s' →
  ∀ p, next_of s' p = next_of s p.
Proof.
  induction fuel as [|fuel IH]; intros s c q s' HXY Hrot HL Hno Hc; simpl; [done|].
  destruct (to_uint32 (q + 1) <? QuadrantFrontIndex s); [|by intros [= ->]].
  destruct (paint_arrange_structs_helper n s (Some c) _ 0 rotation) as [[c' s1]|] eqn:H1;
    simpl; [|done].
  pose proof (helper_frame _ _ _ _ _ _ _ _ H1) as Hfr1.
  apply (helper_links rotation Y X) in H1 as [(a&->&Ha) Hl1]; try done.
  intros H p.
  assert (HL1 : links_into s1 Y X) by (by eapply links_into_ext).
  assert (Hno1 : no_overlap rotation s1 X) by (by eapply no_overlap_frame).
  rewrite (IH s1 a _ s' HXY Hrot HL1 Hno1 Ha H p). apply Hl1.
Qed.

(** If no ordered pair of primitives of the occupied buckets passes the
    overlap test of the rotation in force, the run leaves the merge order
    as it is: the output chain is the concatenation of the bucket lists. *)
Theorem arrange_without_overlap (g : Z) (fuel : nat) (s : paint_session)
    (Bs : list (list paint_struct_ptr)) :
  session_ok s Bs →
  (Z.to_nat MAX_PAINT_QUADRANTS + length (concat Bs) < fuel)%nat →
  no_overlap (get_current_rotation g) s (concat (occupied s Bs)) →
  ∃ s', paint_session_arrange g fuel s = Some s'
    ∧ chain s' (next_quadrant_ps (PaintHead s')) (concat (occupied s Bs)).
Proof.
  intros Hok Hfuel Hno.
  destruct (arrange_spec g fuel s Bs Hok Hfuel) as (s'&l'&Hrun&_).
  destruct (merge_spec fuel s Bs Hok Hfuel) as (s1&Hs1&Hc1&Hfr1&_).
  exists s'. split; [done|].
  set (X := concat (occupied s Bs)) in *.
  assert (HXY : ∀ x, x ∈ X → x ∈ PaintHead_ptr :: X) by (intros; by right).
  pose proof (get_current_rotation_range g) as Hrot.
  pose proof (chain_links_into _ _ _ Hc1) as HL1.
  pose proof (no_overlap_frame _ _ _ _ Hfr1 Hno) as Hno1.
  rewrite arrange_unfold, Hs1 in Hrun. simpl in Hrun.
  destruct (QuadrantBackIndex s =? UINT32_MAX).
  { injection Hrun as <-. apply chain_cons_inv in Hc1 as (n&Hn&Hc1).
    simpl in Hn. by injection Hn as <-. }
  destruct (paint_arrange_structs_helper fuel s1 _ _ _ _) as [[c s2]|] eqn:H2;
    simpl in Hrun; [|done].
  pose proof (helper_frame _ _ _ _ _ _ _ _ H2) as Hfr2.
  apply (helper_links _ (PaintHead_ptr :: X) X) in H2 as [(a&->&Ha) Hl2];
    [|done|done|done|done|left].
  assert (HL2 : links_into s2 (PaintHead_ptr :: X) X) by (by eapply links_into_ext).
  assert (Hno2 : no_overlap (get_current_rotation g) s2 X)
    by (by eapply no_overlap_frame).
  pose proof (arrange_reorder_links _ _ _ _ _ _ _ _ _ HXY Hrot HL2 Hno2 Ha Hrun) as Hl3.
  assert (Hc' : chain s' (Some PaintHead_ptr) (PaintHead_ptr :: X)).
  { eapply lseg_ext; [|exact Hc1]. intros p _. by rewrite Hl3, Hl2. }
  apply chain_cons_inv in Hc' as (n&Hn&Hc'). simpl in Hn. by injection Hn as <-.
Qed.

Lemma staircase_ok : session_ok staircase_session staircase_buckets.
Proof. apply session_pre_ok; [apply staircase_pre|]. by vm_compute. Qed.

Lemma staircase_no_overlap_2 :
  no_overlap (get_current_rotation 2) staircase_session
    (concat (occupied staircase_session staircase_buckets)).
Proof.
  assert (Hocc : concat (occupied staircase_session staircase_buckets)
                 = [PaintStructs_ptr 0; PaintStructs_ptr 1; PaintStructs_ptr 2])
    by (vm_compute; reflexivity).
  rewrite Hocc. intros a b na nb Ha Hb Hla Hlb.
  rewrite !elem_of_cons, elem_of_nil in Ha, Hb.
  destruct Ha as [->|[->|[->|[]]]], Hb as [->|[->|[->|[]]]];
    vm_compute in Hla, Hlb; injection Hla as <-; injection Hlb as <-; reflexivity.
Qed.

Lemma arrange_without_overlap_witness :
  session_ok staircase_session staircase_buckets
  ∧ (Z.to_nat MAX_PAINT_QUADRANTS + length (concat staircase_buckets) < 516)%nat
  ∧ no_overlap (get_current_rotation 2) staircase_session
      (concat (occupied staircase_session staircase_buckets))
  ∧ ∃ s', paint_session_arrange 2 516 staircase_session = Some s'
      ∧ chain s' (next_quadrant_ps (PaintHead s'))
          (concat (occupied staircase_session staircase_buckets)).
Proof.
  assert (Hf : (Z.to_nat MAX_PAINT_QUADRANTS + length (concat staircase_buckets) < 516)%nat).
  { vm_compute. lia. }
  split; [exact staircase_ok|]. split; [exact Hf|].
  split; [exact staircase_no_overlap_2|].
  exact (arrange_without_overlap 2 516 staircase_session staircase_buckets
           staircase_ok Hf staircase_no_overlap_2).
Defined.

(** ** The nested scenario *)

Lemma no_overlap_ahead_frame rot s s' L :
  session_frame s s' → no_overlap_ahead rot s L → no_overlap_ahead rot s' L.
Proof.
  intros Hfr Hno L1 a L2 b na' nb' HL Hb Hla Hlb.
  destruct (load s a) as [na|] eqn:Ea;
    [|by rewrite (load_frame_None _ _ _ Hfr Ea) in Hla].
  destruct (load s b) as [nb|] eqn:Eb;
    [|by rewrite (load_frame_None _ _ _ Hfr Eb) in Hlb].
  rewrite (frame_bounds _ _ _ _ _ Hfr Ea Hla), (frame_bounds _ _ _ _ _ Hfr Eb Hlb).
  exact (Hno L1 a L2 b na nb HL Hb Ea Eb).
Qed.

(** A scan whose pivot passes the test against no node behind the start
    changes nothing. *)
Lemma helper_scan_ahead rot fuel : ∀ s t pivot u R s',
  chain s (Some u) (u :: R) →
  (∀ i v nv, load s pivot = Some i → v ∈ R → load s v = Some nv →
     check_bounding_box rot (bounds i) (bounds nv) = false) →
  helper_scan rot fuel s t pivot u = Some s' → s' = s.
Proof.
  induction fuel as [|fuel IH]; intros s t pivot u R s' Hc Hno; simpl; [done|].
  apply chain_cons_inv in Hc as (n&Hn&Hc). rewrite Hn. simpl.
  destruct R as [|v R].
  { red in Hc. simpl in Hc. rewrite Hc. by intros [= <-]. }
  pose proof (lseg_cons_next _ _ _ _ _ Hc) as Hnx. rewrite Hnx in Hc |- *.
  pose proof Hc as Hc'. apply chain_cons_inv in Hc' as (n'&Hn'&_). rewrite Hn'. simpl.
  assert (Hno' : ∀ i w nw, load s pivot = Some i → w ∈ R → load s w = Some nw →
            check_bounding_box rot (bounds i) (bounds nw) = false).
  { intros i w nw Hi Hw. apply Hno; [done|]. by right. }
  assert (Hrec : helper_scan rot fuel s t pivot v = Some s' → s' = s)
    by (by apply (IH _ _ _ _ R)).
  destruct (has_flag (quadrant_flags n') PAINT_QUADRANT_FLAG_BIGGER);
    [by intros [= <-]|].
  destruct (has_flag (quadrant_flags n') PAINT_QUADRANT_FLAG_NEXT); simpl; [|done].
  destruct (load s pivot) as [i|] eqn:Hi; simpl; [|done].
  by rewrite (Hno i v n' eq_refl ltac:(left) Hn').
Qed.

Lemma helper_outer_ahead rot h X n fuel : ∀ s ps c r s',
  chain s (Some h) (h :: X) → no_overlap_ahead rot s X → ps ∈ h :: X →
  helper_outer rot n fuel s ps c = Some (r, s') →
  r = c ∧ ∀ p, next_of s' p = next_of s p.
Proof.
  assert (HXY : ∀ x, x ∈ X → x ∈ h :: X) by (intros; by right).
  induction fuel as [|fuel IH]; intros s ps c r s' Hc Hno Hps; simpl; [done|].
  destruct (helper_find n s ps) as [[|ps' pn]|] eqn:Hfind; simpl;
    [by intros [= <- <-]| |done].
  destruct (helper_find_in (h :: X) X HXY _ _ _ _ _ (chain_links_into _ _ _ Hc)
              Hps Hfind) as [Hps' Hpn].
  destruct (clear_identical s pn) as [s1|] eqn:H1; simpl; [|done].
  pose proof (clear_identical_links _ _ _ H1) as Hl1.
  apply clear_identical_frame in H1.
  assert (Hc1 : chain s1 (Some h) (h :: X)).
  { eapply lseg_ext; [|exact Hc]. intros; apply Hl1. }
  assert (Hno1 : no_overlap_ahead rot s1 X) by (by eapply no_overlap_ahead_frame).
  destruct (helper_scan rot n s1 ps' pn pn) as [s2|] eqn:H2; simpl; [|done].
  apply list_elem_of_split in Hpn as (L1&L2&HX).
  assert (Hcp : chain s1 (Some pn) (pn :: L2)).
  { pose proof Hc1 as Hc1'. rewrite HX, app_comm_cons in Hc1'.
    destruct (chain_suffix _ _ _ _ Hc1') as (m&_&Hm).
    by rewrite (lseg_cons_next _ _ _ _ _ Hm) in Hm. }
  apply (helper_scan_ahead rot n s1 ps' pn pn L2) in H2 as ->; [|done|].
  2:{ intros i v nv Hi Hv Hnv. exact (Hno1 L1 pn L2 v i nv HX Hv Hi Hnv). }
  intros H. destruct (IH _ _ _ _ _ Hc1 Hno1 Hps' H) as [-> Hl].
  split; [done|]. intros p. by rewrite Hl, Hl1.
Qed.

Lemma helper_rotation_ahead rot h X fuel s c q flag r s' :
  chain s (Some h) (h :: X) → no_overlap_ahead rot s X → c ∈ h :: X →
  paint_arrange_structs_helper_rotation rot fuel s (Some c) q flag = Some (r, s') →
  (∃ a, r = Some a ∧ a ∈ h :: X) ∧ ∀ p, next_of s' p = next_of s p.
Proof.
  assert (HXY : ∀ x, x ∈ X → x ∈ h :: X) by (intros; by right).
  intros Hc Hno Hin. unfold paint_arrange_structs_helper_rotation. simpl.
  destruct (helper_advance fuel s c q) as [res|] eqn:Hadv; simpl; [|done].
  pose proof (helper_advance_in (h :: X) X HXY _ _ _ _ _ (chain_links_into _ _ _ Hc)
                Hin Hadv) as Ha.
  destruct res as [a|a]; [intros [= <- <-]; eauto|].
  destruct (helper_mark fuel s a q flag) as [s1|] eqn:H1; simpl; [|done].
  pose proof (helper_mark_links _ _ _ _ _ _ H1) as Hl1.
  apply helper_mark_frame in H1.
  destruct (helper_outer rot fuel fuel s1 a a) as [[c' s2]|] eqn:H2; simpl; [|done].
  apply (helper_outer_ahead rot h X) in H2 as [-> Hl2];
    [| eapply lseg_ext; [|exact Hc]; intros; apply Hl1
     | by eapply no_overlap_ahead_frame | done].
  intros [= <- <-]. split; [eauto|]. intros p. by rewrite Hl2, Hl1.
Qed.

Lemma helper_ahead rotation h X fuel s c q flag r s' :
  0 <= rotation < 4 →
  chain s (Some h) (h :: X) → no_overlap_ahead rotation s X → c ∈ h :: X →
  paint_arrange_structs_helper fuel s (Some c) q flag rotation = Some (r, s') →
  (∃ a, r = Some a ∧ a ∈ h :: X) ∧ ∀ p, next_of s' p = next_of s p.
Proof.
  intros Hrot. rewrite helper_dispatch by done. apply helper_rotation_ahead.
Qed.

Lemma arrange_reorder_ahead rotation h X n fuel : ∀ s c q s',
  0 <= rotation < 4 →
  chain s (Some h) (h :: X) → no_overlap_ahead rotation s X → c ∈ h :: X →
  arrange_reorder n fuel s (Some c) q rotation = Some s' →
  ∀ p, next_of s' p = next_of s p.
Proof.
  induction fuel as [|fuel IH]; intros s c q s' Hrot Hc Hno Hin; simpl; [done|].
  destruct (to_uint32 (q + 1) <? QuadrantFrontIndex s); [|by intros [= ->]].
  destruct (paint_arrange_structs_helper n s (Some c) _ 0 rotation) as [[c' s1]|] eqn:H1;
    simpl; [|done].
  pose proof (helper_frame _ _ _ _ _ _ _ _ H1) as Hfr1.
  apply (helper_ahead rotation h X) in H1 as [(a&->&Ha) Hl1]; try done.
  intros H p.
  assert (Hc1 : chain s1 (Some h) (h :: X)).
  { eapply lseg_ext; [|exact Hc]. intros; apply Hl1. }
  assert (Hno1 : no_overlap_ahead rotation s1 X)
    by (by eapply no_overlap_ahead_frame).
  rewrite (IH s1 a _ s' Hrot Hc1 Hno1 Ha H p). apply Hl1.
Qed.

(** When no primitive of the occupied buckets passes the overlap test
    against one that follows it in the merge order, the run leaves that
    order as it is. *)
Lemma arrange_ahead_spec g fuel s Bs :
  session_ok s Bs →
  (Z.to_nat MAX_PAINT_QUADRANTS + length (concat Bs) < fuel)%nat →
  no_overlap_ahead (get_current_rotation g) s (concat (occupied s Bs)) →
  ∃ s', paint_session_arrange g fuel s = Some s'
    ∧ chain s' (next_quadrant_ps (PaintHead s')) (concat (occupied s Bs)).
Proof.
  intros Hok Hfuel Hno.
  destruct (arrange_spec g fuel s Bs Hok Hfuel) as (s'&l'&Hrun&_).
  destruct (merge_spec fuel s Bs Hok Hfuel) as (s1&Hs1&Hc1&Hfr1&_).
  exists s'. split; [done|].
  set (X := concat (occupied s Bs)) in *.
  pose proof (get_current_rotation_range g) as Hrot.
  pose proof (no_overlap_ahead_frame _ _ _ _ Hfr1 Hno) as Hno1.
  rewrite arrange_unfold, Hs1 in Hrun. simpl in Hrun.
  destruct (QuadrantBackIndex s =? UINT32_MAX).
  { injection Hrun as <-. apply chain_cons_inv in Hc1 as (n&Hn&Hc1).
    simpl in Hn. by injection Hn as <-. }
  destruct (paint_arrange_structs_helper fuel s1 _ _ _ _) as [[c s2]|] eqn:H2;
    simpl in Hrun; [|done].
  pose proof (helper_frame _ _ _ _ _ _ _ _ H2) as Hfr2.
  apply (helper_ahead _ PaintHead_ptr X) in H2 as [(a&->&Ha) Hl2];
    [|done|done|done|left].
  assert (Hc2 : chain s2 (Some PaintHead_ptr) (PaintHead_ptr :: X)).
  { eapply lseg_ext; [|exact Hc1]. intros; apply Hl2. }
  assert (Hno2 : no_overlap_ahead (get_current_rotation g) s2 X)
    by (by eapply no_overlap_ahead_frame).
  pose proof (arrange_reorder_ahead _ _ _ _ _ _ _ _ _ Hrot Hc2 Hno2 Ha Hrun) as Hl3.
  assert (Hc' : chain s' (Some PaintHead_ptr) (PaintHead_ptr :: X)).
  { eapply lseg_ext; [|exact Hc2]. intros; apply Hl3. }
  apply chain_cons_inv in Hc' as (n&Hn&Hc'). simpl in Hn. by injection Hn as <-.
Qed.

(** C6, as the code has it: with A = (0,0,0,4,4,4) and B = (1,1,1,3,3,3)
    the rotation-0 test is not true. *)
Lemma nested_overlap_counterexample :
  check_bounding_box 0 box_A box_B ≠ true.
Proof. discriminate. Qed.

(** C6, amended: in the scenario (bucket 5 holds exactly A, bucket 6
    starts with B, no other bucket is occupied) the rotation-0 test of A
    against B is false, because B lies inside A and the containment
    exclusion applies.  When the bucket-6 primitives behind B are
    unrelated, that is, none of them passes the test against A, against
    B or against one that precedes it in the bucket, no primitive is
    moved: the output chain is the merge order, A, then B directly behind
    it, then the others in bucket order. *)
Theorem nested_scenario_order (fuel : nat) (s : paint_session)
    (Bs : list (list paint_struct_ptr)) (a b : paint_struct_ptr)
    (rest : list paint_struct_ptr) (na nb : paint_struct) :
  session_ok s Bs →
  QuadrantBackIndex s = 5 → QuadrantFrontIndex s = 6 →
  Bs !! 5%nat = Some [a] → Bs !! 6%nat = Some (b :: rest) →
  load s a = Some na → bounds na = box_A →
  load s b = Some nb → bounds nb = box_B →
  (∀ c nc, c ∈ rest → load s c = Some nc →
     check_bounding_box 0 box_A (bounds nc) = false) →
  no_overlap_ahead 0 s (b :: rest) →
  (Z.to_nat MAX_PAINT_QUADRANTS + length (concat Bs) < fuel)%nat →
  check_bounding_box 0 box_A box_B = false
  ∧ ∃ s', paint_session_arrange 0 fuel s = Some s'
      ∧ chain s' (next_quadrant_ps (PaintHead s')) (a :: b :: rest).
Proof.
  intros Hok HB HF H5 H6 Hla Hba Hlb Hbb Hrest Hahead Hfuel.
  split; [reflexivity|].
  assert (Hocc : concat (occupied s Bs) = a :: b :: rest).
  { unfold occupied. rewrite HB, HF.
    change (Z.to_nat (6 - 5 + 1)) with 2%nat. change (Z.to_nat 5) with 5%nat.
    rewrite (drop_S _ _ _ H5), (drop_S _ _ _ H6). simpl. by rewrite app_nil_r. }
  rewrite <-Hocc. apply arrange_ahead_spec; [done|done|].
  rewrite Hocc. change (get_current_rotation 0) with 0.
  intros L1 x L2 y nx ny HL Hy Hlx Hly.
  destruct L1 as [|z L1]; simpl in HL; injection HL as <- HL.
  - subst L2. rewrite Hla in Hlx. injection Hlx as <-. rewrite Hba.
    apply elem_of_cons in Hy as [->|Hy].
    + rewrite Hlb in Hly. injection Hly as <-. by rewrite Hbb.
    + by eapply Hrest.
  - by eapply Hahead.
Qed.

Lemma nested_ok : session_ok nested_session nested_buckets.
Proof. apply session_pre_ok; [apply nested_pre|]. by vm_compute. Qed.

Lemma nested_unrelated :
  (∀ c nc, c ∈ [PaintStructs_ptr 2] → load nested_session c = Some nc →
     check_bounding_box 0 box_A (bounds nc) = false)
  ∧ no_overlap_ahead 0 nested_session [PaintStructs_ptr 1; PaintStructs_ptr 2].
Proof.
  split.
  - intros c nc ->%list_elem_of_singleton [= <-]. reflexivity.
  - intros L1 x L2 y nx ny HL Hy Hlx Hly.
    destruct L1 as [|z1 [|z2 [|z3 L1]]]; simpl in HL; simplify_eq.
    + apply list_elem_of_singleton in Hy as ->.
      injection Hlx as <-. injection Hly as <-. reflexivity.
    + by apply elem_of_nil in Hy.
Qed.

Lemma nested_scenario_order_witness :
  session_ok nested_session nested_buckets
  ∧ QuadrantBackIndex nested_session = 5 ∧ QuadrantFrontIndex nested_session = 6
  ∧ nested_buckets !! 5%nat = Some [PaintStructs_ptr 0]
  ∧ nested_buckets !! 6%nat = Some (PaintStructs_ptr 1 :: [PaintStructs_ptr 2])
  ∧ load nested_session (PaintStructs_ptr 0) = Some (primitive box_A 5 None)
  ∧ bounds (primitive box_A 5 None) = box_A
  ∧ load nested_session (PaintStructs_ptr 1)
    = Some (primitive box_B 6 (Some (PaintStructs_ptr 2)))
  ∧ bounds (primitive box_B 6 (Some (PaintStructs_ptr 2))) = box_B
  ∧ (∀ c nc, c ∈ [PaintStructs_ptr 2] → load nested_session c = Some nc →
       check_bounding_box 0 box_A (bounds nc) = false)
  ∧ no_overlap_ahead 0 nested_session [PaintStructs_ptr 1; PaintStructs_ptr 2]
  ∧ (Z.to_nat MAX_PAINT_QUADRANTS + length (concat nested_buckets) < 516)%nat
  ∧ check_bounding_box 0 box_A box_B = false
  ∧ ∃ s', paint_session_arrange 0 516 nested_session = Some s'
      ∧ chain s' (next_quadrant_ps (PaintHead s'))
          (PaintStructs_ptr 0 :: PaintStructs_ptr 1 :: [PaintStructs_ptr 2]).
Proof.
  assert (HB : QuadrantBackIndex nested_session = 5) by reflexivity.
  assert (HF : QuadrantFrontIndex nested_session = 6) by reflexivity.
  assert (H5 : nested_buckets !! 5%nat = Some [PaintStructs_ptr 0]) by reflexivity.
  assert (H6 : nested_buckets !! 6%nat
               = Some (PaintStructs_ptr 1 :: [PaintStructs_ptr 2])) by reflexivity.
  assert (Hla : load nested_session (PaintStructs_ptr 0)
                = Some (primitive box_A 5 None)) by reflexivity.
  assert (Hba : bounds (primitive box_A 5 None) = box_A) by reflexivity.
  assert (Hlb : load nested_session (PaintStructs_ptr 1)
                = Some (primitive box_B 6 (Some (PaintStructs_ptr 2)))) by reflexivity.
  assert (Hbb : bounds (primitive box_B 6 (Some (PaintStructs_ptr 2))) = box_B)
    by reflexivity.
  assert (Hf : (Z.to_nat MAX_PAINT_QUADRANTS + length (concat nested_buckets) < 516)%nat).
  { vm_compute. lia. }
  split; [exact nested_ok|]. split; [exact HB|]. split; [exact HF|].
  split; [exact H5|]. split; [exact H6|]. split; [exact Hla|]. split; [exact Hba|].
  split; [exact Hlb|]. split; [exact Hbb|].
  split; [exact (proj1 nested_unrelated)|]. split; [exact (proj2 nested_unrelated)|].
  split; [exact Hf|].
  exact (nested_scenario_order 516 nested_session nested_buckets _ _ _ _ _
           nested_ok HB HF H5 H6 Hla Hba Hlb Hbb
           (proj1 nested_unrelated) (proj2 nested_unrelated) Hf).
Defined.

(** ** Loading session data *)

Lemma fixup_session_inv pe qe r s :
  fixup_session pe qe r = Some s →
  pe = length (raw_PaintStructs r) ∧ qe = length (raw_Quadrants r)
  ∧ PaintStructs s = (λ e, basic (fixup_struct pe e)) <$> raw_PaintStructs r
  ∧ Quadrants s = fixup_link qe <$> raw_Quadrants r
  ∧ PaintHead s = raw_PaintHead r
  ∧ QuadrantBackIndex s = raw_QuadrantBackIndex r
  ∧ QuadrantFrontIndex s = raw_QuadrantFrontIndex r.
Proof.
  unfold fixup_session. case_decide as Hd; [|done]. intros [= <-].
  destruct Hd. done.
Qed.

Lemma fixup_session_sized r :
  raw_sized r → is_Some (fixup_session PAINT_STRUCTS_SIZE (Z.to_nat MAX_PAINT_QUADRANTS) r).
Proof.
  intros [H1 H2]. unfold fixup_session. rewrite decide_True; [eauto|].
  by rewrite H1, H2.
Qed.

(** A list linked by slot numbers becomes a chain through the same slots. *)
Lemma fixup_chain pe qe r s :
  fixup_session pe qe r = Some s →
  ∀ l null w, raw_chain (raw_PaintStructs r) pe null w l →
    chain s (fixup_link null w) (slots l).
Proof.
  intros (_&_&HP&_)%fixup_session_inv. induction l as [|j l IH]; intros null w.
  - simpl. intros ->. unfold chain, fixup_link. simpl. by rewrite Z.eqb_refl.
  - intros (Hw&->&e&He&Hc). unfold chain. simpl. split.
    + unfold fixup_link. by destruct (Z.eqb_spec w (Z.of_nat null)).
    + exists (fixup_struct pe e). split.
      * rewrite HP, list_lookup_fmap, He. done.
      * apply (IH pe _ Hc).
Qed.

(** [fixup_pointers] turns a bucket's list of slot numbers into a
    null-terminated chain through the same slots in the same order. *)
Theorem fixup_pointers_bucket (ss : list raw_paint_session) (n pe qe : nat)
    (fixed : list paint_session) (i : nat) (r : raw_paint_session)
    (b : nat) (w : Z) (l : list nat) :
  fixup_pointers ss n pe qe = Some fixed →
  ss !! i = Some r → raw_Quadrants r !! b = Some w →
  raw_chain (raw_PaintStructs r) pe qe w l →
  ∃ s p, fixed !! i = Some s ∧ Quadrants s !! b = Some p
    ∧ chain s p (slots l).
Proof.
  unfold fixup_pointers. case_decide; [|done].
  intros HF%mapM_Some_1 Hr Hw Hc.
  destruct (Forall2_lookup_l _ _ _ _ _ HF Hr) as (s&Hs&Hfix).
  exists s, (fixup_link qe w). split; [done|]. split.
  - apply fixup_session_inv in Hfix as (_&_&_&HQ&_).
    by rewrite HQ, list_lookup_fmap, Hw.
  - by eapply fixup_chain.
Qed.

Lemma raw_nested_fixup :
  fixup_pointers [raw_nested] 1 PAINT_STRUCTS_SIZE (Z.to_nat MAX_PAINT_QUADRANTS)
  = Some [nested_loaded].
Proof. vm_compute. reflexivity. Qed.

Lemma raw_nested_bucket_6 :
  raw_chain (raw_PaintStructs raw_nested) PAINT_STRUCTS_SIZE
    (Z.to_nat MAX_PAINT_QUADRANTS) 1 [1; 2]%nat.
Proof.
  split; [by vm_compute|]. split; [reflexivity|]. eexists. split; [reflexivity|].
  split; [by vm_compute|]. split; [reflexivity|]. eexists. split; [reflexivity|].
  reflexivity.
Qed.

Lemma fixup_pointers_bucket_witness :
  fixup_pointers [raw_nested] 1 PAINT_STRUCTS_SIZE (Z.to_nat MAX_PAINT_QUADRANTS)
    = Some [nested_loaded]
  ∧ [raw_nested] !! 0%nat = Some raw_nested
  ∧ raw_Quadrants raw_nested !! 6%nat = Some 1
  ∧ raw_chain (raw_PaintStructs raw_nested) PAINT_STRUCTS_SIZE
      (Z.to_nat MAX_PAINT_QUADRANTS) 1 [1; 2]%nat
  ∧ ∃ s p, [nested_loaded] !! 0%nat = Some s ∧ Quadrants s !! 6%nat = Some p
      ∧ chain s p (slots [1; 2]%nat).
Proof.
  assert (H2 : [raw_nested] !! 0%nat = Some raw_nested) by reflexivity.
  assert (H3 : raw_Quadrants raw_nested !! 6%nat = Some 1) by reflexivity.
  split; [exact raw_nested_fixup|]. split; [exact H2|]. split; [exact H3|].
  split; [exact raw_nested_bucket_6|].
  exact (fixup_pointers_bucket _ _ _ _ _ _ _ _ _ _ raw_nested_fixup H2 H3
           raw_nested_bucket_6).
Defined.

(** ** One benchmark iteration *)

Lemma concat_fmap_slots (Ls : list (list nat)) :
  concat (slots <$> Ls) = slots (concat Ls).
Proof.
  induction Ls as [|l Ls IH]; [done|].
  change (concat (slots <$> l :: Ls)) with (slots l ++ concat (slots <$> Ls)).
  rewrite IH. unfold slots. simpl. by rewrite fmap_app.
Qed.

#[local] Instance PaintStructs_ptr_inj : Inj (=) (=) PaintStructs_ptr.
Proof. by intros j k [= ->]. Qed.

(** Well-formed session data load into a session that meets the
    preconditions of [paint_session_arrange]. *)
Lemma raw_session_pre_fixup r Bs s :
  raw_session_pre r Bs →
  fixup_session PAINT_STRUCTS_SIZE (Z.to_nat MAX_PAINT_QUADRANTS) r = Some s →
  session_pre s (slots <$> Bs).
Proof.
  intros [[Hp Hq] Hr Hb Hnd Hun] Hfix.
  pose proof (fixup_session_inv _ _ _ _ Hfix) as (_&_&HP&HQ&HH&HB&HF).
  split.
  - by rewrite HQ, length_fmap.
  - by rewrite HB, HF.
  - rewrite HQ. apply Forall2_fmap. eapply Forall2_impl; [exact Hb|].
    intros w l Hc. by eapply fixup_chain.
  - rewrite concat_fmap_slots. apply NoDup_cons. split.
    + unfold slots. by intros (?&?&_)%list_elem_of_fmap.
    + unfold slots. by apply NoDup_fmap_2; [apply _|].
  - intros j B Hj HB'. rewrite list_lookup_fmap in Hj.
    destruct (Bs !! j) as [B0|] eqn:E; simplify_eq/=.
    rewrite HB, HF. apply (Hun j B0 E). by intros ->.
Qed.

(** One benchmark iteration on well-formed session data completes, and the
    chain it leaves in the first session holds exactly the slots of that
    session's buckets, each once. *)
Theorem benchmark_iteration_conserves (fuel : nat) (r : raw_paint_session)
    (rest : list raw_paint_session) (Bs : list (list nat)) :
  raw_session_pre r Bs → Forall raw_sized rest →
  (Z.to_nat MAX_PAINT_QUADRANTS + length (concat Bs) < fuel)%nat →
  ∃ s' l', BM_paint_session_arrange_iteration fuel (r :: rest) = Some s'
    ∧ chain s' (next_quadrant_ps (PaintHead s')) l'
    ∧ l' ≡ₚ slots (concat Bs).
Proof.
  intros Hpre Hrest Hfuel.
  destruct (fixup_session_sized r (raw_pre_sized _ _ Hpre)) as [s Hs].
  assert (Hss : is_Some (mapM (fixup_session PAINT_STRUCTS_SIZE
                                 (Z.to_nat MAX_PAINT_QUADRANTS)) rest)).
  { apply mapM_is_Some_2. eapply Forall_impl; [exact Hrest|].
    intros x Hx. by apply fixup_session_sized. }
  destruct Hss as [ss Hss].
  assert (Hfix : fixup_pointers (r :: rest) (length (r :: rest)) PAINT_STRUCTS_SIZE
                   (Z.to_nat MAX_PAINT_QUADRANTS) = Some (s :: ss)).
  { unfold fixup_pointers. rewrite decide_True by done.
    apply mapM_Some_2. constructor; [done|]. by apply mapM_Some_1. }
  pose proof (raw_session_pre_fixup r Bs s Hpre Hs) as Hpre'.
  destruct (arrange_pre_spec gCurrentRotation_initial fuel s _ Hpre')
    as (s'&l'&Hrun&Hc&Hl'&_).
  { rewrite concat_fmap_slots. unfold slots. by rewrite length_fmap. }
  exists s', l'. split; [|split; [done|by rewrite Hl', concat_fmap_slots]].
  unfold BM_paint_session_arrange_iteration. rewrite Hfix. simpl. exact Hrun.
Qed.

Lemma raw_nested_pre : raw_session_pre raw_nested raw_nested_buckets.
Proof.
  split.
  - split; reflexivity.
  - right. simpl. unfold MAX_PAINT_QUADRANTS. lia.
  - change (raw_Quadrants raw_nested)
      with (<[6%nat := 1]> (<[5%nat := 0]> (replicate 512 512))).
    unfold raw_nested_buckets.
    apply Forall2_insert; [apply Forall2_insert|].
    + apply Forall2_replicate. reflexivity.
    + split; [by vm_compute|]. split; [reflexivity|]. eexists.
      split; reflexivity.
    + exact raw_nested_bucket_6.
  - apply (bool_decide_unpack _). vm_compute. exact I.
  - intros j B Hj HB. unfold raw_nested_buckets in Hj. simpl.
    apply list_lookup_insert_Some in Hj as [(<-&_&_)|[_ Hj]]; [lia|].
    apply list_lookup_insert_Some in Hj as [(<-&_&_)|[_ Hj]]; [lia|].
    by apply lookup_replicate in Hj as [-> _].
Qed.

Lemma benchmark_iteration_conserves_witness :
  raw_session_pre raw_nested raw_nested_buckets
  ∧ Forall raw_sized []
  ∧ (Z.to_nat MAX_PAINT_QUADRANTS + length (concat raw_nested_buckets) < 516)%nat
  ∧ ∃ s' l', BM_paint_session_arrange_iteration 516 [raw_nested] = Some s'
      ∧ chain s' (next_quadrant_ps (PaintHead s')) l'
      ∧ l' ≡ₚ slots (concat raw_nested_buckets).
Proof.
  assert (H2 : Forall raw_sized []) by constructor.
  assert (H3 : (Z.to_nat MAX_PAINT_QUADRANTS
                + length (concat raw_nested_buckets) < 516)%nat).
  { vm_compute. lia. }
  split; [exact raw_nested_pre|]. split; [exact H2|]. split; [exact H3|].
  exact (benchmark_iteration_conserves 516 raw_nested [] raw_nested_buckets
           raw_nested_pre H2 H3).
Defined.

(** ** A highest index below the lowest *)

Lemma arrange_merge_unfold n fuel s ps q :
  arrange_merge n (S fuel) s ps q =
  ps_next ← Quadrants s !! Z.to_nat q;
  '(ps', s') ←
    match ps_next with
    | None => Some (ps, s)
    | Some head => s1 ← set_next s ps ps_next; tl ← walk_to_tail n s1 head; Some (tl, s1)
    end;
  if to_uint32 (q + 1) <=? QuadrantFrontIndex s'
  then arrange_merge n fuel s' ps' (to_uint32 (q + 1))
  else Some (ps', s').
Proof. reflexivity. Qed.

Lemma arrange_reorder_unfold n fuel s c q rotation :
  arrange_reorder n (S fuel) s c q rotation =
  if to_uint32 (q + 1) <? QuadrantFrontIndex s
  then
    '(c', s') ←
      paint_arrange_structs_helper n s c (Z.land (to_uint32 (q + 1)) 65535) 0 rotation;
    arrange_reorder n fuel s' c' (to_uint32 (q + 1)) rotation
  else Some s.
Proof. reflexivity. Qed.

(** The merge loop tests its bound after the body: when the highest bucket
    index lies below the lowest, the run still arranges the lowest bucket,
    and only that one; the output chain is a permutation of its list. *)
Theorem arrange_inverted_range (g : Z) (fuel : nat) (s : paint_session)
    (qk : option paint_struct_ptr) (B : list paint_struct_ptr) :
  0 <= QuadrantBackIndex s < UINT32_MAX →
  QuadrantFrontIndex s < QuadrantBackIndex s →
  Quadrants s !! Z.to_nat (QuadrantBackIndex s) = Some qk →
  chain s qk B → PaintHead_ptr ∉ B → (length B < fuel)%nat →
  ∃ s' l', paint_session_arrange g fuel s = Some s'
    ∧ chain s' (next_quadrant_ps (PaintHead s')) l'
    ∧ l' ≡ₚ B.
Proof.
  intros Hb Hinv Hqk HB Hhead Hfuel.
  destruct (set_next_Some s PaintHead_ptr None (PaintHead s) eq_refl) as [s0 Hs0].
  pose proof Hs0 as Hs0'. apply set_next_spec in Hs0' as (?&?&Hl0&Hfr0). simplify_eq.
  destruct Hfr0 as (HQ0&HB0&HF0&Hrest0).
  assert (HB0' : chain s0 qk B).
  { eapply lseg_ext; [|exact HB]. intros a Ha. unfold next_of.
    rewrite Hl0, decide_False; [done|]. by intros ->. }
  assert (Hc0 : chain s0 (Some PaintHead_ptr) ([] ++ [PaintHead_ptr])).
  { split; [done|]. eexists. split; [by rewrite Hl0, decide_True|]. done. }
  destruct (merge_step fuel (Some PaintHead_ptr) s0 [] PaintHead_ptr qk B Hc0 HB0')
    as (s1&ps1&acc1&Hs1&_&Hc1&Hfr1&_); [|done|].
  { simpl. apply NoDup_cons. split; [done|]. by eapply chain_NoDup. }
  destruct Hfr1 as (HQ1&HB1&HF1&Hrest1).
  pose proof (get_current_rotation_range g) as Hrot.
  destruct (helper_spec (get_current_rotation g) (Z.land (QuadrantBackIndex s1) 65535)
              PAINT_QUADRANT_FLAG_NEXT fuel s1 (Some PaintHead_ptr) [] PaintHead_ptr B
              Hrot Hc1 Hfuel)
    as (s2&a&M&W&W'&Sf&Hr&HM&Hc2&HW&Hfr2&_).
  destruct Hfr2 as (HQ2&HB2&HF2&Hrest2).
  destruct fuel as [|fuel]; [lia|].
  assert (Hrun : paint_session_arrange g (S fuel) s = Some s2).
  { rewrite arrange_unfold. unfold paint_session_arrange_merge.
    rewrite Hs0. cbn [mbind option_bind]. rewrite HB0.
    destruct (Z.eqb_spec (QuadrantBackIndex s) UINT32_MAX) as [E|_]; [lia|].
    rewrite arrange_merge_unfold, HQ0, Hqk. cbn [mbind option_bind].
    rewrite Hs1. cbn [mbind option_bind]. rewrite HF1, HF0.
    rewrite to_uint32_small by lia.
    destruct (Z.leb_spec (QuadrantBackIndex s + 1) (QuadrantFrontIndex s)); [lia|].
    cbn [mbind option_bind]. rewrite Hr. cbn [mbind option_bind].
    rewrite arrange_reorder_unfold, HB2, HB1, HB0, HF2, HF1, HF0.
    rewrite to_uint32_small by lia.
    by destruct (Z.ltb_spec (QuadrantBackIndex s + 1) (QuadrantFrontIndex s)); [lia|]. }
  simpl in Hc2.
  destruct M as [|m0 M]; simpl in HM; injection HM as <- HM.
  - exists s2, (W' ++ Sf). split; [done|]. split.
    + apply chain_cons_inv in Hc2 as (n&Hn&Hc2). simpl in Hn. by injection Hn as <-.
    + by rewrite HM, HW.
  - exists s2, (M ++ a :: W' ++ Sf). split; [done|]. split.
    + simpl in Hc2. apply chain_cons_inv in Hc2 as (n&Hn&Hc2).
      simpl in Hn. by injection Hn as <-.
    + by rewrite HM, HW.
Qed.

Lemma arrange_inverted_range_witness :
  0 <= QuadrantBackIndex inverted_session < UINT32_MAX
  ∧ QuadrantFrontIndex inverted_session < QuadrantBackIndex inverted_session
  ∧ Quadrants inverted_session !! Z.to_nat (QuadrantBackIndex inverted_session)
    = Some (Some (PaintStructs_ptr 2))
  ∧ chain inverted_session (Some (PaintStructs_ptr 2)) [PaintStructs_ptr 2]
  ∧ (PaintHead_ptr ∉ [PaintStructs_ptr 2])
  ∧ (length [PaintStructs_ptr 2] < 2)%nat
  ∧ ∃ s' l', paint_session_arrange 0 2 inverted_session = Some s'
      ∧ chain s' (next_quadrant_ps (PaintHead s')) l'
      ∧ l' ≡ₚ [PaintStructs_ptr 2].
Proof.
  assert (H1 : 0 <= QuadrantBackIndex inverted_session < UINT32_MAX) by (by vm_compute).
  assert (H2 : QuadrantFrontIndex inverted_session < QuadrantBackIndex inverted_session)
    by (by vm_compute).
  assert (H3 : Quadrants inverted_session !! Z.to_nat (QuadrantBackIndex inverted_session)
               = Some (Some (PaintStructs_ptr 2))) by reflexivity.
  assert (H4 : chain inverted_session (Some (PaintStructs_ptr 2)) [PaintStructs_ptr 2])
    by solve_chain.
  assert (H5 : PaintHead_ptr ∉ [PaintStructs_ptr 2]).
  { intros [H|H%elem_of_nil]%elem_of_cons; [discriminate H|done]. }
  assert (H6 : (length [PaintStructs_ptr 2] < 2)%nat) by (simpl; lia).
  split; [exact H1|]. split; [exact H2|]. split; [exact H3|]. split; [exact H4|].
  split; [exact H5|]. split; [exact H6|].
  exact (arrange_inverted_range 0 2 inverted_session _ _ H1 H2 H3 H4 H5 H6).
Defined.

(** ** Only marked nodes move *)

Lemma has_flag_next_testbit f :
  has_flag f PAINT_QUADRANT_FLAG_NEXT = Z.testbit f 1.
Proof.
  unfold has_flag. change PAINT_QUADRANT_FLAG_NEXT with (2 ^ 1).
  destruct (Z.testbit f 1) eqn:Hb.
  - destruct (Z.eqb_spec (Z.land f (2 ^ 1)) 0) as [E|_]; [|done].
    apply (f_equal (λ v, Z.testbit v 1)) in E.
    rewrite Z.land_spec, Hb, Z.pow2_bits_true, Z.bits_0 in E by lia. done.
  - replace (Z.land f (2 ^ 1)) with 0; [done|].
    symmetry. apply Z.bits_inj'. intros k Hk. rewrite Z.land_spec, Z.bits_0.
    destruct (decide (k = 1)) as [->|Hne].
    + by rewrite Hb.
    + rewrite Z.pow2_bits_false by lia. by rewrite andb_false_r.
Qed.

Lemma cleared_flag_next f :
  has_flag (to_uint8 (Z.land f (Z.lnot PAINT_QUADRANT_FLAG_IDENTICAL)))
    PAINT_QUADRANT_FLAG_NEXT
  = has_flag f PAINT_QUADRANT_FLAG_NEXT.
Proof.
  rewrite !has_flag_next_testbit. unfold to_uint8. change 256 with (2 ^ 8).
  rewrite Z.mod_pow2_bits_low by lia. rewrite Z.land_spec.
  change (Z.testbit (Z.lnot PAINT_QUADRANT_FLAG_IDENTICAL) 1) with true.
  by rewrite andb_true_r.
Qed.

Lemma clear_identical_carries_next s pn s' :
  clear_identical s pn = Some s' → ∀ p, carries_next s' p = carries_next s p.
Proof.
  unfold clear_identical. destruct (load s pn) as [n|] eqn:Hn; simpl; [|done].
  intros (m&Hm&Hl&_)%set_flags_spec p. simplify_eq.
  unfold carries_next, flags_of. rewrite Hl. case_decide as Hd; [|done].
  subst p. rewrite Hn. simpl. apply cleared_flag_next.
Qed.

Lemma carries_next_ext s s' p :
  flags_of s' p = flags_of s p → carries_next s' p = carries_next s p.
Proof. unfold carries_next. by intros ->. Qed.

Section Stable.

Variable rot : Z.
Variable p0 : option paint_struct_ptr.
Variable moved : paint_struct_ptr → bool.

(** The scan loop only moves nodes that carry the NEXT marker: the nodes
    that are not to move, none of which carries it, stay in their order. *)
Lemma helper_scan_stable S pivot t fuel R1 B A u s :
  chain s p0 (A ++ t :: B ++ u :: R1 ++ S) → far_flagged s S →
  is_Some (load s pivot) → (length R1 < fuel)%nat →
  (∀ w, w ∈ R1 → moved w = false → carries_next s w = false) →
  ∃ s' M, helper_scan rot fuel s t pivot u = Some s'
    ∧ chain s' p0 (A ++ t :: M ++ S) ∧ M ≡ₚ B ++ u :: R1
    ∧ filter (λ w, moved w = false) M = filter (λ w, moved w = false) (B ++ u :: R1)
    ∧ session_frame s s'
    ∧ (∀ p, flags_of s' p = flags_of s p).
Proof.
  revert fuel B u s.
  induction R1 as [|v R1 IH]; intros [|fuel] B u s Hc HS Hpiv Hf Hk; simpl in Hf; try lia.
  - exists s, (B ++ [u]). splits; try done.
    + assert (Hc' : chain s p0 ((A ++ t :: B) ++ u :: S)) by (by rewrite <-app_assoc).
      apply chain_mid in Hc' as (n&Hn&Hc'). simpl. rewrite Hn. simpl.
      destruct S as [|c S].
      * red in Hc'. simpl in Hc'. by rewrite Hc'.
      * pose proof (lseg_cons_next _ _ _ _ _ Hc') as Hnx. rewrite Hnx.
        destruct HS as (f&Hm&Hb). unfold flags_of in Hm.
        destruct (load s c) as [m|]; simplify_eq/=. by rewrite Hb.
    + by rewrite <-app_assoc.
  - assert (Hc' : chain s p0 ((A ++ t :: B) ++ u :: v :: R1 ++ S)).
    { by rewrite <-app_assoc. }
    apply chain_mid in Hc' as (n&Hn&Hc').
    pose proof (lseg_cons_next _ _ _ _ _ Hc') as Hnx. rewrite Hnx in Hc'.
    apply chain_cons_inv in Hc' as (n'&Hn'&_).
    simpl. rewrite Hn. simpl. rewrite Hnx, Hn'. simpl.
    assert (Hk' : ∀ w, w ∈ R1 → moved w = false → carries_next s w = false).
    { intros w Hw. apply Hk. by right. }
    assert (Hskip : ∃ s' M, helper_scan rot fuel s t pivot v = Some s'
      ∧ chain s' p0 (A ++ t :: M ++ S) ∧ M ≡ₚ B ++ u :: v :: R1
      ∧ filter (λ w, moved w = false) M
        = filter (λ w, moved w = false) (B ++ u :: v :: R1)
      ∧ session_frame s s'
      ∧ (∀ p, flags_of s' p = flags_of s p)).
    { destruct (IH fuel (B ++ [u]) v s) as (s'&M&Hr&Hc2&HM&HMk&Hfr&Hfl); try done.
      - by rewrite <-app_assoc.
      - lia.
      - exists s', M. splits; try done.
        + by rewrite HM, <-app_assoc.
        + by rewrite HMk, <-app_assoc. }
    destruct (has_flag (quadrant_flags n') PAINT_QUADRANT_FLAG_BIGGER) eqn:Hb.
    { exists s, (B ++ u :: v :: R1). splits; try done. by rewrite <-app_assoc. }
    destruct (has_flag (quadrant_flags n') PAINT_QUADRANT_FLAG_NEXT) eqn:Hnext;
      simpl; [|done].
    destruct Hpiv as [i Hi]. rewrite Hi. simpl.
    destruct (check_bounding_box rot (bounds i) (bounds n')); [|done].
    destruct (splice_spec s p0 A t B u v (R1 ++ S) Hc) as (s1&Hs1&Hc1&Hfr1&Hfl1&Hl1).
    rewrite Hs1. simpl.
    assert (Hv : moved v ≠ false).
    { intros Hkv. specialize (Hk v ltac:(left) Hkv).
      unfold carries_next, flags_of in Hk. rewrite Hn' in Hk. simpl in Hk. congruence. }
    destruct (IH fuel (v :: B) u s1) as (s'&M&Hr&Hc2&HM&HMk&Hfr&Hfl); try done.
    + by eapply far_flagged_ext.
    + destruct (load_frame _ _ _ _ Hfr1 Hi) as (?&->&_). eauto.
    + lia.
    + intros w Hw Hkw. rewrite (carries_next_ext s s1) by apply Hfl1. by apply Hk'.
    + exists s', M. splits; try done.
      * rewrite HM. simpl. rewrite <-!Permutation_middle. apply perm_swap.
      * rewrite HMk. simpl. rewrite filter_cons_False by done.
        rewrite !filter_app, !filter_cons. rewrite (decide_False (P:=moved v = false)) by done.
        done.
      * by etransitivity.
      * intros p. by rewrite Hfl, Hfl1.
Qed.

(** The outer loop: every round keeps the order of the nodes without the
    NEXT marker. *)
Lemma helper_outer_stable S c n fuel : ∀ s P ps W,
  chain s p0 (P ++ ps :: W ++ S) → far_flagged s S →
  (pending s W < fuel)%nat → (length W < n)%nat →
  (∀ w, w ∈ W → moved w = false → carries_next s w = false) →
  ∃ s' W', helper_outer rot n fuel s ps c = Some (c, s')
    ∧ chain s' p0 (P ++ ps :: W' ++ S) ∧ W' ≡ₚ W
    ∧ filter (λ w, moved w = false) W' = filter (λ w, moved w = false) W.
Proof.
  induction fuel as [|fuel IH]; intros s P ps W Hc HS Hpend Hlen Hk; [lia|].
  pose proof (chain_NoDup _ _ _ Hc) as Hnd.
  destruct (chain_suffix _ _ _ _ Hc) as (m&HcP&Hcs).
  pose proof (lseg_cons_next _ _ _ _ _ Hcs) as ->.
  destruct (helper_find_spec s S n W ps Hcs HS Hlen)
    as [Hr|(M&ps'&pn&R&npn&HM&Hr&Hnpn&Hid)]; simpl; rewrite Hr; simpl.
  { exists s, W. splits; done. }
  destruct (clear_identical_spec s pn npn Hnpn) as (s1&Hs1&Hfr1&Hnx1&Hl1&Hid1).
  rewrite Hs1. simpl.
  assert (Hlist : P ++ ps :: W ++ S = (P ++ M) ++ ps' :: [] ++ pn :: R ++ S).
  { change (ps :: W ++ S) with ((ps :: W) ++ S). rewrite HM.
    rewrite <-!app_assoc. simpl. done. }
  assert (HpnS : ∀ b, b ∈ S → b ≠ pn).
  { intros b Hb ->. rewrite Hlist in Hnd. apply NoDup_app in Hnd as (_&_&Hnd).
    apply NoDup_cons in Hnd as (_&Hnd). simpl in Hnd.
    apply NoDup_cons in Hnd as (Hnd&_). apply Hnd. apply elem_of_app. by right. }
  assert (Hc1 : chain s1 p0 ((P ++ M) ++ ps' :: [] ++ pn :: R ++ S)).
  { rewrite <-Hlist. eapply lseg_ext; [|exact Hc]. intros; apply Hnx1. }
  assert (HS1 : far_flagged s1 S).
  { destruct S as [|b S]; [done|]. simpl in *. unfold flags_of in *.
    rewrite Hl1; [done|]. apply HpnS. left. }
  assert (HlenR : (length R < n)%nat).
  { apply (f_equal length) in HM. simpl in HM. rewrite length_app in HM. simpl in HM. lia. }
  assert (HW1 : ∃ W1, W = W1 ++ pn :: R).
  { destruct M as [|m0 M]; simpl in HM; injection HM as -> ->.
    - by exists [].
    - exists (M ++ [ps']). by rewrite <-app_assoc. }
  destruct HW1 as (W1&HW1).
  assert (Hk1 : ∀ w, w ∈ pn :: R → moved w = false → carries_next s1 w = false).
  { intros w Hw Hkw. rewrite (clear_identical_carries_next _ _ _ Hs1).
    apply Hk; [|done]. rewrite HW1. apply elem_of_app. by right. }
  destruct (helper_scan_stable S pn ps' n R [] (P ++ M) pn s1 Hc1 HS1)
    as (s2&M2&Hs2&Hc2&HM2&HMk2&Hfr2&Hfl2); [|done| |].
  { destruct (load_frame _ _ _ _ Hfr1 Hnpn) as (?&->&_). eauto. }
  { intros w Hw. apply Hk1. by right. }
  rewrite Hs2. simpl. simpl in HM2, HMk2.
  assert (Hpend2 : (pending s2 M2 < fuel)%nat).
  { rewrite (pending_ext s1 s2) by (intros; apply Hfl2).
    rewrite (pending_perm _ _ _ HM2). simpl. rewrite Hid1. simpl.
    rewrite (pending_ext s s1).
    2:{ intros p Hp. unfold flags_of. rewrite Hl1; [done|]. intros ->.
        rewrite Hlist in Hnd. apply NoDup_app in Hnd as (_&_&Hnd).
        apply NoDup_cons in Hnd as (_&Hnd). simpl in Hnd.
        apply NoDup_cons in Hnd as (Hnd&_). apply Hnd. apply elem_of_app. by left. }
    assert (identicalb s pn = true) as Hidb.
    { unfold identicalb, flags_of. rewrite Hnpn. simpl. done. }
    rewrite HW1, pending_app in Hpend. simpl in Hpend. rewrite Hidb in Hpend. lia. }
  assert (Hlen2 : (length M2 < n)%nat).
  { rewrite (Permutation_length HM2). simpl.
    apply (f_equal length) in HM. simpl in HM. rewrite length_app in HM. simpl in HM. lia. }
  assert (Hk2 : ∀ w, w ∈ M2 → moved w = false → carries_next s2 w = false).
  { intros w Hw Hkw. rewrite (carries_next_ext s1 s2) by apply Hfl2.
    apply Hk1; [|done]. by rewrite <-HM2. }
  destruct (IH s2 (P ++ M) ps' M2 Hc2 (far_flagged_ext _ _ _ Hfl2 HS1) Hpend2 Hlen2 Hk2)
    as (s'&W2&Hr'&Hc'&HW2&HWk2).
  rewrite Hr'.
  destruct M as [|m0 M].
  - simpl in HM. injection HM as -> ->.
    exists s', W2. split; [done|]. splits.
    + by rewrite app_nil_r in Hc'.
    + by rewrite HW2, HM2.
    + by rewrite HWk2, HMk2.
  - simpl in HM. injection HM as -> ->.
    exists s', (M ++ ps' :: W2). split; [done|]. splits.
    + rewrite <-app_assoc in Hc'. simpl in Hc'. by rewrite <-app_assoc.
    + by rewrite HW2, HM2.
    + rewrite !filter_app, !(filter_cons _ ps'), HWk2, HMk2. done.
Qed.

End Stable.

Lemma mark_one_next s b n q flag s' :
  load s b = Some n → mark_one s b n q flag = Some s' →
  carries_next s' b = marked_next s q flag b.
Proof.
  intros Hn. unfold mark_one, marked_next. rewrite Hn.
  assert (Hset : ∀ v, set_flags s b v = Some s' →
            carries_next s' b = has_flag v PAINT_QUADRANT_FLAG_NEXT).
  { intros v (m&Hm&Hl&_)%set_flags_spec. unfold carries_next, flags_of.
    rewrite Hl, decide_True by done. done. }
  destruct (quadrant_index n >? q + 1); [apply Hset|].
  destruct (quadrant_index n =? q + 1); [apply Hset|].
  destruct (quadrant_index n =? q); [apply Hset|].
  intros [= <-]. unfold carries_next, flags_of. by rewrite Hn.
Qed.

Lemma carries_next_load s s' p :
  load s' p = load s p → carries_next s' p = carries_next s p.
Proof. unfold carries_next, flags_of. by intros ->. Qed.

Lemma marked_next_load s s' q flag p :
  load s' p = load s p → marked_next s' q flag p = marked_next s q flag p.
Proof. unfold marked_next. by intros ->. Qed.

(** The marking loop gives every node of the window the marker that
    [marked_next] computes. *)
Lemma helper_mark_next q flag fuel R a s :
  chain s (Some a) (a :: R) → (length R < fuel)%nat →
  ∃ s' W S, helper_mark fuel s a q flag = Some s' ∧ R = W ++ S
    ∧ (∀ p, next_of s' p = next_of s p)
    ∧ (∀ p, p ∉ R → load s' p = load s p)
    ∧ far_flagged s' S
    ∧ (∀ w, w ∈ W → carries_next s' w = marked_next s q flag w).
Proof.
  revert fuel a s. induction R as [|b R IH]; intros [|fuel] a s Hc Hf; simpl in Hf; try lia.
  - apply chain_cons_inv in Hc as (n&Hn&Hc). red in Hc. simpl in Hc.
    exists s, [], []. simpl. rewrite Hn. simpl. rewrite Hc.
    splits; try done. intros w Hw. by apply elem_of_nil in Hw.
  - pose proof (chain_NoDup _ _ _ Hc) as Hnd.
    apply NoDup_cons in Hnd as (_&Hnd). apply NoDup_cons in Hnd as (HbR&_).
    apply chain_cons_inv in Hc as (n&Hn&Hc).
    pose proof (lseg_cons_next _ _ _ _ _ Hc) as Hnx.
    rewrite Hnx in Hc. pose proof Hc as Hc'. apply chain_cons_inv in Hc' as (n'&Hn'&_).
    destruct (mark_one_spec s b n' q flag Hn') as (s1&Hm&Hfr1&Hnx1&Hl1&Hbig).
    simpl. rewrite Hn. simpl. rewrite Hnx, Hn'. simpl. rewrite Hm. simpl.
    destruct (quadrant_index n' <=? q + 1) eqn:Hq.
    + assert (Hc1 : chain s1 (Some b) (b :: R)).
      { eapply lseg_ext; [|exact Hc]. intros; apply Hnx1. }
      destruct (IH fuel b s1 Hc1 ltac:(lia)) as (s'&W&S&Hr&HR&Hnx'&Hl'&HS1&HW).
      exists s', (b :: W), S. split; [done|]. split; [by rewrite HR|].
      split; [intros p; by rewrite Hnx', Hnx1|].
      split; [|split].
      * intros p [Hpb HpR]%not_elem_of_cons. rewrite Hl' by done. by apply Hl1.
      * done.
      * intros w [->|Hw]%elem_of_cons.
        -- rewrite (carries_next_load s1 s') by (by apply Hl').
           by eapply mark_one_next.
        -- rewrite (HW w Hw). apply marked_next_load. apply Hl1.
           intros ->. apply HbR. rewrite HR. apply elem_of_app. by left.
    + exists s1, [], (b :: R). split; [done|]. split; [done|]. split; [done|].
      split; [|split].
      * intros p [Hpb _]%not_elem_of_cons. by apply Hl1.
      * apply Hbig. lia.
      * intros w Hw. by apply elem_of_nil in Hw.
Qed.

Lemma helper_rotation_stable rot q flag fuel s p0 A c R :
  chain s p0 (A ++ c :: R) → (length R < fuel)%nat →
  ∃ s' a M W W' S,
    paint_arrange_structs_helper_rotation rot fuel s (Some c) q flag = Some (Some a, s')
    ∧ c :: R = M ++ a :: W ++ S
    ∧ chain s' p0 (A ++ M ++ a :: W' ++ S)
    ∧ W' ≡ₚ W
    ∧ unmarked s q flag W' = unmarked s q flag W.
Proof.
  intros Hc Hf. destruct (chain_suffix _ _ _ _ Hc) as (m&HcA&Hcs).
  pose proof (lseg_cons_next _ _ _ _ _ Hcs) as ->.
  destruct (helper_advance_spec s q fuel R c Hcs Hf) as (M&a&R'&HM&[[-> Hr]|Hr]);
    unfold paint_arrange_structs_helper_rotation; simpl; rewrite Hr; simpl.
  { exists s, a, M, [], [], []. splits; try done. simpl. by rewrite <-HM. }
  assert (HlenR' : (length R' < fuel)%nat).
  { apply (f_equal length) in HM. simpl in HM. rewrite length_app in HM. simpl in HM. lia. }
  assert (Hc' : chain s p0 ((A ++ M) ++ a :: R')).
  { rewrite <-app_assoc, <-HM. done. }
  destruct (chain_suffix _ _ _ _ Hc') as (m&_&Hca).
  pose proof (lseg_cons_next _ _ _ _ _ Hca) as ->.
  destruct (helper_mark_next q flag fuel R' a s Hca HlenR')
    as (s1&W&S&Hs1&HR'&Hnx1&Hl1&HS1&HW).
  rewrite Hs1. simpl. subst R'.
  assert (Hc1 : chain s1 p0 ((A ++ M) ++ a :: W ++ S)).
  { eapply lseg_ext; [|exact Hc']. intros; apply Hnx1. }
  destruct (helper_outer_stable rot p0 (marked_next s q flag) S a fuel fuel s1
              (A ++ M) a W Hc1 HS1) as (s2&W'&Hs2&Hc2&HW'&HWk).
  { pose proof (pending_le_length s1 W). rewrite length_app in HlenR'. lia. }
  { rewrite length_app in HlenR'. lia. }
  { intros w Hw Hkw. by rewrite (HW w Hw). }
  rewrite Hs2. simpl.
  exists s2, a, M, W, W', S. splits; try done.
  by rewrite <-app_assoc in Hc2.
Qed.

(** One call of the reorder pass moves only nodes that the marking loop
    leaves with the NEXT marker.  The chain up to the returned anchor [a]
    and the part [S] behind the window stay as they were, the window [W]
    is permuted into [W'], and the nodes of the window without the marker
    ([unmarked]: with [flag = 0] those of bucket [q], and those of a lower
    bucket that did not carry the marker before the call) follow each
    other in [W'] in the order they had in [W]. *)
Theorem reorder_pass_keeps_unmarked (rotation q flag : Z) (fuel : nat)
    (s : paint_session) (p0 : option paint_struct_ptr)
    (A : list paint_struct_ptr) (c : paint_struct_ptr) (R : list paint_struct_ptr) :
  0 <= rotation < 4 → chain s p0 (A ++ c :: R) → (length R < fuel)%nat →
  ∃ s' a M W W' S,
    paint_arrange_structs_helper fuel s (Some c) q flag rotation = Some (Some a, s')
    ∧ c :: R = M ++ a :: W ++ S
    ∧ chain s' p0 (A ++ M ++ a :: W' ++ S)
    ∧ W' ≡ₚ W
    ∧ unmarked s q flag W' = unmarked s q flag W.
Proof.
  intros Hrot Hc Hf.
  assert (rotation = 0 ∨ rotation = 1 ∨ rotation = 2 ∨ rotation = 3)
    as [-> | [-> | [-> | ->]]] by lia;
    by apply helper_rotation_stable.
Qed.

Lemma reorder_pass_keeps_unmarked_witness :
  0 <= 0 < 4
  ∧ chain terrace_session (Some PaintHead_ptr)
      ([PaintHead_ptr] ++ PaintStructs_ptr 0 :: terrace_rest)
  ∧ (length terrace_rest < 6)%nat
  ∧ ∃ s' a M W W' S,
      paint_arrange_structs_helper 6 terrace_session (Some (PaintStructs_ptr 0)) 6 0 0
        = Some (Some a, s')
      ∧ PaintStructs_ptr 0 :: terrace_rest = M ++ a :: W ++ S
      ∧ chain s' (Some PaintHead_ptr) ([PaintHead_ptr] ++ M ++ a :: W' ++ S)
      ∧ W' ≡ₚ W
      ∧ unmarked terrace_session 6 0 W' = unmarked terrace_session 6 0 W.
Proof.
  assert (Hr : 0 <= 0 < 4) by lia.
  assert (Hf : (length terrace_rest < 6)%nat) by (simpl; lia).
  split; [exact Hr|]. split; [exact terrace_chain|]. split; [exact Hf|].
  exact (reorder_pass_keeps_unmarked 0 6 0 6 terrace_session _ [PaintHead_ptr] _ _ Hr terrace_chain Hf).
Defined.
